(** * cybermang: dungeon grid, entities, status effects, weapons and combat

    A shallow embedding of the Python sources (map.py, player.py, enemy.py,
    status_effects.py, weapons.py, game.py) and the properties of the
    specification that are checked against them.

    Conventions.
    - Python [int] is [Z]; exact rationals [Q] stand for the floats that
      carry probabilities, intensities, durations and clock readings.  The
      one float product whose rounding is observable in an integer result,
      [int(damage * 0.7)], is modelled bit-exactly (see [Float.int_mul_07]).
    - A Python exception ([IndexError], [ValueError]) is [None].
    - The random module is an oracle: an infinite sequence of raw draws that
      the library functions consume from the front. *)

From Stdlib Require Import ZArith QArith Qround Qminmax Qabs Lia Lqa Bool.
From stdpp Require Import base option list strings pretty.

Local Open Scope Z_scope.

(* ===================================================================== *)
(** * Part I: definitions                                                 *)
(* ===================================================================== *)

(** ** Python sequences *)

Module Py.

(** [l[i]]: negative indices count from the end, out of range raises. *)
Definition index {A} (l : list A) (i : Z) : option A :=
  let n := Z.of_nat (length l) in
  if 0 <=? i then l !! Z.to_nat i
  else if - n <=? i then l !! Z.to_nat (n + i)
  else None.

(** [l[i] = v]. *)
Definition setitem {A} (l : list A) (i : Z) (v : A) : option (list A) :=
  let n := Z.of_nat (length l) in
  if (0 <=? i) && (i <? n) then Some (<[Z.to_nat i := v]> l)
  else if (- n <=? i) && (i <? 0) then Some (<[Z.to_nat (n + i) := v]> l)
  else None.

(** [range(a, b)] as a list. *)
Definition range (a b : Z) : list Z :=
  map (fun k => a + Z.of_nat k) (seq 0 (Z.to_nat (b - a))).

End Py.

(** ** map.py *)

(** The characters stored in [Map.grid]:
    ['#'] [Wall], ['.'] [Floor], ['R'] [Rough], ['W'] [Water], ['T'] [Trees],
    ['L'] [Lava], ['S'] [Spikes], ['H'] [HealthPickup], ['A'] [AmmoPickup],
    ['P'] [PowerUp]. *)
Inductive cell : Set :=
  | Wall | Floor | Rough | Water | Trees | Lava | Spikes
  | HealthPickup | AmmoPickup | PowerUp.

Definition cell_eqb (a b : cell) : bool :=
  match a, b with
  | Wall, Wall | Floor, Floor | Rough, Rough | Water, Water | Trees, Trees
  | Lava, Lava | Spikes, Spikes | HealthPickup, HealthPickup
  | AmmoPickup, AmmoPickup | PowerUp, PowerUp => true
  | _, _ => false
  end.

Definition Grid := list (list cell).

(** [grid[y][x]] and [grid[y][x] = c]. *)
Definition grid_get (g : Grid) (x y : Z) : option cell :=
  row ← Py.index g y; Py.index row x.

Definition grid_set (g : Grid) (x y : Z) (c : cell) : option Grid :=
  row ← Py.index g y;
  row' ← Py.setitem row x c;
  Py.setitem g y row'.

Module Map.

(** The fields of [Map] that the game logic reads; the lighting, animation
    and zoom fields only feed the renderer. *)
Record t := mk { width : Z; height : Z; grid : Grid }.

Definition with_grid (m : t) (g : Grid) : t :=
  {| width := width m; height := height m; grid := g |}.

(** [0 <= x < self.width and 0 <= y < self.height] *)
Definition in_bounds (m : t) (x y : Z) : bool :=
  (0 <=? x) && (x <? width m) && (0 <=? y) && (y <? height m).

Definition is_blocked (m : t) (x y : Z) : option bool :=
  if negb (in_bounds m x y) then Some true
  else c ← grid_get (grid m) x y; Some (cell_eqb c Wall).

Definition get_terrain_effect (m : t) (x y : Z) : option Q :=
  if negb (in_bounds m x y) then Some 1%Q
  else
    terrain ← grid_get (grid m) x y;
    Some (match terrain with
          | Rough => 0.5 | Water => 0.3 | Trees => 0.7
          | Lava => 0.4 | Spikes => 0.9
          | _ => 1
          end)%Q.

Definition get_terrain_damage (m : t) (x y : Z) : option Z :=
  if negb (in_bounds m x y) then Some 0
  else
    terrain ← grid_get (grid m) x y;
    Some (match terrain with Lava => 15 | Spikes => 8 | _ => 0 end).

(** [collect_item] and [destroy_terrain] return the value handed back to the
    caller ([None] of Python is the inner [None]) and the map after the call. *)
Definition collect_item (m : t) (x y : Z) : option (option cell * t) :=
  if negb (in_bounds m x y) then Some (None, m)
  else
    item ← grid_get (grid m) x y;
    match item with
    | HealthPickup | AmmoPickup | PowerUp =>
        g' ← grid_set (grid m) x y Floor; Some (Some item, with_grid m g')
    | _ => Some (None, m)
    end.

Definition destroy_terrain (m : t) (x y : Z) : option (option cell * t) :=
  if negb (in_bounds m x y) then Some (None, m)
  else
    terrain ← grid_get (grid m) x y;
    match terrain with
    | Trees => g' ← grid_set (grid m) x y Floor; Some (Some Trees, with_grid m g')
    | _ => Some (None, m)
    end.

(** A map as [generate_maze] builds it: [height] rows of [width] cells. *)
Definition rect (w h : Z) (g : Grid) : Prop :=
  Z.of_nat (length g) = h /\ Forall (fun row => Z.of_nat (length row) = w) g.

Definition wf (m : t) : Prop := rect (width m) (height m) (grid m).

End Map.

(** ** Floats that reach an integer *)

Module Float.

(** The double nearest to 0.7 is [mant_07 * 2^-53]. *)
Definition mant_07 : Z := 6305039478318694.

(** Round-to-nearest, ties-to-even, of a non-negative integer to 53
    significant bits: what a double keeps of it. *)
Definition round53 (n : Z) : Z :=
  let sh := Z.log2 n + 1 - 53 in
  if sh <=? 0 then n
  else
    let q := n / 2 ^ sh in
    let r := n mod 2 ^ sh in
    let half := 2 ^ (sh - 1) in
    let q' := if (half <? r) || ((r =? half) && Z.odd q) then q + 1 else q in
    q' * 2 ^ sh.

(** [int(damage * 0.7)] for an int [damage]: the int is converted to a
    double, multiplied by the double 0.7 with one rounding, and truncated
    towards zero.  (Exponent overflow, beyond 10^308, is left out.) *)
Definition int_mul_07 (damage : Z) : Z :=
  Z.sgn damage * (round53 (round53 (Z.abs damage) * mant_07) / 2 ^ 53).

(** [int(x)] for a float [x] carried as a rational. *)
Definition int_of (x : Q) : Z :=
  if Qle_bool 0 x then Qfloor x else Qceiling x.

(** The integer nearest to a rational, a tie going to the even one. *)
Definition rne (x : Q) : Z :=
  let f := Qfloor x in
  let rest := (x - inject_Z f)%Q in
  if negb (Qle_bool (1 # 2) rest) then f
  else if negb (Qle_bool rest (1 # 2)) then f + 1
  else if Z.even f then f else f + 1.

(** [2 ** e] for an integer [e] of either sign. *)
Definition pow2 (e : Z) : Q :=
  if 0 <=? e then inject_Z (2 ^ e) else (/ inject_Z (2 ^ (- e)))%Q.

(** The double nearest to a rational, a tie going to the even mantissa:
    the rational is scaled into [2^52, 2^53), rounded to an integer and
    scaled back.  (Exponent overflow, beyond 10^308, and the subnormal
    range, below 10^-307, are left out.) *)
Definition round (x : Q) : Q :=
  if Qeq_bool x 0 then 0%Q
  else
    let a := Qabs x in
    let k := Z.log2 (Qnum a) - Z.log2 (Zpos (Qden a)) in
    let e := (if Qle_bool (pow2 k) a then k else k - 1) - 52 in
    (inject_Z (Z.sgn (Qnum x) * rne (a / pow2 e)) * pow2 e)%Q.

(** [x - y] and [x / y] on doubles: the exact result, rounded once.  An int
    operand below 2^53 is converted without loss. *)
Definition sub (x y : Q) : Q := round (x - y).

Definition div (x y : Q) : Q := round (x / y).

End Float.

(** ** The random module as an oracle *)

Module Random.

(** The generator: the raw draws still to come. *)
Definition t := nat -> Z.

Definition next (r : t) : Z * t := (r 0%nat, fun k => r (S k)).

(** [_randbelow(n)], for [n > 0]. *)
Definition randbelow (n : Z) (r : t) : Z * t :=
  let (k, r') := next r in (k mod n, r').

(** [random.random()]: a multiple of 2^-53 in [0, 1). *)
Definition random (r : t) : Q * t :=
  let (k, r') := next r in (Qmake (k mod 2 ^ 53) (Z.to_pos (2 ^ 53)), r').

(** [random.randint(a, b)]; an empty range raises [ValueError]. *)
Definition randint (a b : Z) (r : t) : option (Z * t) :=
  if b <? a then None
  else let (k, r') := randbelow (b - a + 1) r in Some (a + k, r').

(** [random.uniform(a, b)] *)
Definition uniform (a b : Q) (r : t) : Q * t :=
  let (u, r') := random r in ((a + (b - a) * u)%Q, r').

(** [random.choice(seq)]; an empty sequence raises [IndexError]. *)
Definition choice {A} (l : list A) (r : t) : option (A * t) :=
  match l with
  | [] => None
  | _ =>
      let (k, r') := randbelow (Z.of_nat (length l)) r in
      a ← l !! Z.to_nat k; Some (a, r')
  end.

End Random.

(** ** status_effects.py *)

Module StatusEffect.

Record t := mk {
  name : string;
  base_duration : Q;
  duration : Q;
  intensity : Q;
  max_intensity : Q;
  max_duration : Q
}.

(** [StatusEffect.__init__] *)
Definition init (name : string) (duration intensity : Q) : t :=
  {| name := name; base_duration := duration; duration := duration;
     intensity := intensity;
     max_intensity := (intensity * 3)%Q;
     max_duration := (duration * 2)%Q |}.

Definition duration_class : list string :=
  ["Paralysis"; "Blindness"; "Confusion"; "Haste"; "Slow"]%string.

Definition intensity_class : list string :=
  ["Poison"; "Regeneration"; "Strength"; "Weakness"; "Protection"]%string.

(** [self.stack_effect(existing_effect)]: the existing effect after the
    call.  Python's [min] and [max] keep their first argument on a tie, as
    [Qmin] and [Qmax] do. *)
Definition stack_effect (self existing : t) (r : Random.t) : t * Random.t :=
  if bool_decide (name self ∈ duration_class) then
    let (u, r') := Random.uniform 0.5 1 r in
    let duration_extension := (base_duration self * u)%Q in
    ({| name := name existing; base_duration := base_duration existing;
        duration := Qmin (duration existing + duration_extension)
                         (max_duration existing);
        intensity := intensity existing;
        max_intensity := max_intensity existing;
        max_duration := max_duration existing |}, r')
  else if bool_decide (name self ∈ intensity_class) then
    let (u, r') := Random.uniform 0.5 1 r in
    let intensity_increase := (intensity self * u)%Q in
    ({| name := name existing; base_duration := base_duration existing;
        duration := Qmax (duration existing) (base_duration self);
        intensity := Qmin (intensity existing + intensity_increase)
                          (max_intensity existing);
        max_intensity := max_intensity existing;
        max_duration := max_duration existing |}, r')
  else (existing, r).

(** [on_turn_end]: the effect after the decrement, and whether it is to be
    removed. *)
Definition on_turn_end (e : t) : t * bool :=
  let d := (duration e - 1)%Q in
  ({| name := name e; base_duration := base_duration e; duration := d;
      intensity := intensity e; max_intensity := max_intensity e;
      max_duration := max_duration e |}, Qle_bool d 0).

(** The constructors of the subclasses, with their defaults when the
    argument is omitted in the sources. *)
Definition PoisonEffect (duration intensity : Q) := init "Poison" duration intensity.
Definition ParalysisEffect (duration : Q) := init "Paralysis" duration 1.
Definition BlindnessEffect (duration : Q) := init "Blindness" duration 1.
Definition ConfusionEffect (duration : Q) := init "Confusion" duration 1.
Definition HasteEffect (duration : Q) := init "Haste" duration 1.
Definition SlowEffect (duration : Q) := init "Slow" duration 1.
Definition RegenerationEffect (duration intensity : Q) := init "Regeneration" duration intensity.
Definition StrengthEffect (duration intensity : Q) := init "Strength" duration intensity.
Definition WeaknessEffect (duration intensity : Q) := init "Weakness" duration intensity.
Definition ProtectionEffect (duration intensity : Q) := init "Protection" duration intensity.

End StatusEffect.

(** ** The status-effect state of an entity *)

(** [Player] and [Enemy] carry the same attributes and the same methods for
    status effects, word for word; both are written once here.  [who] is
    what [get_entity_name] gives back: the class name. *)
Module Effects.

Record t := mk {
  status_effects : list StatusEffect.t;
  paralyzed : bool;
  blinded : bool;
  confused : bool;
  hasted : bool;
  slowed : bool;
  strengthened : bool;
  weakened : bool;
  protected : bool;
  combat_log : list string
}.

Definition empty : t :=
  mk [] false false false false false false false false [].

Definition with_effects (l : list StatusEffect.t) (e : t) : t :=
  mk l (paralyzed e) (blinded e) (confused e) (hasted e) (slowed e)
     (strengthened e) (weakened e) (protected e) (combat_log e).

Definition log (msg : string) (e : t) : t :=
  mk (status_effects e) (paralyzed e) (blinded e) (confused e) (hasted e)
     (slowed e) (strengthened e) (weakened e) (protected e)
     (combat_log e ++ [msg]).

(** The attribute that the effect class of this name writes in its
    [apply_effect] and [remove_effect]; Poison and Regeneration write none. *)
Definition set_flag (name : string) (v : bool) (e : t) : t :=
  let sel (n : string) (old : bool) := if String.eqb name n then v else old in
  mk (status_effects e)
     (sel "Paralysis" (paralyzed e)) (sel "Blindness" (blinded e))
     (sel "Confusion" (confused e)) (sel "Haste" (hasted e))
     (sel "Slow" (slowed e)) (sel "Strength" (strengthened e))
     (sel "Weakness" (weakened e)) (sel "Protection" (protected e))
     (combat_log e).

Definition applied_text (name : string) : option string :=
  if String.eqb name "Paralysis" then Some " is paralyzed!"
  else if String.eqb name "Blindness" then Some " is blinded!"
  else if String.eqb name "Confusion" then Some " is confused!"
  else if String.eqb name "Haste" then Some " is hasted!"
  else if String.eqb name "Slow" then Some " is slowed!"
  else if String.eqb name "Strength" then Some " is strengthened!"
  else if String.eqb name "Weakness" then Some " is weakened!"
  else if String.eqb name "Protection" then Some " is protected!"
  else None.

Definition removed_text (name : string) : option string :=
  if String.eqb name "Paralysis" then Some " is no longer paralyzed!"
  else if String.eqb name "Blindness" then Some " can see again!"
  else if String.eqb name "Confusion" then Some " is no longer confused!"
  else if String.eqb name "Haste" then Some " is no longer hasted!"
  else if String.eqb name "Slow" then Some " is no longer slowed!"
  else if String.eqb name "Strength" then Some " is no longer strengthened!"
  else if String.eqb name "Weakness" then Some " is no longer weakened!"
  else if String.eqb name "Protection" then Some " is no longer protected!"
  else None.

Definition log_opt (who : string) (text : option string) (e : t) : t :=
  match text with Some txt => log (who ++ txt) e | None => e end.

(** [effect.apply_effect(entity)] and [effect.remove_effect(entity)] *)
Definition apply_effect (who : string) (effect : StatusEffect.t) (e : t) : t :=
  let n := StatusEffect.name effect in
  log_opt who (applied_text n) (set_flag n true e).

Definition remove_effect (who : string) (effect : StatusEffect.t) (e : t) : t :=
  let n := StatusEffect.name effect in
  log_opt who (removed_text n) (set_flag n false e).

(** The search loop of [apply_status_effect] followed by
    [effect.stack_effect(existing_effect)]: the first effect of the same
    name is updated in place; [None] when there is none. *)
Fixpoint stack_into (effect : StatusEffect.t) (l : list StatusEffect.t)
    (r : Random.t) : option (list StatusEffect.t * Random.t) :=
  match l with
  | [] => None
  | e :: l' =>
      if String.eqb (StatusEffect.name e) (StatusEffect.name effect) then
        let (e', r') := StatusEffect.stack_effect effect e r in
        Some (e' :: l', r')
      else
        match stack_into effect l' r with
        | Some (l'', r') => Some (e :: l'', r')
        | None => None
        end
  end.

Definition apply_status_effect (who : string) (effect : StatusEffect.t)
    (e : t) (r : Random.t) : t * Random.t :=
  let n := StatusEffect.name effect in
  match stack_into effect (status_effects e) r with
  | Some (l', r') =>
      (log (who ++ " " ++ n ++ " effect intensified!") (with_effects l' e), r')
  | None =>
      (log (who ++ " is affected by " ++ n ++ "!")
         (apply_effect who effect
            (with_effects (status_effects e ++ [effect]) e)), r)
  end.

(** [remove_status_effect]: the first effect of that name goes. *)
Fixpoint remove_first (effect_name : string) (l : list StatusEffect.t)
    : option (StatusEffect.t * list StatusEffect.t) :=
  match l with
  | [] => None
  | e :: l' =>
      if String.eqb (StatusEffect.name e) effect_name then Some (e, l')
      else
        match remove_first effect_name l' with
        | Some (x, l'') => Some (x, e :: l'')
        | None => None
        end
  end.

Definition remove_status_effect (who : string) (effect_name : string)
    (e : t) : bool * t :=
  match remove_first effect_name (status_effects e) with
  | Some (x, l') => (true, with_effects l' (remove_effect who x e))
  | None => (false, e)
  end.

Definition clear_all_status_effects (who : string) (e : t) : t :=
  with_effects []
    (fold_left (fun acc x => remove_effect who x acc) (status_effects e) e).

(** [update_status_effects]: every effect of the list is decremented in
    turn; an expired one is told to undo itself, leaves the list, and the
    removal is logged. *)
Fixpoint update_loop (who : string) (todo : list StatusEffect.t)
    (kept : list StatusEffect.t) (e : t) : t :=
  match todo with
  | [] => with_effects kept e
  | x :: todo' =>
      let (x', expired) := StatusEffect.on_turn_end x in
      if expired then
        update_loop who todo' kept
          (log (who ++ " is no longer affected by " ++ StatusEffect.name x ++ "!")
             (remove_effect who x' e))
      else update_loop who todo' (kept ++ [x']) e
  end.

Definition update_status_effects (who : string) (e : t) : t :=
  update_loop who (status_effects e) [] e.

Definition get_active_effects (e : t) : list string :=
  map StatusEffect.name (status_effects e).

Definition has_status_effect (effect_name : string) (e : t) : bool :=
  existsb (fun x => String.eqb (StatusEffect.name x) effect_name)
          (status_effects e).

(** [can_act]: the draw is made only when the entity is slowed. *)
Definition can_act (e : t) (r : Random.t) : bool * Random.t :=
  if paralyzed e then (false, r)
  else if slowed e then
    let (u, r') := Random.random r in
    if Qle_bool 0.5 u then (true, r') else (false, r')
  else (true, r).

End Effects.

(** ** weapons.py: the weapon record *)

Module Weapon.

Record t := mk {
  name : string;
  damage : Z;
  range : Z;
  ammo_capacity : Z;
  ammo : Z;
  fire_rate : Q;
  last_shot_time : Q
}.

(** [Weapon.__init__] *)
Definition init (name : string) (damage range ammo_capacity : Z) (fire_rate : Q) : t :=
  mk name damage range ammo_capacity ammo_capacity fire_rate 0.

Definition with_ammo (a : Z) (w : t) : t :=
  mk (name w) (damage w) (range w) (ammo_capacity w) a (fire_rate w)
     (last_shot_time w).

(** [can_shoot], with the reading of [time.time()] as [now]; [None] is the
    [ZeroDivisionError] of [1.0 / self.fire_rate], which [and] evaluates
    only when there is ammo.  The elapsed time and the interval are the
    doubles that the subtraction and the division give. *)
Definition can_shoot (now : Q) (w : t) : option bool :=
  if negb (0 <? ammo w) then Some false
  else if Qeq_bool (fire_rate w) 0 then None
  else Some (Qle_bool (Float.div 1 (fire_rate w))
                      (Float.sub now (last_shot_time w))).

Definition reload (amount : Z) (w : t) : t :=
  with_ammo (Z.min (ammo_capacity w) (ammo w + amount)) w.

(** The first two statements of every [shoot] that passes [can_shoot]. *)
Definition fired (now : Q) (w : t) : t :=
  mk (name w) (damage w) (range w) (ammo_capacity w) (ammo w - 1)
     (fire_rate w) now.

Definition LaserPistol : t := init "Laser Pistol" 20 10 30 2.
Definition Shotgun : t := init "Shotgun" 15 5 8 1.
Definition PlasmaRifle : t := init "Plasma Rifle" 35 15 25 2.
Definition GrenadeLauncher : t := init "Grenade Launcher" 25 8 12 1.
Definition RailGun : t := init "Rail Gun" 45 12 8 3.
Definition Flamethrower : t := init "Flamethrower" 8 4 50 3.
Definition Crossbow : t := init "Crossbow" 40 10 20 1.

End Weapon.

(** ** Positions, as interfaces.py declares them for players and enemies *)

Class HasPos (A : Type) := { pos_x : A -> Z; pos_y : A -> Z }.

#[export] Instance pair_HasPos : HasPos (Z * Z) := {| pos_x := fst; pos_y := snd |}.

(** ** player.py *)

Module Player.

(** The action list and the weapon slot are left out: nothing below reads
    them. *)
Record t := mk {
  x : Z;
  y : Z;
  health : Z;
  max_health : Z;
  fx : Effects.t;
  mana : Z;
  max_mana : Z;
  mana_regeneration : Z
}.

(** [Player(x, y, health)] *)
Definition init (x y health : Z) : t :=
  mk x y health health Effects.empty 50 50 5.

Definition get_entity_name : string := "Player".

Definition with_health (h : Z) (p : t) : t :=
  mk (x p) (y p) h (max_health p) (fx p) (mana p) (max_mana p)
     (mana_regeneration p).

Definition with_pos (nx ny : Z) (p : t) : t :=
  mk nx ny (health p) (max_health p) (fx p) (mana p) (max_mana p)
     (mana_regeneration p).

Definition with_fx (f : Effects.t) (p : t) : t :=
  mk (x p) (y p) (health p) (max_health p) f (mana p) (max_mana p)
     (mana_regeneration p).

Definition with_mana (m : Z) (p : t) : t :=
  mk (x p) (y p) (health p) (max_health p) (fx p) m (max_mana p)
     (mana_regeneration p).

Definition take_damage (damage : Z) (ignore_protection : bool) (p : t) : t :=
  let damage :=
    if Effects.protected (fx p) && negb ignore_protection
    then Float.int_mul_07 damage else damage in
  let h := health p - damage in
  with_health (if h <? 0 then 0 else h) p.

Definition apply_status_effect (effect : StatusEffect.t) (p : t)
    (r : Random.t) : t * Random.t :=
  let (f, r') := Effects.apply_status_effect get_entity_name effect (fx p) r in
  (with_fx f p, r').

Definition remove_status_effect (effect_name : string) (p : t) : bool * t :=
  let (b, f) := Effects.remove_status_effect get_entity_name effect_name (fx p) in
  (b, with_fx f p).

Definition on_turn_end (p : t) : t :=
  with_fx (Effects.update_status_effects get_entity_name (fx p)) p.

(** [effect.on_turn_start(player)], by the class of the effect. *)
Definition effect_turn_start (effect : StatusEffect.t) (p : t) : t :=
  let n := StatusEffect.name effect in
  if String.eqb n "Poison" then
    let damage := Float.int_of (5 * StatusEffect.intensity effect) in
    let p := take_damage damage true p in
    with_fx (Effects.log (get_entity_name ++ " takes " ++ pretty damage
                          ++ " poison damage!") (fx p)) p
  else if String.eqb n "Regeneration" then
    let healing := Float.int_of (3 * StatusEffect.intensity effect) in
    let p := with_health (Z.min (max_health p) (health p + healing)) p in
    with_fx (Effects.log (get_entity_name ++ " regenerates " ++ pretty healing
                          ++ " HP!") (fx p)) p
  else p.

Definition on_turn_start (p : t) : t :=
  let p := with_mana (Z.min (max_mana p) (mana p + mana_regeneration p)) p in
  fold_left (fun acc effect => effect_turn_start effect acc)
            (Effects.status_effects (fx p)) p.

(** [move]: whether the player moved, and the player, the map and the
    weapons after the call. *)
Definition move {E} `{HasPos E} (dx dy : Z) (game_map : Map.t)
    (weapons : list Weapon.t) (enemies : list E) (p : t) (r : Random.t)
    : option (bool * t * Map.t * list Weapon.t * Random.t) :=
  let (ok, r) := Effects.can_act (fx p) r in
  if negb ok then Some (false, p, game_map, weapons, r)
  else
    let new_x := x p + dx in
    let new_y := y p + dy in
    blocked ← Map.is_blocked game_map new_x new_y;
    if (blocked : bool) then Some (false, p, game_map, weapons, r)
    else if existsb (fun e => (pos_x e =? new_x) && (pos_y e =? new_y)) enemies
    then Some (false, p, game_map, weapons, r)
    else
      terrain_damage ← Map.get_terrain_damage game_map new_x new_y;
      let p := if 0 <? terrain_damage then take_damage terrain_damage false p
               else p in
      _ ← Map.get_terrain_effect game_map new_x new_y;
      let p := with_pos new_x new_y p in
      collected ← Map.collect_item game_map new_x new_y;
      let game_map := snd collected in
      match fst collected with
      | Some HealthPickup =>
          Some (true, with_health (Z.min (max_health p) (health p + 20)) p,
                game_map, weapons, r)
      | Some AmmoPickup =>
          Some (true, p, game_map, map (Weapon.reload 10) weapons, r)
      | Some PowerUp =>
          Some (true, with_health (Z.min (max_health p) (health p + 10)) p,
                game_map, map (Weapon.reload 5) weapons, r)
      | _ => Some (true, p, game_map, weapons, r)
      end.

(** combat_actions.py, [UseItemAction("health_potion")] and
    [CastSpellAction("heal")] on the player: the statement that writes the
    health. *)
Definition use_health_potion (p : t) : t :=
  with_health (Z.min (max_health p) (health p + 30)) p.

Definition cast_heal (p : t) : t :=
  with_health (Z.min (max_health p) (health p + 30)) p.

(** game.py, [check_item_pickup] on a [HealthPack]. *)
Definition pick_health_pack (heal_amount : Z) (p : t) : t :=
  with_health (Z.min 100 (health p + heal_amount)) p.

End Player.

(** ** enemy.py *)

Module Enemy.

Inductive strategy := Direct | Flanking | Circling.

(** The classes [Enemy], [FastEnemy], [TankEnemy], [SniperEnemy],
    [HealerEnemy] and [StealthEnemy]. *)
Inductive archetype := Basic | Fast | Tank | Sniper | Healer | Stealth.

(** [heal_cooldown] exists on a [HealerEnemy] only; the other classes never
    read it. *)
Record t := mk {
  kind : archetype;
  x : Z;
  y : Z;
  health : Z;
  move_cooldown : Z;
  strat : strategy;
  fx : Effects.t;
  heal_cooldown : Z
}.

(** The attributes each subclass sets once in [__init__] and never writes
    again.  The base class has no [speed]. *)
Definition speed (k : archetype) : option Z :=
  match k with
  | Basic => None
  | Fast => Some 2 | Tank => Some 3 | Sniper => Some 2
  | Healer => Some 2 | Stealth => Some 1
  end.

Definition spawn_health (k : archetype) : Z :=
  match k with
  | Basic => 50 | Fast => 30 | Tank => 150 | Sniper => 40
  | Healer => 50 | Stealth => 35
  end.

Definition preferred_distance : Z := 8.
Definition heal_range : Z := 5.
Definition detection_range : Z := 6.

Definition get_entity_name (e : t) : string :=
  match kind e with
  | Basic => "Enemy" | Fast => "FastEnemy" | Tank => "TankEnemy"
  | Sniper => "SniperEnemy" | Healer => "HealerEnemy"
  | Stealth => "StealthEnemy"
  end.

(** [Enemy(x, y, health)]: the strategy is drawn at random. *)
Definition init (x y health : Z) (r : Random.t) : option (t * Random.t) :=
  c ← Random.choice [Direct; Flanking; Circling] r;
  Some (mk Basic x y health 0 (fst c) Effects.empty 0, snd c).

(** The subclass constructors: the base constructor draws a strategy, the
    subclass then overwrites it. *)
Definition init_kind (k : archetype) (x y : Z) (r : Random.t)
    : option (t * Random.t) :=
  c ← Random.choice [Direct; Flanking; Circling] r;
  let s := match k with
           | Basic => fst c
           | Fast => Direct
           | Tank => Circling
           | Sniper | Healer | Stealth => Flanking
           end in
  Some (mk k x y (spawn_health k) 0 s Effects.empty 0, snd c).

Definition with_health (h : Z) (e : t) : t :=
  mk (kind e) (x e) (y e) h (move_cooldown e) (strat e) (fx e) (heal_cooldown e).

Definition with_pos (nx ny : Z) (e : t) : t :=
  mk (kind e) nx ny (health e) (move_cooldown e) (strat e) (fx e)
     (heal_cooldown e).

Definition with_move_cooldown (c : Z) (e : t) : t :=
  mk (kind e) (x e) (y e) (health e) c (strat e) (fx e) (heal_cooldown e).

Definition with_strat (s : strategy) (e : t) : t :=
  mk (kind e) (x e) (y e) (health e) (move_cooldown e) s (fx e)
     (heal_cooldown e).

Definition with_fx (f : Effects.t) (e : t) : t :=
  mk (kind e) (x e) (y e) (health e) (move_cooldown e) (strat e) f
     (heal_cooldown e).

Definition with_heal_cooldown (c : Z) (e : t) : t :=
  mk (kind e) (x e) (y e) (health e) (move_cooldown e) (strat e) (fx e) c.

Definition take_damage (damage : Z) (ignore_protection : bool) (e : t) : t :=
  let damage :=
    if Effects.protected (fx e) && negb ignore_protection
    then Float.int_mul_07 damage else damage in
  with_health (health e - damage) e.

Definition apply_status_effect (effect : StatusEffect.t) (e : t)
    (r : Random.t) : t * Random.t :=
  let (f, r') := Effects.apply_status_effect (get_entity_name e) effect (fx e) r in
  (with_fx f e, r').

Definition remove_status_effect (effect_name : string) (e : t) : bool * t :=
  let (b, f) := Effects.remove_status_effect (get_entity_name e) effect_name (fx e) in
  (b, with_fx f e).

Definition on_turn_end (e : t) : t :=
  with_fx (Effects.update_status_effects (get_entity_name e) (fx e)) e.

(** [effect.on_turn_start(enemy)].  An enemy has no [max_health], so
    [getattr(entity, 'max_health', entity.health)] is its health. *)
Definition effect_turn_start (effect : StatusEffect.t) (e : t) : t :=
  let n := StatusEffect.name effect in
  if String.eqb n "Poison" then
    let damage := Float.int_of (5 * StatusEffect.intensity effect) in
    let e := take_damage damage true e in
    with_fx (Effects.log (get_entity_name e ++ " takes " ++ pretty damage
                          ++ " poison damage!") (fx e)) e
  else if String.eqb n "Regeneration" then
    let healing := Float.int_of (3 * StatusEffect.intensity effect) in
    let e := with_health (Z.min (health e) (health e + healing)) e in
    with_fx (Effects.log (get_entity_name e ++ " regenerates " ++ pretty healing
                          ++ " HP!") (fx e)) e
  else e.

Definition on_turn_start (e : t) : t :=
  fold_left (fun acc effect => effect_turn_start effect acc)
            (Effects.status_effects (fx e)) e.

Definition check_collision {P} `{HasPos P} (player : P) (e : t) : bool :=
  (x e =? pos_x player) && (y e =? pos_y player).

(** [_would_collide_with_enemy]: [self] is the enemy at index [i] of
    [all_enemies]; [enemy is not self] compares the index. *)
Definition would_collide_with_enemy (i : nat) (nx ny : Z) (all_enemies : list t)
    : bool :=
  existsb (fun je => negb (Nat.eqb (fst je) i)
                     && (x (snd je) =? nx) && (y (snd je) =? ny))
          (imap (fun j e => (j, e)) all_enemies).

(** The guarded step that every movement routine writes out at each of
    its attempts: the cell must not be blocked, not hold the player and not
    hold another enemy; the terrain hurts on entry.  [None] inside: the
    step was not taken. *)
Definition try_step {P} `{HasPos P} (i : nat) (nx ny : Z) (game_map : Map.t)
    (player : P) (all_enemies : list t) (e : t) : option (option t) :=
  blocked ← Map.is_blocked game_map nx ny;
  if negb blocked
     && negb ((nx =? pos_x player) && (ny =? pos_y player))
     && negb (would_collide_with_enemy i nx ny all_enemies)
  then
    terrain_damage ← Map.get_terrain_damage game_map nx ny;
    let e := if 0 <? terrain_damage then take_damage terrain_damage false e
             else e in
    Some (Some (with_pos nx ny e))
  else Some None.

Definition sign_step (d : Z) : Z := if 0 <? d then 1 else -1.

Definition direct_move {P} `{HasPos P} (i : nat) (dx dy : Z) (game_map : Map.t)
    (player : P) (all_enemies : list t) (e : t) : option t :=
  if Z.abs dy <? Z.abs dx then
    s ← try_step i (x e + sign_step dx) (y e) game_map player all_enemies e;
    match s with
    | Some e' => Some e'
    | None =>
        s' ← try_step i (x e) (y e + sign_step dy) game_map player all_enemies e;
        Some (default e s')
    end
  else
    s ← try_step i (x e) (y e + sign_step dy) game_map player all_enemies e;
    match s with
    | Some e' => Some e'
    | None =>
        s' ← try_step i (x e + sign_step dx) (y e) game_map player all_enemies e;
        Some (default e s')
    end.

Definition flanking_move {P} `{HasPos P} (i : nat) (dx dy : Z) (game_map : Map.t)
    (player : P) (all_enemies : list t) (e : t) (r : Random.t)
    : option (t * Random.t) :=
  let (u, r) := Random.random r in
  let side := if Qle_bool u 0.5 then -1 else 1 in
  s ← (if Z.abs dy <? Z.abs dx
       then try_step i (x e) (y e + side) game_map player all_enemies e
       else try_step i (x e + side) (y e) game_map player all_enemies e);
  match s with
  | Some e' => Some (e', r)
  | None => e' ← direct_move i dx dy game_map player all_enemies e; Some (e', r)
  end.

Definition circling_move {P} `{HasPos P} (i : nat) (dx dy : Z) (game_map : Map.t)
    (player : P) (all_enemies : list t) (e : t) : option t :=
  let circle_dir := if (x e + y e) mod 2 =? 0 then 1 else -1 in
  s ← (if Z.abs dy <? Z.abs dx
       then try_step i (x e) (y e + circle_dir) game_map player all_enemies e
       else try_step i (x e + circle_dir) (y e) game_map player all_enemies e);
  match s with
  | Some e' => Some e'
  | None => direct_move i dx dy game_map player all_enemies e
  end.

(** The statement of [_try_heal_allies] that heals one ally:
    [enemy.health = min(enemy.health + 20, 100)]. *)
Definition heal_ally (e : t) : t := with_health (Z.min (health e + 20) 100) e.

(** [HealerEnemy._try_heal_allies]: the roster and the healer after the
    call. *)
Definition try_heal_allies (i : nat) (all_enemies : list t) (self : t)
    : list t * t :=
  let needs (j : nat) (e : t) : bool :=
    negb (Nat.eqb j i)
    && (Z.abs (x e - x self) + Z.abs (y e - y self) <=? heal_range)
    && (health e <? 50) in
  let healed := existsb (fun je => needs (fst je) (snd je))
                        (imap (fun j e => (j, e)) all_enemies) in
  (imap (fun j e => if needs j e then heal_ally e else e) all_enemies,
   if healed then with_heal_cooldown 8 self else self).

(** [SniperEnemy.move_towards], the branch taken when the target is closer
    than the preferred distance: one step away, no fallback. *)
Definition retreat {P} `{HasPos P} (i : nat) (dx dy : Z) (game_map : Map.t)
    (player : P) (all_enemies : list t) (e : t) : option t :=
  s ← (if Z.abs dy <? Z.abs dx
       then try_step i (x e - sign_step dx) (y e) game_map player all_enemies e
       else try_step i (x e) (y e - sign_step dy) game_map player all_enemies e);
  Some (default e s).

(** What [move_towards] does once the gates are passed, class by class: the
    roster with the moved enemy at index [i]. *)
Definition act {P} `{HasPos P} (i : nat) (dx dy : Z) (game_map : Map.t)
    (player : P) (all_enemies : list t) (self : t) (r : Random.t)
    : option (list t * Random.t) :=
  match kind self with
  | Basic =>
      moved ← match strat self with
              | Direct =>
                  e ← direct_move i dx dy game_map player all_enemies self;
                  Some (e, r)
              | Flanking =>
                  flanking_move i dx dy game_map player all_enemies self r
              | Circling =>
                  e ← circling_move i dx dy game_map player all_enemies self;
                  Some (e, r)
              end;
      let (u, r1) := Random.random (snd moved) in
      rerolled ← (if negb (Qle_bool 0.05 u)
                  then c ← Random.choice [Direct; Flanking; Circling] r1;
                       Some (with_strat (fst c) (fst moved), snd c)
                  else Some (fst moved, r1));
      cd ← Random.randint 0 2 (snd rerolled);
      Some (<[i := with_move_cooldown (fst cd) (fst rerolled)]> all_enemies,
            snd cd)
  | Fast =>
      e ← direct_move i dx dy game_map player all_enemies self;
      sp ← speed (kind self);
      Some (<[i := with_move_cooldown (sp - 1) e]> all_enemies, r)
  | Tank =>
      e ← circling_move i dx dy game_map player all_enemies self;
      sp ← speed (kind self);
      Some (<[i := with_move_cooldown (sp - 1) e]> all_enemies, r)
  | Sniper =>
      moved ← (if Z.abs dx + Z.abs dy <? preferred_distance
               then e ← retreat i dx dy game_map player all_enemies self;
                    Some (e, r)
               else flanking_move i dx dy game_map player all_enemies self r);
      sp ← speed (kind self);
      Some (<[i := with_move_cooldown (sp - 1) (fst moved)]> all_enemies,
            snd moved)
  | Healer =>
      let '(roster, self) :=
        if (heal_cooldown self <=? 0) && negb (bool_decide (all_enemies = []))
        then try_heal_allies i all_enemies self
        else (all_enemies, self) in
      moved ← flanking_move i dx dy game_map player roster self r;
      sp ← speed (kind self);
      let e := with_move_cooldown (sp - 1) (fst moved) in
      let e := with_heal_cooldown (Z.max 0 (heal_cooldown e - 1)) e in
      Some (<[i := e]> roster, snd moved)
  | Stealth =>
      moved ← (if Z.abs dx + Z.abs dy <=? detection_range
               then flanking_move i dx dy game_map player all_enemies self r
               else
                 let (u, r1) := Random.random r in
                 if negb (Qle_bool 0.3 u)
                 then e ← direct_move i dx dy game_map player all_enemies self;
                      Some (e, r1)
                 else Some (self, r1));
      sp ← speed (kind self);
      Some (<[i := with_move_cooldown (sp - 1) (fst moved)]> all_enemies,
            snd moved)
  end.

(** [move_towards] of the enemy at index [i] of the roster: the gate on
    [can_act], the gate on [move_cooldown], then the move of its class. *)
Definition move_towards {P} `{HasPos P} (i : nat) (target_x target_y : Z)
    (game_map : Map.t) (player : P) (all_enemies : list t) (r : Random.t)
    : option (list t * Random.t) :=
  self ← all_enemies !! i;
  let (ok, r) := Effects.can_act (fx self) r in
  if negb ok then Some (all_enemies, r)
  else if 0 <? move_cooldown self then
    Some (<[i := with_move_cooldown (move_cooldown self - 1) self]> all_enemies, r)
  else
    act i (target_x - x self) (target_y - y self) game_map player
        all_enemies self r.

End Enemy.

(** ** weapons.py: firing *)

(** Every [shoot] is modelled with [stdscr=None], the headless call: the
    animation draws and sleeps, and its one call into the game state,
    [enemy.take_damage(0)], changes nothing. *)
Module Shoot.

(** The direction tables; a key that is missing means ['right']. *)
Definition directions8 (direction : string) : Z * Z :=
  if String.eqb direction "up" then (0, -1)
  else if String.eqb direction "down" then (0, 1)
  else if String.eqb direction "left" then (-1, 0)
  else if String.eqb direction "right" then (1, 0)
  else if String.eqb direction "up_left" then (-1, -1)
  else if String.eqb direction "up_right" then (1, -1)
  else if String.eqb direction "down_left" then (-1, 1)
  else if String.eqb direction "down_right" then (1, 1)
  else (1, 0).

Definition directions4 (direction : string) : Z * Z :=
  if String.eqb direction "up" then (0, -1)
  else if String.eqb direction "down" then (0, 1)
  else if String.eqb direction "left" then (-1, 0)
  else if String.eqb direction "right" then (1, 0)
  else (1, 0).

(** [enemy.x == tx and enemy.y == ty] *)
Definition at_cell (tx ty : Z) (e : Enemy.t) : bool :=
  (Enemy.x e =? tx) && (Enemy.y e =? ty).

(** What a shot returns: the boolean, and the weapon, the map and the
    roster after the call. *)
Definition result : Type := bool * Weapon.t * Map.t * list Enemy.t.

(** The loop that ends every [shoot]:
    [for tree_x, tree_y in hit_trees: game_map.destroy_terrain(...)]. *)
Fixpoint destroy_trees (hit_trees : list (Z * Z)) (game_map : Map.t)
    : option Map.t :=
  match hit_trees with
  | [] => Some game_map
  | (tx, ty) :: rest =>
      res ← Map.destroy_terrain game_map tx ty;
      destroy_trees rest (snd res)
  end.

(** The state of a beam loop: the cells traced, the trees met, the roster,
    and how many hits were recorded. *)
Record beam := mk_beam {
  positions : list (Z * Z);
  trees : list (Z * Z);
  enemies : list Enemy.t;
  hits : nat
}.

(** [LaserPistol.shoot], the inner loop over the roster: the first enemy on
    the cell takes the damage and the loop breaks.  [None]: no enemy
    there. *)
Fixpoint hit_first (tx ty damage : Z) (roster : list Enemy.t)
    : option (list Enemy.t) :=
  match roster with
  | [] => None
  | e :: rest =>
      if at_cell tx ty e then Some (Enemy.take_damage damage false e :: rest)
      else rest' ← hit_first tx ty damage rest; Some (e :: rest')
  end.

(** [LaserPistol.shoot], the loop [for i in range(1, self.range + 1)]. *)
Fixpoint pistol_loop (damage x y dx dy : Z) (game_map : Map.t) (steps : list Z)
    (st : beam) : option beam :=
  match steps with
  | [] => Some st
  | i :: steps' =>
      let tx := x + dx * i in
      let ty := y + dy * i in
      if negb (Map.in_bounds game_map tx ty) then Some st
      else
        c ← grid_get (Map.grid game_map) tx ty;
        if cell_eqb c Wall then Some st
        else
          let st := mk_beam (positions st ++ [(tx, ty)])
                      (if cell_eqb c Trees then trees st ++ [(tx, ty)]
                       else trees st)
                      (enemies st) (hits st) in
          match hit_first tx ty damage (enemies st) with
          | Some roster' =>
              Some (mk_beam (positions st) (trees st) roster' 1)
          | None => pistol_loop damage x y dx dy game_map steps' st
          end
  end.

Definition LaserPistol_shoot (now : Q) (w : Weapon.t) (x y : Z)
    (direction : string) (game_map : Map.t) (roster : list Enemy.t)
    : option result :=
  ready ← Weapon.can_shoot now w;
  if negb ready then Some (false, w, game_map, roster)
  else
    let w := Weapon.fired now w in
    let (dx, dy) := directions8 direction in
    st ← pistol_loop (Weapon.damage w) x y dx dy game_map
           (Py.range 1 (Weapon.range w + 1)) (mk_beam [] [] roster 0);
    game_map' ← destroy_trees (trees st) game_map;
    Some ((0 <? Z.of_nat (hits st))
          || (0 <? Z.of_nat (length (positions st)))
          || (0 <? Z.of_nat (length (trees st))),
          w, game_map', enemies st).

(** [RailGun.shoot], the inner loop: every enemy on the cell takes the
    damage; the loop does not break. *)
Definition hit_all (tx ty damage : Z) (roster : list Enemy.t) : list Enemy.t :=
  map (fun e => if at_cell tx ty e then Enemy.take_damage damage false e else e)
      roster.

Fixpoint rail_loop (damage x y dx dy : Z) (game_map : Map.t) (steps : list Z)
    (st : beam) : option beam :=
  match steps with
  | [] => Some st
  | i :: steps' =>
      let tx := x + dx * i in
      let ty := y + dy * i in
      if negb (Map.in_bounds game_map tx ty) then Some st
      else
        c ← grid_get (Map.grid game_map) tx ty;
        if cell_eqb c Wall then Some st
        else
          rail_loop damage x y dx dy game_map steps'
            (mk_beam (positions st ++ [(tx, ty)])
               (if cell_eqb c Trees then trees st ++ [(tx, ty)] else trees st)
               (hit_all tx ty damage (enemies st))
               (hits st + length (List.filter (at_cell tx ty) (enemies st))))
  end.

Definition RailGun_shoot (now : Q) (w : Weapon.t) (x y : Z)
    (direction : string) (game_map : Map.t) (roster : list Enemy.t)
    : option result :=
  ready ← Weapon.can_shoot now w;
  if negb ready then Some (false, w, game_map, roster)
  else
    let w := Weapon.fired now w in
    let (dx, dy) := directions4 direction in
    st ← rail_loop (Weapon.damage w) x y dx dy game_map
           (Py.range 1 (Weapon.range w + 1)) (mk_beam [] [] roster 0);
    game_map' ← destroy_trees (trees st) game_map;
    Some ((0 <? Z.of_nat (hits st))
          || (0 <? Z.of_nat (length (positions st)))
          || (0 <? Z.of_nat (length (trees st))),
          w, game_map', enemies st).

(** The state of the explosion loop of [GrenadeLauncher.shoot]:
    [hit_enemies] holds enemy objects and is searched by identity; here it
    holds their indices in the roster. *)
Record blast := mk_blast {
  explosion_positions : list (Z * Z);
  blast_trees : list (Z * Z);
  blast_enemies : list Enemy.t;
  hit_enemies : list nat
}.

(** The inner loop over the roster for one cell of the explosion; [j] is
    the index of the head of [roster]. *)
Fixpoint blast_roster (tx ty damage : Z) (j : nat) (roster : list Enemy.t)
    (hit : list nat) : list Enemy.t * list nat :=
  match roster with
  | [] => ([], hit)
  | e :: rest =>
      if at_cell tx ty e && negb (bool_decide (j ∈ hit)) then
        let (rest', hit') := blast_roster tx ty damage (S j) rest (hit ++ [j]) in
        (Enemy.take_damage damage false e :: rest', hit')
      else
        let (rest', hit') := blast_roster tx ty damage (S j) rest hit in
        (e :: rest', hit')
  end.

(** The body of the two nested loops, for the offset [(ex, ey)]. *)
Definition blast_cell (damage impact_x impact_y : Z) (game_map : Map.t)
    (ex ey : Z) (st : blast) : option blast :=
  let tx := impact_x + ex in
  let ty := impact_y + ey in
  if Map.in_bounds game_map tx ty then
    c ← grid_get (Map.grid game_map) tx ty;
    if negb (cell_eqb c Wall) then
      let dmg := if (ex =? 0) && (ey =? 0) then damage else damage / 2 in
      let (roster', hit') :=
        blast_roster tx ty dmg 0 (blast_enemies st) (hit_enemies st) in
      Some (mk_blast (explosion_positions st ++ [(tx, ty)])
              (if cell_eqb c Trees then blast_trees st ++ [(tx, ty)]
               else blast_trees st)
              roster' hit')
    else Some st
  else Some st.

(** A [for] loop whose body may raise. *)
Fixpoint for_each {A S} (body : A -> S -> option S) (l : list A) (s : S)
    : option S :=
  match l with
  | [] => Some s
  | a :: l' => s' ← body a s; for_each body l' s'
  end.

(** The impact point: two thirds of the range along the direction, then
    clamped to the grid. *)
Definition impact (w : Weapon.t) (x y dx dy : Z) (game_map : Map.t) : Z * Z :=
  let impact_distance := Weapon.range w * 2 / 3 in
  let impact_x := x + dx * impact_distance in
  let impact_y := y + dy * impact_distance in
  (Z.max 0 (Z.min impact_x (Map.width game_map - 1)),
   Z.max 0 (Z.min impact_y (Map.height game_map - 1))).

Definition GrenadeLauncher_shoot (now : Q) (w : Weapon.t) (x y : Z)
    (direction : string) (game_map : Map.t) (roster : list Enemy.t)
    : option result :=
  ready ← Weapon.can_shoot now w;
  if negb ready then Some (false, w, game_map, roster)
  else
    let w := Weapon.fired now w in
    let (dx, dy) := directions4 direction in
    let (impact_x, impact_y) := impact w x y dx dy game_map in
    st ← for_each
           (fun ex => for_each
              (fun ey => blast_cell (Weapon.damage w) impact_x impact_y
                           game_map ex ey)
              (Py.range (-1) 2))
           (Py.range (-1) 2) (mk_blast [] [] roster []);
    game_map' ← destroy_trees (blast_trees st) game_map;
    Some ((0 <? Z.of_nat (length (hit_enemies st)))
          || (0 <? Z.of_nat (length (explosion_positions st)))
          || (0 <? Z.of_nat (length (blast_trees st))),
          w, game_map', blast_enemies st).

End Shoot.

(** Players and enemies have positions. *)
#[export] Instance player_HasPos : HasPos Player.t :=
  {| pos_x := Player.x; pos_y := Player.y |}.

#[export] Instance enemy_HasPos : HasPos Enemy.t :=
  {| pos_x := Enemy.x; pos_y := Enemy.y |}.

(** ** game.py: combat mode and the enemy tick *)

Module Game.

(** An entry of [turn_order]: the player object, or the enemy object found
    at an index of [enemies].  The roster is not changed while the game is
    in combat mode, so an index names one object throughout. *)
Inductive entity := ThePlayer | TheEnemy (i : nat).

(** The fields of [Game] that the combat state machine and the enemy tick
    read or write. *)
Record t := mk {
  combat_mode : bool;
  turn_order : list entity;
  current_turn_index : Z;
  combat_log : list string;
  activity_log : list string;
  max_log_entries : Z;
  status_message : string;
  player : Player.t;
  enemies : list Enemy.t;
  game_map : Map.t;
  score : Z
}.

Definition with_combat (mode : bool) (order : list entity) (index : Z)
    (log : list string) (status : string) (g : t) : t :=
  mk mode order index log (activity_log g) (max_log_entries g) status
     (player g) (enemies g) (game_map g) (score g).

Definition with_logs (clog alog : list string) (g : t) : t :=
  mk (combat_mode g) (turn_order g) (current_turn_index g) clog alog
     (max_log_entries g) (status_message g) (player g) (enemies g)
     (game_map g) (score g).

Definition with_entities (p : Player.t) (roster : list Enemy.t) (g : t) : t :=
  mk (combat_mode g) (turn_order g) (current_turn_index g) (combat_log g)
     (activity_log g) (max_log_entries g) (status_message g) p roster
     (game_map g) (score g).

Definition with_status (status : string) (alog : list string) (sc : Z) (g : t)
    : t :=
  mk (combat_mode g) (turn_order g) (current_turn_index g) (combat_log g)
     alog (max_log_entries g) status (player g) (enemies g) (game_map g) sc.

(** [log.append(entry)], then [log.pop(0)] when the log is over [limit]. *)
Definition append_capped (limit : Z) (entry : string) (log : list string)
    : list string :=
  let log := log ++ [entry] in
  if limit <? Z.of_nat (length log) then tail log else log.

(** [get_current_turn_number]; [None] is the [ZeroDivisionError] of an
    empty turn order. *)
Definition get_current_turn_number (g : t) : option Z :=
  let n := Z.of_nat (length (turn_order g)) in
  if n =? 0 then None else Some (current_turn_index g / n + 1).

Definition log_combat_event (event : string) (g : t) : option t :=
  n ← get_current_turn_number g;
  Some (with_logs
          (append_capped 20 ("Turn " ++ pretty n ++ ": " ++ event)%string
             (combat_log g))
          (append_capped (max_log_entries g) event (activity_log g)) g).

Definition check_combat_start (g : t) : bool :=
  existsb (fun enemy =>
             Z.abs (Player.x (player g) - Enemy.x enemy)
             + Z.abs (Player.y (player g) - Enemy.y enemy) <=? 1)
          (enemies g).

Definition build_turn_order (g : t) : list entity :=
  [ThePlayer] ++ imap (fun i _ => TheEnemy i) (enemies g).

Definition enter_combat (g : t) : option t :=
  g ← log_combat_event "Combat started!"
        (with_combat true (build_turn_order g) 0 [] (status_message g) g);
  Some (with_combat (combat_mode g) (turn_order g) (current_turn_index g)
          (combat_log g) "Combat started! Select an action." g).

Definition exit_combat (g : t) : t :=
  with_combat false [] 0 [] "Combat ended!" g.

Definition update_exploration (g : t) : option t :=
  if check_combat_start g then enter_combat g else Some g.

(** [check_combat_end]: the two tests, in the order of the source. *)
Definition check_combat_end (g : t) : option t :=
  match enemies g with
  | [] => g ← log_combat_event "All enemies defeated!" g; Some (exit_combat g)
  | _ :: _ =>
      if Player.health (player g) <=? 0 then
        g ← log_combat_event "Player defeated!" g; Some (exit_combat g)
      else Some g
  end.

(** The loop of [new_round]: [entity.on_turn_end()] and then
    [entity.on_turn_start()] on every entry of the turn order. *)
Definition round_entity (ent : entity) (g : t) : option t :=
  match ent with
  | ThePlayer =>
      Some (with_entities
              (Player.on_turn_start (Player.on_turn_end (player g)))
              (enemies g) g)
  | TheEnemy i =>
      e ← enemies g !! i;
      Some (with_entities (player g)
              (<[i := Enemy.on_turn_start (Enemy.on_turn_end e)]> (enemies g)) g)
  end.

Definition new_round (g : t) : option t :=
  g ← Shoot.for_each round_entity (turn_order g) g;
  check_combat_end g.

(** A hit on the enemy at index [i] of the roster in the middle of a round:
    [target.take_damage(damage)], as [AttackAction] and the weapons do it. *)
Definition hit_enemy (i : nat) (damage : Z) (g : t) : option t :=
  e ← enemies g !! i;
  Some (with_entities (player g)
          (<[i := Enemy.take_damage damage false e]> (enemies g)) g).

(** The target that the enemy tick hands to [move_towards]. *)
Definition tick_target (p : Player.t) (enemy : Enemy.t) : Z * Z :=
  let dx := Player.x p - Enemy.x enemy in
  let dy := Player.y p - Enemy.y enemy in
  let distance := Z.abs dx + Z.abs dy in
  if distance <? 8 then
    if Z.abs dy <? Z.abs dx then
      if 0 <? dx then (Player.x p - 1, Player.y p)
      else (Player.x p + 1, Player.y p)
    else
      if 0 <? dy then (Player.x p, Player.y p - 1)
      else (Player.x p, Player.y p + 1)
  else (Player.x p, Player.y p).

(** The body of [for enemy in self.enemies[:]] in
    [handle_exploration_input], for the enemy that stands at index [i] of
    the live roster; the answer says whether the enemy was removed. *)
Definition tick_enemy (i : nat) (g : t) (r : Random.t)
    : option (bool * t * Random.t) :=
  enemy ← enemies g !! i;
  let (tx, ty) := tick_target (player g) enemy in
  res ← Enemy.move_towards i tx ty (game_map g) (player g) (enemies g) r;
  let g := with_entities (player g) (fst res) g in
  enemy ← enemies g !! i;
  let g :=
    if Enemy.check_collision (player g) enemy then
      with_status "You're being attacked!"
        (append_capped (max_log_entries g) "Player took 10 damage from enemy!"
           (activity_log g))
        (score g)
        (with_entities (Player.take_damage 10 false (player g)) (enemies g) g)
    else g in
  if Enemy.health enemy <=? 0 then
    let g := with_entities (player g) (delete i (enemies g)) g in
    let sc := score g + 10 in
    let msg := ("Enemy defeated! Score: " ++ pretty sc)%string in
    Some (true,
          with_status msg (append_capped (max_log_entries g) msg (activity_log g))
            sc g,
          snd res)
  else Some (false, g, snd res).

(** The loop over the [n] enemies of the snapshot that are still to come;
    the next one stands at index [i] of the live roster. *)
Fixpoint tick_from (n : nat) (i : nat) (g : t) (r : Random.t)
    : option (t * Random.t) :=
  match n with
  | O => Some (g, r)
  | S n' =>
      res ← tick_enemy i g r;
      let '(removed, g, r) := res in
      tick_from n' (if removed : bool then i else S i) g r
  end.

(** [if player_action and not self.combat_mode: for enemy in ...]. *)
Definition tick_enemies (player_action : bool) (g : t) (r : Random.t)
    : option (t * Random.t) :=
  if player_action && negb (combat_mode g)
  then tick_from (length (enemies g)) 0 g r
  else Some (g, r).

End Game.

(** ** Statements about the grid *)

Definition is_pickup (c : cell) : bool :=
  match c with HealthPickup | AmmoPickup | PowerUp => true | _ => false end.

Definition is_tree (c : cell) : bool :=
  match c with Trees => true | _ => false end.

(** [m'] has the shape of [m] and differs from it at most at cell [(x, y)]. *)
Definition same_except (m m' : Map.t) (x y : Z) : Prop :=
  Map.width m' = Map.width m /\ Map.height m' = Map.height m /\ Map.wf m' /\
  forall x' y', 0 <= x' -> 0 <= y' -> (x', y') <> (x, y) ->
    grid_get (Map.grid m') x' y' = grid_get (Map.grid m) x' y'.

(** What one call of a consuming operation [op] (of [collect_item] for the
    pickups, of [destroy_terrain] for the trees) does at [(x, y)]: it runs
    without error and touches at most that cell; a cell of the grid that
    holds a consumable is consumed, the call answers with what the cell held
    and leaves [Floor] there; every other call (a cell that holds something
    else, or coordinates outside the grid) answers [None] with the map
    unchanged; and an immediate second call answers [None] and leaves the
    map as the first call left it. *)
Definition consumes_once (consumable : cell -> bool)
    (op : Map.t -> Z -> Z -> option (option cell * Map.t))
    (m : Map.t) (x y : Z) : Prop :=
  exists r m',
    op m x y = Some (r, m') /\
    same_except m m' x y /\
    (forall c, r = Some c ->
       consumable c = true /\ Map.in_bounds m x y = true /\
       grid_get (Map.grid m) x y = Some c /\
       grid_get (Map.grid m') x y = Some Floor) /\
    (r = None -> m' = m) /\
    (forall c, Map.in_bounds m x y = true ->
       grid_get (Map.grid m) x y = Some c -> consumable c = true ->
       r = Some c /\ grid_get (Map.grid m') x y = Some Floor) /\
    (Map.in_bounds m x y = false -> r = None) /\
    (forall c, grid_get (Map.grid m) x y = Some c -> consumable c = false ->
       r = None) /\
    op m' x y = Some (None, m').

(** ** Statements about shots *)

(** The four directions that every weapon knows. *)
Definition cardinal : list string := ["up"; "down"; "left"; "right"]%string.

(** The enemy stands [k] cells away from [(x, y)] in direction [d]. *)
Definition stands_at (x y : Z) (d : Z * Z) (e : Enemy.t) (k : Z) : Prop :=
  Enemy.x e = x + fst d * k /\ Enemy.y e = y + snd d * k.

(** The enemies of [roster] stand in a line that starts next to [(x, y)] and
    runs in direction [d]: the enemy number [j] at distance [ks !! j], no two
    on the same cell, all of them within the first [n] cells of the line,
    and none of these [n] cells is outside the map or a wall. *)
Definition lined_up (game_map : Map.t) (x y : Z) (d : Z * Z) (n : Z)
    (roster : list Enemy.t) (ks : list Z) : Prop :=
  Forall2 (stands_at x y d) roster ks /\ NoDup ks /\
  Forall (fun k => 1 <= k <= n) ks /\
  Forall (fun i => Map.is_blocked game_map (x + fst d * i) (y + snd d * i)
                   = Some false) (Py.range 1 (n + 1)).

(** The roster after a hit on the enemy at distance [k1] and on no other. *)
Definition hit_only (k1 damage : Z) (roster : list Enemy.t) (ks : list Z)
    : list Enemy.t :=
  zip_with (fun e k => if k =? k1 then Enemy.take_damage damage false e else e)
           roster ks.

(** The cell is inside the map and is not a wall. *)
Definition open_cell (game_map : Map.t) (tx ty : Z) : bool :=
  match Map.is_blocked game_map tx ty with Some false => true | _ => false end.

(** What a blast centred at [(ix, iy)] does to one enemy: [full] damage on
    the centre cell, [half] on the eight cells around it, nothing elsewhere,
    and nothing on a cell that is a wall or outside the map. *)
Definition burst (game_map : Map.t) (full half ix iy : Z) (e : Enemy.t)
    : Enemy.t :=
  let ex := Enemy.x e - ix in
  let ey := Enemy.y e - iy in
  if (Z.abs ex <=? 1) && (Z.abs ey <=? 1)
     && open_cell game_map (Enemy.x e) (Enemy.y e)
  then Enemy.take_damage (if (ex =? 0) && (ey =? 0) then full else half) false e
  else e.

(** The offsets of the explosion, in the order of the two nested loops. *)
Definition offsets : list (Z * Z) :=
  ex ← Py.range (-1) 2; ey ← Py.range (-1) 2; [(ex, ey)].

(** ** Statements about entities *)

(** Protection is active on an entity with intensity [I]: the flag that
    [take_damage] reads is set, and the effect list holds the Protection
    effect with that intensity. *)
Definition protection_active (f : Effects.t) (I : Q) : Prop :=
  Effects.protected f = true /\
  exists eff, eff ∈ Effects.status_effects f /\
    StatusEffect.name eff = "Protection"%string /\
    StatusEffect.intensity eff = I.

(** An oracle that always draws the same number. *)
Definition const_rng (k : Z) : Random.t := fun _ => k.

(** The effects of a given name in an effect list. *)
Definition named (n : string) (l : list StatusEffect.t) : list StatusEffect.t :=
  List.filter (fun e => String.eqb (StatusEffect.name e) n) l.

(** [n] calls in a row of a method that consumes random draws. *)
Fixpoint repeat_call {A} (call : A -> Random.t -> A * Random.t) (n : nat)
    (a : A) (r : Random.t) : A * Random.t :=
  match n with
  | O => (a, r)
  | S n' => let (a', r') := call a r in repeat_call call n' a' r'
  end.

(** After the calls, the entity holds exactly one effect called [n], whose
    intensity is at most three times [i] and whose duration is at most twice
    [d]. *)
Definition one_capped (n : string) (d i : Q) (f : Effects.t) : Prop :=
  exists x, named n (Effects.status_effects f) = [x] /\
    (StatusEffect.intensity x <= 3 * i)%Q /\
    (StatusEffect.duration x <= 2 * d)%Q.

(** No effect of the list is called [n]. *)
Definition absent_in (n : string) (l : list StatusEffect.t) : Prop :=
  Forall (fun e => String.eqb (StatusEffect.name e) n = false) l.

(** The state of the one effect called [n] between two applications of
    copies built with duration [d] and intensity [i]. *)
Definition capped_by (n : string) (d i : Q) (x : StatusEffect.t) : Prop :=
  StatusEffect.name x = n /\
  StatusEffect.max_intensity x = (i * 3)%Q /\
  (StatusEffect.intensity x <= i * 3)%Q /\
  (StatusEffect.duration x <= d * 2)%Q.

(** The effect list of an entity that holds the effect once. *)
Definition holds_once_of (n : string) (d i : Q) (f : Effects.t) : Prop :=
  exists l1 x l2, Effects.status_effects f = l1 ++ x :: l2 /\
    absent_in n l1 /\ absent_in n l2 /\ capped_by n d i x.

(** ** Sequences of operations on the health of an entity *)

(** Everything in the sources that writes the health of a player or reads
    what decides it: [take_damage], a move (terrain damage and pickups), the
    turn-start tick of an effect, the health potion, the heal spell, the
    health pack of game.py, and the status-effect bookkeeping. *)
Inductive player_op :=
  | PTakeDamage (damage : Z) (ignore_protection : bool)
  | PMove (dx dy : Z) (game_map : Map.t) (weapons : list Weapon.t)
          (enemies : list (Z * Z)) (r : Random.t)
  | PEffectTurnStart (effect : StatusEffect.t)
  | PUseHealthPotion
  | PCastHeal
  | PPickHealthPack (heal_amount : Z)
  | PApplyEffect (effect : StatusEffect.t) (r : Random.t)
  | PRemoveEffect (effect_name : string)
  | PTurnEnd.

Definition player_step (o : player_op) (p : Player.t) : Player.t :=
  match o with
  | PTakeDamage d ig => Player.take_damage d ig p
  | PMove dx dy m ws es r =>
      match Player.move dx dy m ws es p r with
      | Some (_, p', _, _, _) => p'
      | None => p
      end
  | PEffectTurnStart eff => Player.effect_turn_start eff p
  | PUseHealthPotion => Player.use_health_potion p
  | PCastHeal => Player.cast_heal p
  | PPickHealthPack a => Player.pick_health_pack a p
  | PApplyEffect eff r => fst (Player.apply_status_effect eff p r)
  | PRemoveEffect n => snd (Player.remove_status_effect n p)
  | PTurnEnd => Player.on_turn_end p
  end.

(** Amounts are amounts: no negative damage, no negative healing, no effect
    of negative intensity; a move happens on a rectangular map. *)
Definition player_op_ok (o : player_op) : Prop :=
  match o with
  | PTakeDamage d _ => 0 <= d
  | PMove _ _ m _ _ _ => Map.wf m
  | PEffectTurnStart eff => (0 <= StatusEffect.intensity eff)%Q
  | PPickHealthPack a => 0 <= a
  | _ => True
  end.

(** The same for an enemy: [take_damage] (hits and terrain), the tick of an
    effect, and the heal that a [HealerEnemy] gives an ally below 50. *)
Inductive enemy_op :=
  | ETakeDamage (damage : Z) (ignore_protection : bool)
  | EEffectTurnStart (effect : StatusEffect.t)
  | EHealedByAlly
  | EApplyEffect (effect : StatusEffect.t) (r : Random.t)
  | ERemoveEffect (effect_name : string)
  | ETurnEnd.

Definition enemy_step (o : enemy_op) (e : Enemy.t) : Enemy.t :=
  match o with
  | ETakeDamage d ig => Enemy.take_damage d ig e
  | EEffectTurnStart eff => Enemy.effect_turn_start eff e
  | EHealedByAlly => if Enemy.health e <? 50 then Enemy.heal_ally e else e
  | EApplyEffect eff r => fst (Enemy.apply_status_effect eff e r)
  | ERemoveEffect n => snd (Enemy.remove_status_effect n e)
  | ETurnEnd => Enemy.on_turn_end e
  end.

Definition enemy_op_ok (o : enemy_op) : Prop :=
  match o with
  | ETakeDamage d _ => 0 <= d
  | EEffectTurnStart eff => (0 <= StatusEffect.intensity eff)%Q
  | _ => True
  end.

(** The states an entity goes through: before the first operation and
    after each one. *)
Fixpoint trace {A O} (step : O -> A -> A) (ops : list O) (a : A) : list A :=
  a :: match ops with
       | [] => []
       | o :: ops' => trace step ops' (step o a)
       end.

(** The health of a player is between 0 and the maximum, and the maximum is
    the 100 that game.py assumes for its health packs, or more. *)
Definition player_inv (p : Player.t) : Prop :=
  100 <= Player.max_health p /\ 0 <= Player.health p <= Player.max_health p.

(** ** Statements about the movement gate *)

(** What one call of [move_towards] leaves of the enemy [self] at index [i]
    of [roster], given the answer [ok] of [can_act]: nothing changes when the
    enemy cannot act; a positive cooldown is decremented and nothing else
    changes; otherwise a move is attempted and the cooldown is set to
    [speed - 1] for the classes that have a speed, and to a draw between 0
    and 2 for the base class. *)
Definition gate_outcome (ok : bool) (i : nat) (self : Enemy.t)
    (roster roster' : list Enemy.t) : Prop :=
  if negb ok then roster' = roster
  else if 0 <? Enemy.move_cooldown self then
    roster' = <[i := Enemy.with_move_cooldown (Enemy.move_cooldown self - 1) self]> roster
  else
    exists e', roster' !! i = Some e' /\
      match Enemy.speed (Enemy.kind self) with
      | Some s => Enemy.move_cooldown e' = s - 1
      | None => 0 <= Enemy.move_cooldown e' <= 2
      end.

(** ** Statements about cover *)

(** The enemy stands on none of the cells at distance 1 to [j - 1] from
    [(x, y)] in direction [d]. *)
Definition off_stretch (x y : Z) (d : Z * Z) (j : Z) (e : Enemy.t) : Prop :=
  forall i, 1 <= i < j ->
    Shoot.at_cell (x + fst d * i) (y + snd d * i) e = false.

(** The roster after a call, enemy by enemy: those that [spared] holds of
    are what they were. *)
Definition spares (spared : Enemy.t -> Prop) (roster roster' : list Enemy.t)
    : Prop :=
  Forall2 (fun e e' => spared e -> e' = e) roster roster'.

(** ** Statements about the moves of the enemies *)

(** What one call of [move_towards] may do to the enemy [e] at index [i] of
    [roster], given its state [e'] after the call: it never gains health;
    either it stays where it is, unhurt, or it has gone one cell up, down,
    left or right, to a cell that is not blocked, that the player does not
    stand on and that no other enemy of the roster stands on. *)
Definition safe_step {P} `{HasPos P} (i : nat) (game_map : Map.t) (player : P)
    (roster : list Enemy.t) (e e' : Enemy.t) : Prop :=
  Enemy.health e' <= Enemy.health e /\
  ((Enemy.x e' = Enemy.x e /\ Enemy.y e' = Enemy.y e /\
    Enemy.health e' = Enemy.health e) \/
   (Z.abs (Enemy.x e' - Enemy.x e) + Z.abs (Enemy.y e' - Enemy.y e) = 1 /\
    Map.is_blocked game_map (Enemy.x e') (Enemy.y e') = Some false /\
    ~ (Enemy.x e' = pos_x player /\ Enemy.y e' = pos_y player) /\
    forall j other, j <> i -> roster !! j = Some other ->
      ~ (Enemy.x other = Enemy.x e' /\ Enemy.y other = Enemy.y e'))).

(** What the call may do to the rest of the roster: nobody comes or goes,
    nobody else moves, and nobody else loses health. *)
Definition bystanders (i : nat) (roster roster' : list Enemy.t) : Prop :=
  length roster' = length roster /\
  forall j other, j <> i -> roster !! j = Some other ->
    exists other', roster' !! j = Some other' /\
      Enemy.x other' = Enemy.x other /\ Enemy.y other' = Enemy.y other /\
      Enemy.health other <= Enemy.health other'.

(** The roster is well placed: every enemy stands on a cell that is not
    blocked and that the player does not stand on, and no two enemies share
    a cell. *)
Definition well_placed {P} `{HasPos P} (game_map : Map.t) (player : P)
    (roster : list Enemy.t) : Prop :=
  forall j e, roster !! j = Some e ->
    Map.is_blocked game_map (Enemy.x e) (Enemy.y e) = Some false /\
    ~ (Enemy.x e = pos_x player /\ Enemy.y e = pos_y player) /\
    forall k other, k <> j -> roster !! k = Some other ->
      ~ (Enemy.x other = Enemy.x e /\ Enemy.y other = Enemy.y e).

(** ** Statements about the bookkeeping of status effects *)

(** The attribute that the effects of a given name switch, if they switch
    one. *)
Definition flag_of (name : string) (f : Effects.t) : option bool :=
  if String.eqb name "Paralysis" then Some (Effects.paralyzed f)
  else if String.eqb name "Blindness" then Some (Effects.blinded f)
  else if String.eqb name "Confusion" then Some (Effects.confused f)
  else if String.eqb name "Haste" then Some (Effects.hasted f)
  else if String.eqb name "Slow" then Some (Effects.slowed f)
  else if String.eqb name "Strength" then Some (Effects.strengthened f)
  else if String.eqb name "Weakness" then Some (Effects.weakened f)
  else if String.eqb name "Protection" then Some (Effects.protected f)
  else None.

(** The attributes and the effect list tell the same story: no two effects
    of the list share a name, and an attribute is set exactly when the list
    holds the effect that switches it. *)
Definition flags_agree (f : Effects.t) : Prop :=
  NoDup (Effects.get_active_effects f) /\
  forall n b, flag_of n f = Some b ->
    (b = true <-> n ∈ Effects.get_active_effects f).

(** The four methods that manage the effects of an entity. *)
Inductive fx_op :=
  | FxApply (effect : StatusEffect.t) (r : Random.t)
  | FxRemove (effect_name : string)
  | FxTurnEnd
  | FxClear.

Definition fx_step (who : string) (f : Effects.t) (o : fx_op) : Effects.t :=
  match o with
  | FxApply effect r => fst (Effects.apply_status_effect who effect f r)
  | FxRemove n => snd (Effects.remove_status_effect who n f)
  | FxTurnEnd => Effects.update_status_effects who f
  | FxClear => Effects.clear_all_status_effects who f
  end.

(** What the end of a turn leaves of one effect: the effect with one turn
    less to run, or nothing when it has run out. *)
Definition after_turn_end (x : StatusEffect.t) : option StatusEffect.t :=
  let (x', expired) := StatusEffect.on_turn_end x in
  if expired then None else Some x'.

(** The effect list holds exactly one effect called [n], and that effect
    has [d] turns left to run. *)
Definition runs_for (n : string) (d : Q) (l : list StatusEffect.t) : Prop :=
  exists l1 x l2, l = l1 ++ x :: l2 /\
    (n ∉ map StatusEffect.name l1) /\ (n ∉ map StatusEffect.name l2) /\
    StatusEffect.name x = n /\ (StatusEffect.duration x == d)%Q.

(** The state of the one effect called [n] between two applications of
    copies of a duration-class effect built with duration [d] and intensity
    [i]: its intensity is untouched and its duration has only grown, up to
    the cap. *)
Definition stretched_by (n : string) (d i : Q) (x : StatusEffect.t) : Prop :=
  StatusEffect.name x = n /\
  StatusEffect.max_duration x = (d * 2)%Q /\
  StatusEffect.intensity x = i /\
  (d <= StatusEffect.duration x <= d * 2)%Q.

Definition holds_stretched (n : string) (d i : Q) (f : Effects.t) : Prop :=
  exists l1 x l2, Effects.status_effects f = l1 ++ x :: l2 /\
    absent_in n l1 /\ absent_in n l2 /\ stretched_by n d i x.

(** After the calls, the entity holds exactly one effect called [n], with
    the intensity [i] of the first application and a duration between [d]
    and twice [d]. *)
Definition one_stretched (n : string) (d i : Q) (f : Effects.t) : Prop :=
  exists x, named n (Effects.status_effects f) = [x] /\
    StatusEffect.intensity x = i /\
    (d <= StatusEffect.duration x <= 2 * d)%Q.

(** ** Statements about the enemy tick *)

(** The first [i] enemies of the roster are alive. *)
Definition alive_before (i : nat) (roster : list Enemy.t) : Prop :=
  forall j e, (j < i)%nat -> roster !! j = Some e -> 0 < Enemy.health e.

(** ** game.py: the placement of items and enemies *)

(** [find_open_position], with the attempts still allowed as the measure of
    its loop: at most 1000 draws of an interior cell, then the centre of the
    map, whatever it holds. *)
Fixpoint find_open_loop (attempts_left : nat) (game_map : Map.t) (r : Random.t)
    : option (Z * Z * Random.t) :=
  match attempts_left with
  | O => Some (Map.width game_map / 2, Map.height game_map / 2, r)
  | S k =>
      x ← Random.randint 1 (Map.width game_map - 2) r;
      y ← Random.randint 1 (Map.height game_map - 2) (snd x);
      blocked ← Map.is_blocked game_map (fst x) (fst y);
      if negb blocked then Some (fst x, fst y, snd y)
      else find_open_loop k game_map (snd y)
  end.

Definition find_open_position (game_map : Map.t) (r : Random.t)
    : option (Z * Z * Random.t) :=
  find_open_loop 1000 game_map r.

(** The oracle after [n] draws. *)
Definition after_draws (n : nat) (r : Random.t) : Random.t :=
  fun k => r (n + k)%nat.

(** The cell that attempt number [n] (counted from 0) of
    [find_open_position] draws: the two calls of [random.randint] that
    follow the two draws of each attempt before it. *)
Definition attempt_cell (game_map : Map.t) (r : Random.t) (n : nat)
    : option (Z * Z) :=
  x ← Random.randint 1 (Map.width game_map - 2) (after_draws (2 * n) r);
  y ← Random.randint 1 (Map.height game_map - 2) (snd x);
  Some (fst x, fst y).

(** The first [n] attempts all draw a blocked cell. *)
Definition all_blocked (game_map : Map.t) (r : Random.t) (n : nat) : Prop :=
  forall i, (i < n)%nat ->
    exists x y, attempt_cell game_map r i = Some (x, y) /\
                Map.is_blocked game_map x y = Some true.

(** ** map.py: rooms and corridors *)

Module MapGen.

(** A room: [[(x1, y1), (x2, y2)]]. *)
Definition room : Type := (Z * Z) * (Z * Z).

Definition room_overlap (room1 room2 : room) : bool :=
  let '((x1, y1), (x2, y2)) := room1 in
  let '((x3, y3), (x4, y4)) := room2 in
  negb ((x2 <=? x3) || (x4 <=? x1) || (y2 <=? y3) || (y4 <=? y1)).

(** [self.grid[y][x] = c] *)
Definition put (c : cell) (x y : Z) (m : Map.t) : option Map.t :=
  g' ← grid_set (Map.grid m) x y c; Some (Map.with_grid m g').

(** [0 < x < self.width - 1 and 0 < y < self.height - 1] *)
Definition inner (m : Map.t) (x y : Z) : bool :=
  (0 <? x) && (x <? Map.width m - 1) && (0 <? y) && (y <? Map.height m - 1).

Definition create_room (rm : room) (m : Map.t) : option Map.t :=
  let '((x1, y1), (x2, y2)) := rm in
  m ← Shoot.for_each
        (fun y => Shoot.for_each
           (fun x m => if inner m x y then put Floor x y m else Some m)
           (Py.range x1 x2))
        (Py.range y1 y2) m;
  m ← Shoot.for_each
        (fun x m =>
           if (0 <? y1) && (y1 <? Map.height m - 1)
           then m ← put Wall x y1 m; put Wall x (y2 - 1) m
           else Some m)
        (Py.range x1 x2) m;
  Shoot.for_each
    (fun y m =>
       if (0 <? x1) && (x1 <? Map.width m - 1)
       then m ← put Wall x1 y m; put Wall (x2 - 1) y m
       else Some m)
    (Py.range y1 y2) m.

Definition center (rm : room) : Z * Z :=
  let '((x1, y1), (x2, y2)) := rm in ((x1 + x2) / 2, (y1 + y2) / 2).

Definition connect_rooms (room1 room2 : room) (m : Map.t) : option Map.t :=
  let (center_x1, center_y1) := center room1 in
  let (center_x2, center_y2) := center room2 in
  m ← Shoot.for_each
        (fun x m =>
           if (0 <? x) && (x <? Map.width m - 1)
              && (0 <? center_y1) && (center_y1 <? Map.height m - 1)
           then put Floor x center_y1 m else Some m)
        (Py.range (Z.min center_x1 center_x2) (Z.max center_x1 center_x2 + 1)) m;
  Shoot.for_each
    (fun y m =>
       if (0 <? center_x2) && (center_x2 <? Map.width m - 1)
          && (0 <? y) && (y <? Map.height m - 1)
       then put Floor center_x2 y m else Some m)
    (Py.range (Z.min center_y1 center_y2) (Z.max center_y1 center_y2 + 1)) m.

(** The [while] loop of [generate_rooms]; [attempts_left] is
    [max_attempts - attempts]. *)
Fixpoint place_rooms (attempts_left : nat) (rooms : list room) (m : Map.t)
    (r : Random.t) : option (list room * Map.t * Random.t) :=
  match attempts_left with
  | O => Some (rooms, m, r)
  | S k =>
      if Z.of_nat (length rooms) <? 5 then
        width ← Random.randint 4 8 r;
        height ← Random.randint 4 6 (snd width);
        x ← Random.randint 1 (Map.width m - fst width - 1) (snd height);
        y ← Random.randint 1 (Map.height m - fst height - 1) (snd x);
        let new_room : room :=
          ((fst x, fst y), (fst x + fst width, fst y + fst height)) in
        if existsb (room_overlap new_room) rooms
        then place_rooms k rooms m (snd y)
        else
          m ← create_room new_room m;
          place_rooms k (rooms ++ [new_room]) m (snd y)
      else Some (rooms, m, r)
  end.

(** [for i in range(len(rooms) - 1): connect_rooms(rooms[i], rooms[i + 1])] *)
Fixpoint connect_all (rooms : list room) (m : Map.t) : option Map.t :=
  match rooms with
  | room1 :: (room2 :: _) as rest =>
      m ← connect_rooms room1 room2 m; connect_all rest m
  | _ => Some m
  end.

(** The doubles that the literals 0.08, 0.23, 0.48, 0.83, 0.95, 0.98 and
    0.99 denote. *)
Definition d008 : Q := Qmake 5764607523034235 (2 ^ 56).
Definition d023 : Q := Qmake 8286623314361713 (2 ^ 55).
Definition d048 : Q := Qmake 1080863910568919 (2 ^ 51).
Definition d083 : Q := Qmake 7475975381435023 (2 ^ 53).
Definition d095 : Q := Qmake 4278419646001971 (2 ^ 52).
Definition d098 : Q := Qmake 2206763817411543 (2 ^ 51).
Definition d099 : Q := Qmake 4458563631096791 (2 ^ 52).

Definition Qlt_bool (a b : Q) : bool := negb (Qle_bool b a).

(** The chain of [if rand_val < ...] that picks the terrain of an open
    cell. *)
Definition terrain_of (rand_val : Q) : cell :=
  if Qlt_bool rand_val d008 then Water
  else if Qlt_bool rand_val d023 then Trees
  else if Qlt_bool rand_val d048 then Rough
  else if Qlt_bool rand_val d083 then HealthPickup
  else if Qlt_bool rand_val d095 then AmmoPickup
  else if Qlt_bool rand_val d098 then PowerUp
  else if Qlt_bool rand_val d099 then Lava
  else if Qlt_bool rand_val 1 then Spikes
  else Floor.

Definition paint_cell (y x : Z) (s : Map.t * Random.t)
    : option (Map.t * Random.t) :=
  let (m, r) := s in
  c ← grid_get (Map.grid m) x y;
  if cell_eqb c Floor then
    let (rand_val, r) := Random.random r in
    m ← put (terrain_of rand_val) x y m; Some (m, r)
  else Some (m, r).

Definition paint (m : Map.t) (r : Random.t) : option (Map.t * Random.t) :=
  Shoot.for_each
    (fun y => Shoot.for_each (paint_cell y) (Py.range 0 (Map.width m)))
    (Py.range 0 (Map.height m)) (m, r).

Definition generate_rooms (m : Map.t) (r : Random.t)
    : option (Map.t * Random.t) :=
  placed ← place_rooms 100 [] m r;
  let '(rooms, m, r) := placed in
  m ← connect_all rooms m;
  paint m r.

(** [generate_maze(use_rooms=True)]: a grid of walls, then the rooms. *)
Definition generate_maze_rooms (m : Map.t) (r : Random.t)
    : option (Map.t * Random.t) :=
  let grid := replicate (Z.to_nat (Map.height m))
                (replicate (Z.to_nat (Map.width m)) Wall) in
  generate_rooms (Map.with_grid m grid) r.

End MapGen.

(** ** Statements about the dungeon *)

(** Two cells that share a side. *)
Definition adjacent (a b : Z * Z) : Prop :=
  Z.abs (fst a - fst b) + Z.abs (snd a - snd b) = 1.

(** A cell that can be walked on: [is_blocked] says no. *)
Definition open_at (m : Map.t) (p : Z * Z) : Prop :=
  Map.is_blocked m (fst p) (snd p) = Some false.

(** A walk from one cell to another over cells that can be walked on, one
    step up, down, left or right at a time. *)
Inductive walk (m : Map.t) : Z * Z -> Z * Z -> Prop :=
  | walk_here p : open_at m p -> walk m p p
  | walk_step p q s : open_at m p -> adjacent p q -> walk m q s -> walk m p s.

(** Every open cell can be reached from every other. *)
Definition connected (m : Map.t) : Prop :=
  forall a b, open_at m a -> open_at m b -> walk m a b.

(** A rectangular map of the given size. *)
Definition shaped (w h : Z) (m : Map.t) : Prop :=
  Map.wf m /\ Map.width m = w /\ Map.height m = h.

(** [m'] is [m] with the cell [c] written wherever [hits] says so. *)
Definition overwritten (w h : Z) (c : cell) (hits : Z -> Z -> bool)
    (m m' : Map.t) : Prop :=
  shaped w h m' /\
  forall x y, 0 <= x < w -> 0 <= y < h ->
    grid_get (Map.grid m') x y
    = if hits x y then Some c else grid_get (Map.grid m) x y.

(** The rectangle of a room, its rim and its floor. *)
Definition in_rect (rm : MapGen.room) (x y : Z) : bool :=
  let '((x1, y1), (x2, y2)) := rm in
  (x1 <=? x) && (x <? x2) && (y1 <=? y) && (y <? y2).

Definition on_rim (rm : MapGen.room) (x y : Z) : bool :=
  let '((x1, y1), (x2, y2)) := rm in
  (x =? x1) || (x =? x2 - 1) || (y =? y1) || (y =? y2 - 1).

Definition on_floor (rm : MapGen.room) (x y : Z) : bool :=
  in_rect rm x y && negb (on_rim rm x y).

(** A room as [generate_rooms] draws it on a map of the given size: 4 to 8
    wide, 4 to 6 high, one cell at least away from every edge. *)
Definition room_fits (w h : Z) (rm : MapGen.room) : Prop :=
  let '((x1, y1), (x2, y2)) := rm in
  1 <= x1 /\ 4 <= x2 - x1 <= 8 /\ x2 <= w - 1 /\
  1 <= y1 /\ 4 <= y2 - y1 <= 6 /\ y2 <= h - 1.

(** The corridor that [connect_rooms] digs from the centre of one room to
    the centre of the other: along the row of the first centre, then along
    the column of the second. *)
Definition on_corridor (room1 room2 : MapGen.room) (x y : Z) : bool :=
  let (cx1, cy1) := MapGen.center room1 in
  let (cx2, cy2) := MapGen.center room2 in
  ((y =? cy1) && (Z.min cx1 cx2 <=? x) && (x <=? Z.max cx1 cx2))
  || ((x =? cx2) && (Z.min cy1 cy2 <=? y) && (y <=? Z.max cy1 cy2)).

(** The corridors between the rooms of a list, each to the next. *)
Fixpoint on_corridors (rooms : list MapGen.room) (x y : Z) : bool :=
  match rooms with
  | room1 :: (room2 :: _) as rest =>
      on_corridor room1 room2 x y || on_corridors rest x y
  | _ => false
  end.

(** The floors of the rooms of a list. *)
Definition on_floors (rooms : list MapGen.room) (x y : Z) : bool :=
  existsb (fun rm => on_floor rm x y) rooms.

(** A map of the given size that holds floor exactly where [dug] says, and
    wall everywhere else. *)
Definition drawn (w h : Z) (dug : Z -> Z -> bool) (m : Map.t) : Prop :=
  shaped w h m /\
  forall x y, 0 <= x < w -> 0 <= y < h ->
    grid_get (Map.grid m) x y = Some (if dug x y then Floor else Wall).

(* ===================================================================== *)
(** * Part II: properties                                                 *)
(* ===================================================================== *)

(** ** Grid access *)

Section GridFacts.

Lemma index_nonneg {A} (l : list A) (i : Z) :
  0 <= i -> Py.index l i = l !! Z.to_nat i.
Proof. intros Hi. unfold Py.index. destruct (Z.leb_spec 0 i); [reflexivity | lia]. Qed.

Lemma index_in_range {A} (l : list A) (i : Z) :
  0 <= i < Z.of_nat (length l) -> exists a, Py.index l i = Some a.
Proof.
  intros Hi. rewrite index_nonneg by lia.
  destruct (lookup_lt_is_Some_2 l (Z.to_nat i)) as [a Ha]; [lia | eauto].
Qed.

Lemma setitem_in_range {A} (l : list A) (i : Z) (v : A) :
  0 <= i < Z.of_nat (length l) ->
  Py.setitem l i v = Some (<[Z.to_nat i := v]> l).
Proof.
  intros Hi. unfold Py.setitem.
  destruct (Z.leb_spec 0 i); [|lia].
  destruct (Z.ltb_spec i (Z.of_nat (length l))); [reflexivity | lia].
Qed.

Lemma rect_row w h g y row :
  Map.rect w h g -> g !! y = Some row -> Z.of_nat (length row) = w.
Proof.
  intros [_ Hrows] Hrow. rewrite Forall_forall in Hrows.
  apply Hrows. eapply list_elem_of_lookup_2, Hrow.
Qed.

(** Inside a rectangular grid every read succeeds. *)
Lemma grid_get_in_range w h g x y :
  Map.rect w h g -> 0 <= x < w -> 0 <= y < h ->
  exists c, grid_get g x y = Some c.
Proof.
  intros Hr Hx Hy. unfold grid_get.
  destruct (index_in_range g y) as [row Hrow]; [destruct Hr; lia|].
  rewrite Hrow. cbn.
  apply index_in_range.
  rewrite index_nonneg in Hrow by lia.
  rewrite (rect_row _ _ _ _ _ Hr Hrow). lia.
Qed.

(** Inside a rectangular grid every write succeeds, keeps the shape, and
    changes the addressed cell only. *)
Lemma grid_set_in_range w h g x y c :
  Map.rect w h g -> 0 <= x < w -> 0 <= y < h ->
  exists g', grid_set g x y c = Some g' /\ Map.rect w h g' /\
    grid_get g' x y = Some c /\
    (forall x' y', 0 <= x' -> 0 <= y' -> (x', y') <> (x, y) ->
       grid_get g' x' y' = grid_get g x' y').
Proof.
  intros Hr Hx Hy. unfold grid_set.
  assert (Hlen : Z.of_nat (length g) = h) by (destruct Hr; assumption).
  destruct (index_in_range g y) as [row Hrow]; [lia|].
  rewrite Hrow. cbn.
  rewrite index_nonneg in Hrow by lia.
  assert (Hw : Z.of_nat (length row) = w) by (eapply rect_row; eauto).
  rewrite setitem_in_range by lia. cbn.
  rewrite setitem_in_range by lia.
  eexists. split; [reflexivity|]. split; [|split].
  - split.
    + rewrite length_insert. lia.
    + destruct Hr as [_ Hrows]. apply Forall_insert; [assumption|].
      rewrite length_insert. assumption.
  - unfold grid_get. rewrite index_nonneg by lia.
    rewrite list_lookup_insert_eq by lia. cbn.
    rewrite index_nonneg by lia. apply list_lookup_insert_eq. lia.
  - intros x' y' Hx' Hy' Hne. unfold grid_get.
    rewrite !(index_nonneg _ y') by lia.
    destruct (decide (Z.to_nat y' = Z.to_nat y)) as [Heq|Hney].
    + assert (y' = y) by lia. subst y'.
      rewrite list_lookup_insert_eq by lia. rewrite Hrow. cbn.
      rewrite !index_nonneg by lia.
      apply list_lookup_insert_ne. intros Hxx.
      apply Hne. f_equal. lia.
    + rewrite list_lookup_insert_ne by congruence. reflexivity.
Qed.

End GridFacts.

(** ** Terrain queries and consuming operations *)

Section MapFacts.

Lemma in_bounds_spec m x y :
  Map.in_bounds m x y = true <-> 0 <= x < Map.width m /\ 0 <= y < Map.height m.
Proof. unfold Map.in_bounds. rewrite !andb_true_iff. lia. Qed.

Lemma same_except_refl m x y : Map.wf m -> same_except m m x y.
Proof. intros Hwf. repeat split; try assumption; apply Hwf. Qed.

Lemma consumes_once_gen (consumable : cell -> bool)
    (op : Map.t -> Z -> Z -> option (option cell * Map.t)) :
  (forall m x y,
     op m x y =
       if negb (Map.in_bounds m x y) then Some (None, m)
       else
         c ← grid_get (Map.grid m) x y;
         if consumable c
         then g' ← grid_set (Map.grid m) x y Floor; Some (Some c, Map.with_grid m g')
         else Some (None, m)) ->
  consumable Floor = false ->
  forall m x y, Map.wf m -> consumes_once consumable op m x y.
Proof.
  intros Hop HF m x y Hwf. unfold consumes_once.
  destruct (Map.in_bounds m x y) eqn:Hb.
  - pose proof Hb as Hb'. apply in_bounds_spec in Hb' as [Hx Hy].
    destruct (grid_get_in_range _ _ _ x y Hwf Hx Hy) as [c Hc].
    destruct (consumable c) eqn:Hcons.
    + destruct (grid_set_in_range _ _ _ x y Floor Hwf Hx Hy)
        as (g' & Hset & Hr' & Hget' & Hother).
      exists (Some c), (Map.with_grid m g').
      split; [rewrite Hop, Hb; cbn; rewrite Hc; cbn; rewrite Hcons, Hset; reflexivity|].
      split; [repeat split; try assumption; apply Hr'|].
      split; [intros c' [= <-]; auto|].
      split; [discriminate|].
      split; [intros c' _ Hc' _; split; [congruence|exact Hget']|].
      split; [discriminate|].
      split; [intros c' Hc' Hn; congruence|].
      rewrite Hop.
      change (Map.in_bounds (Map.with_grid m g') x y) with (Map.in_bounds m x y).
      rewrite Hb. cbn. rewrite Hget'. cbn. rewrite HF. reflexivity.
    + exists None, m.
      assert (Hcall : op m x y = Some (None, m))
        by (rewrite Hop, Hb; cbn; rewrite Hc; cbn; rewrite Hcons; reflexivity).
      split; [exact Hcall|].
      split; [apply same_except_refl; assumption|].
      split; [discriminate|].
      split; [reflexivity|].
      split; [intros c' _ Hc' Hyes; congruence|].
      repeat split; auto.
  - exists None, m.
    assert (Hcall : op m x y = Some (None, m)) by (rewrite Hop, Hb; reflexivity).
    split; [exact Hcall|].
    split; [apply same_except_refl; assumption|].
    split; [discriminate|].
    split; [reflexivity|].
    split; [discriminate|].
    repeat split; auto.
Qed.

Lemma collect_item_unfold m x y :
  Map.collect_item m x y =
    if negb (Map.in_bounds m x y) then Some (None, m)
    else
      c ← grid_get (Map.grid m) x y;
      if is_pickup c
      then g' ← grid_set (Map.grid m) x y Floor; Some (Some c, Map.with_grid m g')
      else Some (None, m).
Proof.
  unfold Map.collect_item. destruct (negb _); [reflexivity|].
  destruct (grid_get _ x y) as [[]|]; reflexivity.
Qed.

Lemma destroy_terrain_unfold m x y :
  Map.destroy_terrain m x y =
    if negb (Map.in_bounds m x y) then Some (None, m)
    else
      c ← grid_get (Map.grid m) x y;
      if is_tree c
      then g' ← grid_set (Map.grid m) x y Floor; Some (Some c, Map.with_grid m g')
      else Some (None, m).
Proof.
  unfold Map.destroy_terrain. destruct (negb _); [reflexivity|].
  destruct (grid_get _ x y) as [[]|]; reflexivity.
Qed.

End MapFacts.

(** C9.  For every (x, y) outside the grid bounds the terrain queries answer
    with safe defaults and do not fail, whatever the grid holds:
    [is_blocked] answers true, [get_terrain_damage] answers 0 and
    [get_terrain_effect] answers 1.0.  The three queries read the map and
    hand back a value only; no successor map exists that could differ. *)
Theorem C9_out_of_bounds_safe_defaults (m : Map.t) (x y : Z) :
  Map.in_bounds m x y = false ->
  Map.is_blocked m x y = Some true /\
  Map.get_terrain_damage m x y = Some 0 /\
  Map.get_terrain_effect m x y = Some 1%Q.
Proof.
  intros Hout.
  unfold Map.is_blocked, Map.get_terrain_damage, Map.get_terrain_effect.
  rewrite Hout. cbn. repeat split.
Qed.

Lemma C9_out_of_bounds_witness :
  let m := Map.mk 3 2 [[Wall; Floor; Wall]; [Wall; Lava; Wall]] in
  Map.in_bounds m (-1) 1 = false /\
  (Map.is_blocked m (-1) 1 = Some true /\
   Map.get_terrain_damage m (-1) 1 = Some 0 /\
   Map.get_terrain_effect m (-1) 1 = Some 1%Q).
Proof.
  split; [reflexivity|].
  apply (C9_out_of_bounds_safe_defaults
           (Map.mk 3 2 [[Wall; Floor; Wall]; [Wall; Lava; Wall]]) (-1) 1).
  reflexivity.
Defined.

(** C10.  [collect_item] and [destroy_terrain] change at most the addressed
    cell and are idempotent.  On a rectangular grid neither call fails.  A
    call of [collect_item] on a cell of the grid that holds a pickup (H, A
    or P) answers with that pickup and leaves [Floor] there, and a call of
    [destroy_terrain] on a cell that holds a tree answers with the tree and
    leaves [Floor] there; every other cell keeps what it held.  An
    immediately repeated call on the same cell answers [None] and leaves the
    grid unchanged, and so does any call on a cell that holds no pickup (no
    tree) or lies outside the grid. *)
Theorem C10_consume_single_cell_idempotent (m : Map.t) (x y : Z) :
  Map.wf m ->
  consumes_once is_pickup Map.collect_item m x y /\
  consumes_once is_tree Map.destroy_terrain m x y.
Proof.
  intros Hwf. split.
  - apply consumes_once_gen; [apply collect_item_unfold | reflexivity | assumption].
  - apply consumes_once_gen; [apply destroy_terrain_unfold | reflexivity | assumption].
Qed.

Lemma C10_consume_witness :
  let m := Map.mk 3 2 [[Wall; HealthPickup; Trees]; [Wall; Lava; Wall]] in
  let m1 := Map.mk 3 2 [[Wall; Floor; Trees]; [Wall; Lava; Wall]] in
  let m2 := Map.mk 3 2 [[Wall; HealthPickup; Floor]; [Wall; Lava; Wall]] in
  Map.wf m /\
  consumes_once is_pickup Map.collect_item m 1 0 /\
  consumes_once is_tree Map.destroy_terrain m 2 0 /\
  Map.collect_item m 1 0 = Some (Some HealthPickup, m1) /\
  Map.collect_item m1 1 0 = Some (None, m1) /\
  Map.destroy_terrain m 2 0 = Some (Some Trees, m2) /\
  Map.destroy_terrain m2 2 0 = Some (None, m2) /\
  Map.destroy_terrain m 1 0 = Some (None, m).
Proof.
  assert (Hwf : Map.wf (Map.mk 3 2 [[Wall; HealthPickup; Trees]; [Wall; Lava; Wall]])).
  { split; [reflexivity|]. repeat constructor. }
  cbv zeta. split; [exact Hwf|].
  split; [apply (C10_consume_single_cell_idempotent
                   (Map.mk 3 2 [[Wall; HealthPickup; Trees]; [Wall; Lava; Wall]])
                   1 0 Hwf)|].
  split; [apply (C10_consume_single_cell_idempotent
                   (Map.mk 3 2 [[Wall; HealthPickup; Trees]; [Wall; Lava; Wall]])
                   2 0 Hwf)|].
  repeat split; reflexivity.
Defined.

(** ** The product [damage * 0.7] in double precision *)

Section FloatFacts.

Lemma round53_small n : 0 <= n < 2 ^ 53 -> Float.round53 n = n.
Proof.
  intros Hn. unfold Float.round53.
  assert (Z.log2 n < 53).
  { destruct (Z.eq_dec n 0) as [->|]; [reflexivity|].
    apply Z.log2_lt_pow2; lia. }
  destruct (Z.leb_spec (Z.log2 n + 1 - 53) 0); [reflexivity | lia].
Qed.

(** Rounding moves an integer by at most half a unit in the last place. *)
Lemma round53_error n :
  0 < n -> 0 < Z.log2 n + 1 - 53 ->
  2 * Z.abs (Float.round53 n - n) <= 2 ^ (Z.log2 n + 1 - 53).
Proof.
  intros Hn Hsh. unfold Float.round53.
  set (sh := Z.log2 n + 1 - 53) in *.
  destruct (Z.leb_spec sh 0); [lia|].
  assert (Hpow : 2 ^ sh = 2 * 2 ^ (sh - 1)).
  { replace sh with (Z.succ (sh - 1)) at 1 by lia. apply Z.pow_succ_r. lia. }
  assert (Hhalf : 0 < 2 ^ (sh - 1)) by (apply Z.pow_pos_nonneg; lia).
  pose proof (Z.div_mod n (2 ^ sh) ltac:(lia)) as Hdm.
  pose proof (Z.mod_pos_bound n (2 ^ sh) ltac:(lia)) as Hr.
  set (q := n / 2 ^ sh) in *. set (r := n mod 2 ^ sh) in *.
  set (half := 2 ^ (sh - 1)) in *.
  destruct ((half <? r) || ((r =? half) && Z.odd q)) eqn:Hup.
  - assert (half <= r).
    { apply orb_true_iff in Hup as [Hlt | Heq].
      - apply Z.ltb_lt in Hlt. lia.
      - apply andb_true_iff in Heq as [Heq _]. apply Z.eqb_eq in Heq. lia. }
    nia.
  - apply orb_false_iff in Hup as [Hlt _]. apply Z.ltb_ge in Hlt. nia.
Qed.

Lemma mant_07_exact : 10 * Float.mant_07 = 7 * 2 ^ 53 - 4.
Proof. reflexivity. Qed.

(** The rounded product stays within [damage] units (of 2^-53) of the
    exact product. *)
Lemma product_error d :
  0 < d < 2 ^ 48 ->
  Z.abs (Float.round53 (d * Float.mant_07) - d * Float.mant_07) <= d.
Proof.
  intros Hd.
  set (P := d * Float.mant_07).
  assert (HP : 0 < P) by (unfold P, Float.mant_07; lia).
  destruct (Z_lt_le_dec 0 (Z.log2 P + 1 - 53)) as [Hsh|Hsh].
  - pose proof (round53_error P HP Hsh) as Herr.
    assert (Hlog : Z.log2 P < Z.log2 d + 54).
    { apply Z.log2_lt_pow2; [assumption|].
      pose proof (Z.log2_spec d ltac:(lia)) as [_ Hup].
      replace (Z.log2 d + 54) with (Z.succ (Z.log2 d) + 53) by lia.
      rewrite Z.pow_add_r by (pose proof (Z.log2_nonneg d); lia).
      unfold P, Float.mant_07. change (2 ^ 53) with 9007199254740992. nia. }
    assert (Hle : 2 ^ (Z.log2 P + 1 - 53) <= 2 * 2 ^ Z.log2 d).
    { replace (2 * 2 ^ Z.log2 d) with (2 ^ (Z.succ (Z.log2 d)))
        by (apply Z.pow_succ_r, Z.log2_nonneg).
      apply Z.pow_le_mono_r; lia. }
    pose proof (Z.log2_spec d ltac:(lia)) as [Hlow _]. lia.
  - assert (Float.round53 P = P).
    { unfold Float.round53. destruct (Z.leb_spec (Z.log2 P + 1 - 53) 0); [reflexivity|lia]. }
    lia.
Qed.

(** [int(damage * 0.7)] is the floor of seven tenths of [damage], or one
    less; it can be one less only when [damage] is a multiple of 10. *)
Lemma int_mul_07_floor d :
  0 <= d < 2 ^ 48 ->
  7 * d / 10 - 1 <= Float.int_mul_07 d <= 7 * d / 10 /\
  (d mod 10 <> 0 -> Float.int_mul_07 d = 7 * d / 10).
Proof.
  intros Hd. unfold Float.int_mul_07.
  destruct (Z.eq_dec d 0) as [->|Hnz];
    [split; [split; vm_compute; discriminate | intros _; reflexivity]|].
  rewrite Z.abs_eq by lia.
  assert (H48 : 2 ^ 48 < 2 ^ 53) by reflexivity.
  rewrite (round53_small d) by lia.
  rewrite Z.sgn_pos, Z.mul_1_l by lia.
  pose proof (product_error d ltac:(lia)) as Herr.
  pose proof mant_07_exact as Hm.
  set (R := Float.round53 (d * Float.mant_07)) in *.
  set (m := Float.mant_07) in *.
  change (2 ^ 53) with 9007199254740992 in *.
  change (2 ^ 48) with 281474976710656 in Hd.
  assert (Hlo : 10 * R >= 7 * d * 9007199254740992 - 14 * d) by lia.
  assert (Hhi : 10 * R <= 7 * d * 9007199254740992 + 6 * d) by lia.
  clear Herr Hm.
  pose proof (Z.div_mod (7 * d) 10 ltac:(lia)) as HF.
  pose proof (Z.mod_pos_bound (7 * d) 10 ltac:(lia)) as Hrem.
  set (F := 7 * d / 10) in *. set (rem := (7 * d) mod 10) in *.
  split; [split|].
  - apply Z.div_le_lower_bound; lia.
  - apply Z.lt_succ_r. apply Z.div_lt_upper_bound; lia.
  - intros Hmod.
    assert (1 <= rem).
    { destruct (Z.eq_dec rem 0) as [Hz|]; [|lia]. exfalso. apply Hmod.
      subst rem F. clear -Hz. Z.div_mod_to_equations. lia. }
    apply Z.le_antisymm.
    + apply Z.lt_succ_r. apply Z.div_lt_upper_bound; lia.
    + apply Z.div_le_lower_bound; lia.
Qed.

End FloatFacts.

(** ** Protection *)

(** C5, as the sources have it.  For every damage amount D with
    0 <= D < 2^48 there is one amount k, the same for every entity and every
    Protection intensity I, such that a call [take_damage(D)] that does not
    ignore protection lowers the health of a protected enemy by exactly k
    and sets the health of a protected player to max(0, health - k).  k is
    [int(D * 0.7)] as Python computes it in double precision: floor(0.7 D),
    or one less, and one less only when D is a multiple of 10. *)
Theorem C5_protected_damage_amount (D : Z) :
  0 <= D < 2 ^ 48 ->
  exists k,
    (7 * D / 10 - 1 <= k <= 7 * D / 10) /\
    (D mod 10 <> 0 -> k = 7 * D / 10) /\
    (forall (I : Q) (e : Enemy.t), protection_active (Enemy.fx e) I ->
       Enemy.health (Enemy.take_damage D false e) = Enemy.health e - k) /\
    (forall (I : Q) (p : Player.t), protection_active (Player.fx p) I ->
       Player.health (Player.take_damage D false p)
       = Z.max 0 (Player.health p - k)).
Proof.
  intros HD. exists (Float.int_mul_07 D).
  destruct (int_mul_07_floor D HD) as [Hb Hex].
  split; [exact Hb|]. split; [exact Hex|]. split.
  - intros I e [Hp _]. unfold Enemy.take_damage. rewrite Hp. reflexivity.
  - intros I p [Hp _]. unfold Player.take_damage. rewrite Hp. cbn.
    destruct (Z.ltb_spec (Player.health p - Float.int_mul_07 D) 0); lia.
Qed.

Lemma C5_protected_damage_witness :
  0 <= 25 < 2 ^ 48 /\
  exists k,
    (7 * 25 / 10 - 1 <= k <= 7 * 25 / 10) /\
    (25 mod 10 <> 0 -> k = 7 * 25 / 10) /\
    (forall (I : Q) (e : Enemy.t), protection_active (Enemy.fx e) I ->
       Enemy.health (Enemy.take_damage 25 false e) = Enemy.health e - k) /\
    (forall (I : Q) (p : Player.t), protection_active (Player.fx p) I ->
       Player.health (Player.take_damage 25 false p)
       = Z.max 0 (Player.health p - k)).
Proof.
  assert (H : 0 <= 25 < 2 ^ 48) by (split; [lia | reflexivity]).
  split; [exact H|]. exact (C5_protected_damage_amount 25 H).
Defined.

(** C5 as stated fails twice.  A protected enemy with 100 health hit for 90
    loses 62, not floor(90 * 0.7) = 63: the double product 90 * 0.7 is
    62.99999999999999.  A protected player with 5 health hit for 10 drops to
    0 and so loses 5, not floor(10 * 0.7) = 7: the player's health is floored
    at 0. *)
Lemma C5_floor_fails :
  let prot := StatusEffect.ProtectionEffect 2 1 in
  let e := fst (Enemy.apply_status_effect prot
                  (Enemy.mk Enemy.Basic 0 0 100 0 Enemy.Direct Effects.empty 0)
                  (const_rng 0)) in
  let p := fst (Player.apply_status_effect prot (Player.init 0 0 5)
                  (const_rng 0)) in
  (protection_active (Enemy.fx e) 1 /\
   Enemy.health e - Enemy.health (Enemy.take_damage 90 false e) = 62 /\
   Enemy.health e - Enemy.health (Enemy.take_damage 90 false e) <> 7 * 90 / 10) /\
  (protection_active (Player.fx p) 1 /\
   Player.health p - Player.health (Player.take_damage 10 false p) = 5 /\
   Player.health p - Player.health (Player.take_damage 10 false p) <> 7 * 10 / 10).
Proof.
  cbv zeta. split; (split; [|split; [reflexivity | vm_compute; discriminate]]);
    (split; [reflexivity|]);
    eexists; (split; [constructor|]); split; reflexivity.
Qed.

(** ** Stacking of status effects *)

Section Stacking.

Variable n : string.
Variables d i : Q.
Hypothesis Hclass : n ∈ StatusEffect.intensity_class.
Hypothesis Hi : (0 <= i)%Q.
Hypothesis Hd : (0 <= d)%Q.

Local Abbreviation copy := (StatusEffect.init n d i).
Local Abbreviation absent := (absent_in n).
Local Abbreviation capped := (capped_by n d i).
Local Abbreviation holds_once := (holds_once_of n d i).

Lemma intensity_stack existing r :
  StatusEffect.stack_effect copy existing r =
    let (u, r') := Random.uniform 0.5 1 r in
    ({| StatusEffect.name := StatusEffect.name existing;
        StatusEffect.base_duration := StatusEffect.base_duration existing;
        StatusEffect.duration := Qmax (StatusEffect.duration existing) d;
        StatusEffect.intensity :=
          Qmin (StatusEffect.intensity existing + i * u)
               (StatusEffect.max_intensity existing);
        StatusEffect.max_intensity := StatusEffect.max_intensity existing;
        StatusEffect.max_duration := StatusEffect.max_duration existing |}, r').
Proof.
  unfold StatusEffect.stack_effect. cbn [StatusEffect.name StatusEffect.init].
  unfold StatusEffect.intensity_class in Hclass.
  repeat (apply elem_of_cons in Hclass as [Hclass | Hclass]; [subst n; reflexivity|]).
  inversion Hclass.
Qed.

Lemma capped_copy : capped copy.
Proof.
  repeat split; cbn; lra.
Qed.

Lemma capped_stack x r :
  capped x -> capped (fst (StatusEffect.stack_effect copy x r)).
Proof.
  intros (Hn & Hmax & Hint & Hdur). rewrite intensity_stack.
  destruct (Random.uniform 0.5 1 r) as [u r']. cbn.
  repeat split; cbn; try assumption.
  - rewrite Hmax. apply Q.le_min_r.
  - apply Q.max_lub; [assumption | lra].
Qed.

Lemma stack_into_miss l r : absent l -> Effects.stack_into copy l r = None.
Proof.
  induction 1 as [|e l He _ IH]; [reflexivity|].
  cbn. change (StatusEffect.name copy) with n. rewrite He, IH. reflexivity.
Qed.

Lemma stack_into_hit l1 x l2 r :
  absent l1 -> StatusEffect.name x = n ->
  Effects.stack_into copy (l1 ++ x :: l2) r =
    Some (l1 ++ fst (StatusEffect.stack_effect copy x r) :: l2,
          snd (StatusEffect.stack_effect copy x r)).
Proof.
  intros Habs Hx. induction Habs as [|e l He _ IH]; cbn.
  - change (StatusEffect.name copy) with n. rewrite Hx, String.eqb_refl.
    destruct (StatusEffect.stack_effect copy x r). reflexivity.
  - change (StatusEffect.name copy) with n. rewrite He, IH. reflexivity.
Qed.

Lemma apply_first who f r :
  absent (Effects.status_effects f) ->
  holds_once (fst (Effects.apply_status_effect who copy f r)).
Proof.
  intros Habs. unfold Effects.apply_status_effect.
  rewrite stack_into_miss by assumption. cbn [fst].
  exists (Effects.status_effects f), copy, [].
  split; [|split; [assumption | split; [constructor | apply capped_copy]]].
  unfold Effects.apply_effect, Effects.log_opt.
  destruct (Effects.applied_text _); reflexivity.
Qed.

Lemma apply_again who f r :
  holds_once f -> holds_once (fst (Effects.apply_status_effect who copy f r)).
Proof.
  intros (l1 & x & l2 & Hl & H1 & H2 & Hx). unfold Effects.apply_status_effect.
  rewrite Hl, stack_into_hit by (assumption || apply Hx). cbn [fst].
  exists l1, (fst (StatusEffect.stack_effect copy x r)), l2.
  split; [reflexivity|]. repeat split; try assumption; apply capped_stack; assumption.
Qed.

Lemma named_absent l : absent l -> named n l = [].
Proof.
  induction 1 as [|e l He _ IH]; [reflexivity|].
  unfold named in *. cbn. rewrite He. assumption.
Qed.

Lemma holds_once_capped f : holds_once f -> one_capped n d i f.
Proof.
  intros (l1 & x & l2 & Hl & H1 & H2 & (Hn & _ & Hint & Hdur)).
  exists x. rewrite Hl. unfold named. rewrite List.filter_app. cbn.
  rewrite Hn, String.eqb_refl.
  fold (named n l1). fold (named n l2).
  rewrite !named_absent by assumption.
  split; [reflexivity|]. split; lra.
Qed.

Lemma absent_of_has f :
  Effects.has_status_effect n f = false -> absent (Effects.status_effects f).
Proof.
  unfold Effects.has_status_effect, absent_in. intros H.
  apply Forall_forall. intros e He.
  destruct (String.eqb (StatusEffect.name e) n) eqn:E; [|reflexivity].
  assert (existsb (fun x => String.eqb (StatusEffect.name x) n)
            (Effects.status_effects f) = true).
  { apply existsb_exists. exists e. split; [apply list_elem_of_In; exact He | exact E]. }
  congruence.
Qed.

Lemma player_apply_fx p r :
  Player.fx (fst (Player.apply_status_effect copy p r)) =
  fst (Effects.apply_status_effect Player.get_entity_name copy (Player.fx p) r).
Proof.
  unfold Player.apply_status_effect.
  destruct (Effects.apply_status_effect _ _ _ _). reflexivity.
Qed.

Lemma enemy_apply_fx e r :
  Enemy.fx (fst (Enemy.apply_status_effect copy e r)) =
  fst (Effects.apply_status_effect (Enemy.get_entity_name e) copy (Enemy.fx e) r).
Proof.
  unfold Enemy.apply_status_effect.
  destruct (Effects.apply_status_effect _ _ _ _). reflexivity.
Qed.

(** An invariant of one call is an invariant of any number of calls, once
    the first call has established it. *)
Lemma repeat_call_establishes {A} (call : A -> Random.t -> A * Random.t)
    (Pre Inv : A -> Prop) :
  (forall a r, Pre a -> Inv (fst (call a r))) ->
  (forall a r, Inv a -> Inv (fst (call a r))) ->
  forall N a r, (1 <= N)%nat -> Pre a -> Inv (fst (repeat_call call N a r)).
Proof.
  intros Hfirst Hstep N a r HN Ha.
  destruct N as [|k]; [lia|]. cbn.
  pose proof (Hfirst a r Ha) as H1.
  destruct (call a r) as [a' r']. cbn in H1. clear Ha HN a r.
  revert a' r' H1. induction k as [|k IH]; intros a r Ha; [exact Ha|].
  cbn. pose proof (Hstep a r Ha) as H2.
  destruct (call a r) as [a' r']. apply IH. exact H2.
Qed.

End Stacking.

(** C4.  For a player and for an enemy that do not yet hold the effect,
    and for every N >= 1: applying N copies of an intensity-class effect
    (Poison, Regeneration, Strength, Weakness, Protection) built with a
    non-negative duration and a non-negative intensity leaves exactly one
    effect of that name, whose intensity is at most 3 times the intensity of
    the first application and whose duration is at most 2 times the base
    duration, whatever the random stacking factors are. *)
Theorem C4_stacking_capped (n : string) (d i : Q) (N : nat)
    (p : Player.t) (e : Enemy.t) (r : Random.t) :
  n ∈ StatusEffect.intensity_class -> (0 <= i)%Q -> (0 <= d)%Q -> (1 <= N)%nat ->
  Effects.has_status_effect n (Player.fx p) = false ->
  Effects.has_status_effect n (Enemy.fx e) = false ->
  one_capped n d i
    (Player.fx (fst (repeat_call
       (Player.apply_status_effect (StatusEffect.init n d i)) N p r))) /\
  one_capped n d i
    (Enemy.fx (fst (repeat_call
       (Enemy.apply_status_effect (StatusEffect.init n d i)) N e r))).
Proof.
  intros Hclass Hi Hd HN Hp He. split.
  - apply holds_once_capped.
    apply (repeat_call_establishes _
             (fun p => absent_in n (Effects.status_effects (Player.fx p)))
             (fun p => holds_once_of n d i (Player.fx p))); try assumption.
    + intros a r0 Ha. rewrite player_apply_fx. apply apply_first; assumption.
    + intros a r0 Ha. rewrite player_apply_fx. apply apply_again; assumption.
    + apply absent_of_has. assumption.
  - apply holds_once_capped.
    apply (repeat_call_establishes _
             (fun e => absent_in n (Effects.status_effects (Enemy.fx e)))
             (fun e => holds_once_of n d i (Enemy.fx e))); try assumption.
    + intros a r0 Ha. rewrite enemy_apply_fx. apply apply_first; assumption.
    + intros a r0 Ha. rewrite enemy_apply_fx. apply apply_again; assumption.
    + apply absent_of_has. assumption.
Qed.

Lemma C4_stacking_witness :
  let p := Player.init 0 0 100 in
  let e := Enemy.mk Enemy.Tank 1 1 150 0 Enemy.Circling Effects.empty 0 in
  one_capped "Poison" 3 2
    (Player.fx (fst (repeat_call
       (Player.apply_status_effect (StatusEffect.init "Poison" 3 2)) 4 p
       (const_rng 7)))) /\
  one_capped "Poison" 3 2
    (Enemy.fx (fst (repeat_call
       (Enemy.apply_status_effect (StatusEffect.init "Poison" 3 2)) 4 e
       (const_rng 7)))).
Proof.
  apply (C4_stacking_capped "Poison" 3 2 4 (Player.init 0 0 100)
           (Enemy.mk Enemy.Tank 1 1 150 0 Enemy.Circling Effects.empty 0)
           (const_rng 7)).
  - constructor.
  - discriminate.
  - discriminate.
  - lia.
  - reflexivity.
  - reflexivity.
Defined.

(** ** Health under damage and healing *)

Section Health.

Lemma round53_nonneg n : 0 <= n -> 0 <= Float.round53 n.
Proof.
  intros Hn. unfold Float.round53.
  destruct (Z.leb_spec (Z.log2 n + 1 - 53) 0); [assumption|].
  set (sh := Z.log2 n + 1 - 53) in *.
  assert (0 < 2 ^ sh) by (apply Z.pow_pos_nonneg; lia).
  assert (0 <= n / 2 ^ sh) by (apply Z.div_pos; lia).
  destruct (_ || _); nia.
Qed.

Lemma int_mul_07_nonneg d : 0 <= d -> 0 <= Float.int_mul_07 d.
Proof.
  intros Hd. unfold Float.int_mul_07.
  apply Z.mul_nonneg_nonneg; [apply Z.sgn_nonneg; assumption|].
  apply Z.div_pos; [|reflexivity].
  apply round53_nonneg, Z.mul_nonneg_nonneg; [|unfold Float.mant_07; lia].
  apply round53_nonneg, Z.abs_nonneg.
Qed.

Lemma int_of_nonneg q : (0 <= q)%Q -> 0 <= Float.int_of q.
Proof.
  intros Hq. unfold Float.int_of.
  destruct (Qle_bool 0 q) eqn:E.
  - change 0 with (Qfloor 0). apply Qfloor_resp_le. assumption.
  - apply Qle_bool_iff in Hq. congruence.
Qed.

Lemma terrain_damage_nonneg m x y d :
  Map.get_terrain_damage m x y = Some d -> 0 <= d.
Proof.
  unfold Map.get_terrain_damage.
  destruct (negb _); [intros [= <-]; lia|].
  destruct (grid_get _ _ _) as [[]|]; cbn; intros [= <-]; lia.
Qed.

Lemma player_take_damage_inv d ig p :
  0 <= d -> player_inv p -> player_inv (Player.take_damage d ig p).
Proof.
  intros Hd [Hmax Hh]. unfold Player.take_damage, player_inv. cbn.
  pose proof (int_mul_07_nonneg d Hd).
  destruct (_ && _); destruct (_ <? 0) eqn:E;
    (apply Z.ltb_lt in E || apply Z.ltb_ge in E); lia.
Qed.

Lemma player_heal_inv k p :
  0 <= k -> player_inv p ->
  player_inv (Player.with_health (Z.min (Player.max_health p) (Player.health p + k)) p).
Proof. intros Hk [Hmax Hh]. unfold player_inv. cbn. lia. Qed.

Lemma player_move_inv dx dy m ws (es : list (Z * Z)) p r b p' m' ws' r' :
  Player.move dx dy m ws es p r = Some (b, p', m', ws', r') ->
  player_inv p -> player_inv p'.
Proof.
  unfold Player.move. intros Hmove Hinv.
  destruct (Effects.can_act (Player.fx p) r) as [ok r0].
  destruct ok; cbn in Hmove; [|injection Hmove as <- <- <- <- <-; assumption].
  destruct (Map.is_blocked m _ _) as [[]|]; cbn in Hmove; try discriminate;
    [injection Hmove as <- <- <- <- <-; assumption|].
  destruct (existsb _ es); [injection Hmove as <- <- <- <- <-; assumption|].
  destruct (Map.get_terrain_damage m _ _) as [td|] eqn:Htd; cbn in Hmove;
    [|discriminate].
  apply terrain_damage_nonneg in Htd.
  destruct (Map.get_terrain_effect m _ _); cbn in Hmove; [|discriminate].
  destruct (Map.collect_item m _ _) as [[item m1]|]; cbn in Hmove; [|discriminate].
  assert (Hq : player_inv
            (Player.with_pos (Player.x p + dx) (Player.y p + dy)
               (if 0 <? td then Player.take_damage td false p else p))).
  { destruct (0 <? td).
    - apply (player_take_damage_inv td false p Htd) in Hinv. exact Hinv.
    - exact Hinv. }
  clear Hinv.
  destruct item as [[]|]; injection Hmove as <- <- <- <- <-;
    unfold player_inv in *; cbn in *; lia.
Qed.

Lemma player_step_inv o p :
  player_op_ok o -> player_inv p -> player_inv (player_step o p).
Proof.
  intros Hok Hinv. destruct o; cbn in *.
  - apply player_take_damage_inv; assumption.
  - destruct (Player.move _ _ _ _ _ _ _) as [[[[[b p'] m'] ws'] r']|] eqn:E;
      [eapply player_move_inv; eauto | assumption].
  - unfold Player.effect_turn_start.
    destruct (String.eqb _ "Poison").
    + refine (player_take_damage_inv
                (Float.int_of (5 * StatusEffect.intensity effect)) true p _ Hinv).
      apply int_of_nonneg; lra.
    + destruct (String.eqb _ "Regeneration"); [|assumption].
      refine (player_heal_inv
                (Float.int_of (3 * StatusEffect.intensity effect)) p _ Hinv).
      apply int_of_nonneg; lra.
  - apply player_heal_inv; [lia | assumption].
  - apply player_heal_inv; [lia | assumption].
  - destruct Hinv as [Hmax Hh]. unfold player_inv. cbn. lia.
  - unfold Player.apply_status_effect.
    destruct (Effects.apply_status_effect _ _ _ _). exact Hinv.
  - unfold Player.remove_status_effect.
    destruct (Effects.remove_status_effect _ _ _). exact Hinv.
  - exact Hinv.
Qed.

Lemma enemy_step_bound o (cap : Z) e :
  enemy_op_ok o -> 100 <= cap -> Enemy.health e <= cap ->
  Enemy.health (enemy_step o e) <= cap.
Proof.
  intros Hok Hcap Hh. destruct o; cbn in *.
  - unfold Enemy.take_damage. cbn.
    pose proof (int_mul_07_nonneg damage Hok). destruct (_ && _); lia.
  - unfold Enemy.effect_turn_start.
    destruct (String.eqb _ "Poison").
    + unfold Enemy.take_damage. cbn. rewrite andb_false_r.
      pose proof (int_of_nonneg (5 * StatusEffect.intensity effect) ltac:(lra)).
      lia.
    + destruct (String.eqb _ "Regeneration"); [cbn; lia | assumption].
  - destruct (Enemy.health e <? 50); [cbn; lia | assumption].
  - unfold Enemy.apply_status_effect.
    destruct (Effects.apply_status_effect _ _ _ _). exact Hh.
  - unfold Enemy.remove_status_effect.
    destruct (Effects.remove_status_effect _ _ _). exact Hh.
  - exact Hh.
Qed.

Lemma trace_invariant {A O} (step : O -> A -> A) (ok : O -> Prop) (Inv : A -> Prop) :
  (forall o a, ok o -> Inv a -> Inv (step o a)) ->
  forall ops a, Forall ok ops -> Inv a -> Forall Inv (trace step ops a).
Proof.
  intros Hstep ops. induction ops as [|o ops IH]; intros a Hops Ha; cbn.
  - constructor; [assumption | constructor].
  - inversion Hops; subst. constructor; [assumption|].
    apply IH; [assumption | apply Hstep; assumption].
Qed.

End Health.

(** C2, as the sources have it.  Through every sequence of damage and heal
    operations with non-negative amounts, the health of a player whose
    maximum is at least the 100 that game.py hard-codes stays within
    [0, max_health] at every point; the health of an enemy, which has no
    max_health, never rises above the larger of its starting health and the
    cap of 100 that the healer applies. *)
Theorem C2_health_bounds (p : Player.t) (pops : list player_op)
    (e : Enemy.t) (eops : list enemy_op) :
  player_inv p -> Forall player_op_ok pops -> Forall enemy_op_ok eops ->
  Forall (fun q => 0 <= Player.health q <= Player.max_health q)
         (trace player_step pops p) /\
  Forall (fun q => Enemy.health q <= Z.max (Enemy.health e) 100)
         (trace enemy_step eops e).
Proof.
  intros Hp Hpops Heops. split.
  - eapply Forall_impl.
    + apply (trace_invariant player_step player_op_ok player_inv);
        [apply player_step_inv | exact Hpops | exact Hp].
    + intros q [_ Hq]. exact Hq.
  - apply (trace_invariant enemy_step enemy_op_ok
             (fun q => Enemy.health q <= Z.max (Enemy.health e) 100));
      [|exact Heops | lia].
    intros o a Ho Ha. apply enemy_step_bound; [assumption | lia | assumption].
Qed.

Lemma C2_health_bounds_witness :
  let p := Player.init 3 4 100 in
  let pops := [PTakeDamage 250 false; PUseHealthPotion; PPickHealthPack 25;
               PEffectTurnStart (StatusEffect.PoisonEffect 3 2)] in
  let e := Enemy.mk Enemy.Fast 1 1 30 0 Enemy.Direct Effects.empty 0 in
  let eops := [ETakeDamage 1 false; EHealedByAlly] in
  Forall (fun q => 0 <= Player.health q <= Player.max_health q)
         (trace player_step pops p) /\
  Forall (fun q => Enemy.health q <= Z.max (Enemy.health e) 100)
         (trace enemy_step eops e).
Proof.
  apply (C2_health_bounds (Player.init 3 4 100)
           [PTakeDamage 250 false; PUseHealthPotion; PPickHealthPack 25;
            PEffectTurnStart (StatusEffect.PoisonEffect 3 2)]
           (Enemy.mk Enemy.Fast 1 1 30 0 Enemy.Direct Effects.empty 0)
           [ETakeDamage 1 false; EHealedByAlly]).
  - unfold player_inv. cbn. lia.
  - repeat constructor; cbn; (lia || discriminate).
  - repeat constructor; cbn; lia.
Defined.

(** C2 as stated fails for enemies.  [Enemy.take_damage] has no floor: an
    enemy with 50 health hit for 60 is left at -10.  And an enemy has no
    max_health to stay under: a FastEnemy, spawned with 30, that has taken 1
    damage is healed by a HealerEnemy to 49, above the health it was
    created with. *)
Lemma C2_enemy_health_unbounded :
  (exists e r',
     Enemy.init 1 1 50 (const_rng 0) = Some (e, r') /\
     Enemy.health e = 50 /\
     Enemy.health (Enemy.take_damage 60 false e) = -10 /\
     ~ 0 <= Enemy.health (Enemy.take_damage 60 false e)) /\
  (exists e r',
     Enemy.init_kind Enemy.Fast 1 1 (const_rng 0) = Some (e, r') /\
     Enemy.health e = 30 /\
     Enemy.health (enemy_step EHealedByAlly (enemy_step (ETakeDamage 1 false) e)) = 49).
Proof.
  split; eexists; eexists; (split; [reflexivity|]); cbn; repeat split; lia.
Qed.

(** ** The movement gate of the enemies *)

Section Gate.

Context {P : Type} `{HasPos P}.
Variable game_map : Map.t.
Hypothesis Hwf : Map.wf game_map.
Variable player : P.

Lemma is_blocked_total x y : exists b, Map.is_blocked game_map x y = Some b.
Proof.
  unfold Map.is_blocked. destruct (Map.in_bounds game_map x y) eqn:Hb; cbn; [|eauto].
  apply in_bounds_spec in Hb as [Hx Hy].
  destruct (grid_get_in_range _ _ _ x y Hwf Hx Hy) as [c ->]. cbn. eauto.
Qed.

Lemma terrain_damage_total x y : exists d, Map.get_terrain_damage game_map x y = Some d.
Proof.
  unfold Map.get_terrain_damage. destruct (Map.in_bounds game_map x y) eqn:Hb; cbn; [|eauto].
  apply in_bounds_spec in Hb as [Hx Hy].
  destruct (grid_get_in_range _ _ _ x y Hwf Hx Hy) as [c ->]. cbn. eauto.
Qed.

Lemma try_step_total i nx ny roster e :
  exists s, Enemy.try_step i nx ny game_map player roster e = Some s.
Proof.
  unfold Enemy.try_step.
  destruct (is_blocked_total nx ny) as [b ->]. cbn.
  destruct (_ && _); [|eauto].
  destruct (terrain_damage_total nx ny) as [d ->]. cbn. eauto.
Qed.

Ltac step_total roster e :=
  repeat match goal with
         | |- context [Enemy.try_step ?a ?b ?c _ _ _ _] =>
             let s := fresh "s" in
             destruct (try_step_total a b c roster e) as [s ->]; cbn
         end;
  repeat case_match; eauto.

Lemma direct_move_total i dx dy roster e :
  exists e', Enemy.direct_move i dx dy game_map player roster e = Some e'.
Proof. unfold Enemy.direct_move. destruct (_ <? _); step_total roster e. Qed.

Lemma flanking_move_total i dx dy roster e r :
  exists e' r', Enemy.flanking_move i dx dy game_map player roster e r = Some (e', r').
Proof.
  unfold Enemy.flanking_move.
  destruct (Random.random r) as [u r1].
  destruct (direct_move_total i dx dy roster e) as [e' ->]. cbn.
  destruct (_ <? _); step_total roster e.
Qed.

Lemma circling_move_total i dx dy roster e :
  exists e', Enemy.circling_move i dx dy game_map player roster e = Some e'.
Proof.
  unfold Enemy.circling_move.
  destruct (direct_move_total i dx dy roster e) as [e' He'].
  destruct (_ <? _); step_total roster e.
Qed.

Lemma retreat_total i dx dy roster e :
  exists e', Enemy.retreat i dx dy game_map player roster e = Some e'.
Proof. unfold Enemy.retreat. destruct (_ <? _); step_total roster e. Qed.

Lemma choice_total {A} (l : list A) r :
  l <> [] -> exists c, Random.choice l r = Some c.
Proof.
  intros Hl. unfold Random.choice, Random.randbelow.
  destruct l as [|a l]; [congruence|].
  destruct (Random.next r) as [k r'].
  set (n := Z.of_nat (length (a :: l))).
  assert (0 < n) by (unfold n; cbn [length]; lia).
  pose proof (Z.mod_pos_bound k n ltac:(lia)).
  assert (Hlt : (Z.to_nat (k mod n) < length (a :: l))%nat).
  { generalize dependent (k mod n). intros m Hm. unfold n in *. lia. }
  destruct (lookup_lt_is_Some_2 (a :: l) (Z.to_nat (k mod n)) Hlt) as [c ->].
  cbn. eauto.
Qed.

Lemma randint_0_2 r :
  exists k r', Random.randint 0 2 r = Some (k, r') /\ 0 <= k <= 2.
Proof.
  unfold Random.randint, Random.randbelow.
  change (2 <? 0) with false. change (2 - 0 + 1) with 3. cbv iota.
  destruct (Random.next r) as [k r'].
  pose proof (Z.mod_pos_bound k 3 ltac:(lia)) as Hm.
  eexists _, _. split; [reflexivity|].
  generalize dependent (k mod 3). intros; lia.
Qed.

(** Past the two gates the move of every class runs to its end on a
    rectangular map and leaves the cooldown that the class prescribes. *)
Lemma act_outcome i dx dy roster self r :
  roster !! i = Some self ->
  exists roster' r',
    Enemy.act i dx dy game_map player roster self r = Some (roster', r') /\
    exists e', roster' !! i = Some e' /\
      match Enemy.speed (Enemy.kind self) with
      | Some s => Enemy.move_cooldown e' = s - 1
      | None => 0 <= Enemy.move_cooldown e' <= 2
      end.
Proof.
  intros Hi. apply lookup_lt_Some in Hi.
  unfold Enemy.act. destruct (Enemy.kind self) eqn:Hk; cbn [Enemy.speed].
  - assert (Hmoved : exists mv,
      match Enemy.strat self with
      | Enemy.Direct =>
          e ← Enemy.direct_move i dx dy game_map player roster self; Some (e, r)
      | Enemy.Flanking => Enemy.flanking_move i dx dy game_map player roster self r
      | Enemy.Circling =>
          e ← Enemy.circling_move i dx dy game_map player roster self; Some (e, r)
      end = Some mv).
    { destruct (Enemy.strat self).
      - destruct (direct_move_total i dx dy roster self) as [e ->]. cbn. eauto.
      - destruct (flanking_move_total i dx dy roster self r) as (e & r' & ->). eauto.
      - destruct (circling_move_total i dx dy roster self) as [e ->]. cbn. eauto. }
    destruct Hmoved as [[e1 r1] ->]. cbn [mbind option_bind fst snd].
    destruct (Random.random r1) as [u r2].
    destruct (negb (Qle_bool 0.05 u));
      [destruct (choice_total [Enemy.Direct; Enemy.Flanking; Enemy.Circling] r2)
         as [c ->]; [discriminate|] |];
      cbn [mbind option_bind fst snd];
      match goal with |- context [Random.randint 0 2 ?rr] =>
        destruct (randint_0_2 rr) as (k & r4 & -> & Hk2) end;
      cbn [mbind option_bind fst snd];
      (eexists _, _; split; [reflexivity|]);
      (eexists; split; [apply list_lookup_insert_eq; assumption | cbn; lia]).
  - destruct (direct_move_total i dx dy roster self) as [e ->]. cbn.
    eexists _, _. split; [reflexivity|].
    eexists. split; [apply list_lookup_insert_eq; assumption | reflexivity].
  - destruct (circling_move_total i dx dy roster self) as [e ->]. cbn.
    eexists _, _. split; [reflexivity|].
    eexists. split; [apply list_lookup_insert_eq; assumption | reflexivity].
  - assert (Hmoved : exists mv,
      (if Z.abs dx + Z.abs dy <? Enemy.preferred_distance
       then e ← Enemy.retreat i dx dy game_map player roster self; Some (e, r)
       else Enemy.flanking_move i dx dy game_map player roster self r) = Some mv).
    { destruct (_ <? _).
      - destruct (retreat_total i dx dy roster self) as [e ->]. cbn. eauto.
      - destruct (flanking_move_total i dx dy roster self r) as (e & r' & ->). eauto. }
    destruct Hmoved as [[e1 r1] ->]. cbn.
    eexists _, _. split; [reflexivity|].
    eexists. split; [apply list_lookup_insert_eq; assumption | reflexivity].
  - destruct (if _ : bool then Enemy.try_heal_allies i roster self else (roster, self))
      as [roster1 self1] eqn:Hheal.
    assert (Hlen : length roster1 = length roster /\
                   Enemy.kind self1 = Enemy.Healer).
    { destruct (_ && _); [|injection Hheal as <- <-; split; [reflexivity | exact Hk]].
      unfold Enemy.try_heal_allies in Hheal. injection Hheal as <- <-.
      split; [apply length_imap | destruct (existsb _ _); exact Hk]. }
    destruct Hlen as [Hlen Hk1].
    destruct (flanking_move_total i dx dy roster1 self1 r) as (e & r' & ->).
    cbn [mbind option_bind fst snd]. rewrite Hk1. cbn.
    eexists _, _. split; [reflexivity|].
    eexists. split; [apply list_lookup_insert_eq; lia | reflexivity].
  - assert (Hmoved : exists mv,
      (if Z.abs dx + Z.abs dy <=? Enemy.detection_range
       then Enemy.flanking_move i dx dy game_map player roster self r
       else
         let (u, r1) := Random.random r in
         if negb (Qle_bool 0.3 u)
         then e ← Enemy.direct_move i dx dy game_map player roster self; Some (e, r1)
         else Some (self, r1)) = Some mv).
    { destruct (_ <=? _).
      - destruct (flanking_move_total i dx dy roster self r) as (e & r' & ->). eauto.
      - destruct (Random.random r) as [u r1]. destruct (negb _); [|eauto].
        destruct (direct_move_total i dx dy roster self) as [e ->]. cbn. eauto. }
    destruct Hmoved as [[e1 r1] ->]. cbn.
    eexists _, _. split; [reflexivity|].
    eexists. split; [apply list_lookup_insert_eq; assumption | reflexivity].
Qed.

End Gate.

(** C8, as the sources have it.  On a rectangular map, every call of
    [move_towards] for an enemy of the roster runs to its end, and: when the
    enemy cannot act (paralysed, or slowed and unlucky) nothing changes; when
    it can act and its move_cooldown is positive, the cooldown is decremented
    and no move occurs; when it can act and the cooldown is 0, a move is
    attempted and the cooldown is then speed - 1 for FastEnemy, TankEnemy,
    SniperEnemy, HealerEnemy and StealthEnemy, and a random value between 0
    and 2 for the base Enemy, which has no speed. *)
Theorem C8_move_cooldown_gate {P : Type} `{HasPos P} (i : nat)
    (target_x target_y : Z) (game_map : Map.t) (player : P)
    (roster : list Enemy.t) (r : Random.t) (self : Enemy.t) :
  Map.wf game_map -> roster !! i = Some self ->
  exists roster' r',
    Enemy.move_towards i target_x target_y game_map player roster r
      = Some (roster', r') /\
    gate_outcome (fst (Effects.can_act (Enemy.fx self) r)) i self roster roster'.
Proof.
  intros Hwf Hi. unfold Enemy.move_towards, gate_outcome. rewrite Hi.
  cbn [mbind option_bind].
  destruct (Effects.can_act (Enemy.fx self) r) as [ok r1]. cbn [fst].
  destruct ok; cbn [negb]; [|eauto].
  destruct (0 <? Enemy.move_cooldown self); [eauto|].
  apply act_outcome; assumption.
Qed.

Lemma C8_move_cooldown_gate_witness :
  let m := Map.mk 3 3 [[Floor; Floor; Floor]; [Floor; Floor; Floor];
                       [Floor; Floor; Floor]] in
  let tank := Enemy.mk Enemy.Tank 0 0 150 0 Enemy.Circling Effects.empty 0 in
  exists roster' r',
    Enemy.move_towards 0 2 2 m (2, 2) [tank] (const_rng 0) = Some (roster', r') /\
    gate_outcome (fst (Effects.can_act (Enemy.fx tank) (const_rng 0))) 0 tank
                 [tank] roster'.
Proof.
  apply (C8_move_cooldown_gate 0 2 2
           (Map.mk 3 3 [[Floor; Floor; Floor]; [Floor; Floor; Floor];
                        [Floor; Floor; Floor]])
           (2, 2)
           [Enemy.mk Enemy.Tank 0 0 150 0 Enemy.Circling Effects.empty 0]
           (const_rng 0)).
  - split; [reflexivity | repeat constructor].
  - reflexivity.
Defined.

(** C8 as stated fails twice.  A paralysed FastEnemy whose move_cooldown is
    1 keeps it at 1 through a tick: the gate on [can_act] comes first and
    returns before the cooldown is touched.  A base Enemy has no speed, and
    after a move attempt its cooldown is what [randint(0, 2)] draws: 0 with
    one oracle, 2 with another. *)
Lemma C8_gate_exceptions :
  let m := Map.mk 3 3 [[Floor; Floor; Floor]; [Floor; Floor; Floor];
                       [Floor; Floor; Floor]] in
  let fast := fst (Enemy.apply_status_effect (StatusEffect.ParalysisEffect 1)
                     (Enemy.mk Enemy.Fast 0 0 30 1 Enemy.Direct Effects.empty 0)
                     (const_rng 0)) in
  let basic := Enemy.mk Enemy.Basic 0 0 50 0 Enemy.Direct Effects.empty 0 in
  (Enemy.move_cooldown fast = 1 /\
   option_map fst (Enemy.move_towards 0 2 2 m (2, 2) [fast] (const_rng 0))
     = Some [fast]) /\
  (Enemy.speed (Enemy.kind basic) = None /\
   Enemy.move_cooldown basic = 0 /\
   option_map (fun res => map Enemy.move_cooldown (fst res))
     (Enemy.move_towards 0 2 2 m (2, 2) [basic] (const_rng 0)) = Some [0] /\
   option_map (fun res => map Enemy.move_cooldown (fst res))
     (Enemy.move_towards 0 2 2 m (2, 2) [basic] (const_rng 2)) = Some [2]).
Proof. cbv zeta. repeat split; vm_compute; reflexivity. Qed.

(** ** Shots *)

Section Ranges.

Lemma elem_of_range a b i : i ∈ Py.range a b <-> a <= i < b.
Proof.
  unfold Py.range. rewrite list_elem_of_fmap. split.
  - intros (k & -> & Hk). apply elem_of_seq in Hk. lia.
  - intros Hi. exists (Z.to_nat (i - a)). split; [lia|].
    apply elem_of_seq. lia.
Qed.

Lemma range_empty a b : b <= a -> Py.range a b = [].
Proof.
  intros Hab. unfold Py.range.
  replace (Z.to_nat (b - a)) with 0%nat by lia. reflexivity.
Qed.

Lemma range_cons a b : a < b -> Py.range a b = a :: Py.range (a + 1) b.
Proof.
  intros Hab. unfold Py.range.
  replace (Z.to_nat (b - a)) with (S (Z.to_nat (b - (a + 1)))) by lia.
  cbn [seq map]. f_equal; [lia|].
  rewrite <- seq_shift, map_map. apply map_ext. intros k. lia.
Qed.

Lemma range_app a c b :
  a <= c <= b -> Py.range a b = Py.range a c ++ Py.range c b.
Proof.
  intros Hc. unfold Py.range.
  replace (Z.to_nat (b - a)) with (Z.to_nat (c - a) + Z.to_nat (b - c))%nat
    by lia.
  rewrite seq_app, map_app. f_equal.
  replace (seq (0 + Z.to_nat (c - a)) (Z.to_nat (b - c)))
    with (map (Nat.add (Z.to_nat (c - a))) (seq 0 (Z.to_nat (b - c))))
    by (rewrite (Nat.add_comm 0); apply (fmap_add_seq (Z.to_nat (c - a)) 0)).
  rewrite map_map.
  apply map_ext. intros k. lia.
Qed.

Lemma NoDup_range a b : NoDup (Py.range a b).
Proof.
  unfold Py.range. apply NoDup_fmap_2; [|apply NoDup_seq].
  intros j k Hjk. lia.
Qed.

End Ranges.

Section Beams.

Variable game_map : Map.t.
Hypothesis Hwf : Map.wf game_map.

Lemma at_cell_take_damage tx ty d ig e :
  Shoot.at_cell tx ty (Enemy.take_damage d ig e) = Shoot.at_cell tx ty e.
Proof. reflexivity. Qed.

Lemma stands_at_take_damage x y dir d ig e k :
  stands_at x y dir e k -> stands_at x y dir (Enemy.take_damage d ig e) k.
Proof. intros H; exact H. Qed.

Lemma take_damage_unprotected d e :
  Effects.protected (Enemy.fx e) = false ->
  Enemy.health (Enemy.take_damage d false e) = Enemy.health e - d.
Proof. intros Hp. unfold Enemy.take_damage. rewrite Hp. reflexivity. Qed.

Lemma is_blocked_clear tx ty :
  Map.is_blocked game_map tx ty = Some false ->
  Map.in_bounds game_map tx ty = true /\
  exists c, grid_get (Map.grid game_map) tx ty = Some c /\ cell_eqb c Wall = false.
Proof.
  unfold Map.is_blocked. destruct (Map.in_bounds game_map tx ty); [|discriminate].
  cbn. destruct (grid_get _ tx ty) as [c|]; [|discriminate].
  cbn. intros [= Hc]. eauto.
Qed.

Lemma grid_get_total tx ty :
  Map.in_bounds game_map tx ty = true ->
  exists c, grid_get (Map.grid game_map) tx ty = Some c.
Proof.
  intros Hb. apply in_bounds_spec in Hb as [Hx Hy].
  exact (grid_get_in_range _ _ _ tx ty Hwf Hx Hy).
Qed.

Lemma destroy_trees_total ts : forall m,
  Map.wf m -> exists m', Shoot.destroy_trees ts m = Some m'.
Proof.
  induction ts as [|[tx ty] ts IH]; intros m Hm; [cbn; eauto|].
  destruct (consumes_once_gen is_tree Map.destroy_terrain destroy_terrain_unfold
              eq_refl m tx ty Hm) as (r & m' & Hcall & Hsame & _).
  cbn. rewrite Hcall. cbn. apply IH, Hsame.
Qed.

(** A cardinal direction: the two tables agree on it, and the cells of the
    line are pairwise distinct. *)
Lemma cardinal_direction direction :
  direction ∈ cardinal ->
  Shoot.directions8 direction = Shoot.directions4 direction /\
  Z.abs (fst (Shoot.directions4 direction))
    + Z.abs (snd (Shoot.directions4 direction)) = 1.
Proof.
  unfold cardinal. rewrite !elem_of_cons, elem_of_nil.
  intros [->|[->|[->|[->|[]]]]]; split; reflexivity.
Qed.

Lemma at_cell_line x y dir e k i :
  Z.abs (fst dir) + Z.abs (snd dir) = 1 -> stands_at x y dir e k ->
  Shoot.at_cell (x + fst dir * i) (y + snd dir * i) e = (k =? i).
Proof.
  destruct dir as [dx dy]. unfold stands_at, Shoot.at_cell. cbn [fst snd].
  intros Hd [-> ->].
  destruct (Z.eqb_spec k i) as [->|Hne]; [rewrite !Z.eqb_refl; reflexivity|].
  apply andb_false_iff.
  destruct (Z.eqb_spec (x + dx * k) (x + dx * i)) as [Hx|]; [|auto].
  destruct (Z.eqb_spec (y + dy * k) (y + dy * i)) as [Hy|]; [|auto].
  exfalso. nia.
Qed.

(** *** The rail *)

(** The rail on a list of cells, seen from one enemy. *)
Local Abbreviation rail_on x y dir damage :=
  (fold_left (fun e i =>
     if Shoot.at_cell (x + fst dir * i) (y + snd dir * i) e
     then Enemy.take_damage damage false e else e)).

Lemma hit_all_on x y dir damage steps : forall roster,
  fold_left (fun r i => Shoot.hit_all (x + fst dir * i) (y + snd dir * i) damage r)
            steps roster
  = map (fun e => rail_on x y dir damage steps e) roster.
Proof.
  induction steps as [|i steps IH]; intros roster; cbn [fold_left].
  - symmetry. apply map_id.
  - rewrite IH. unfold Shoot.hit_all. rewrite map_map. reflexivity.
Qed.

Lemma rail_on_miss x y dir damage e k steps :
  Z.abs (fst dir) + Z.abs (snd dir) = 1 -> stands_at x y dir e k ->
  k ∉ steps -> rail_on x y dir damage steps e = e.
Proof.
  intros Hd He. induction steps as [|i steps IH]; intros Hk; [reflexivity|].
  cbn [fold_left]. rewrite (at_cell_line _ _ _ _ k i Hd He).
  apply not_elem_of_cons in Hk as [Hne Hk].
  destruct (Z.eqb_spec k i); [contradiction|]. apply IH, Hk.
Qed.

Lemma rail_on_once x y dir damage e k steps :
  Z.abs (fst dir) + Z.abs (snd dir) = 1 -> stands_at x y dir e k ->
  NoDup steps -> k ∈ steps ->
  rail_on x y dir damage steps e = Enemy.take_damage damage false e.
Proof.
  intros Hd He. induction steps as [|i steps IH]; intros Hnd Hk.
  - apply elem_of_nil in Hk as [].
  - cbn [fold_left]. rewrite (at_cell_line _ _ _ _ k i Hd He).
    apply NoDup_cons in Hnd as [Hi Hnd].
    destruct (Z.eqb_spec k i) as [->|Hne].
    + apply (rail_on_miss x y dir damage _ i); auto.
    + apply elem_of_cons in Hk as [?|Hk]; [contradiction|]. auto.
Qed.

(** The loop over a stretch of cells that are all open. *)
Lemma rail_loop_clear damage x y dir p q : forall st,
  Forall (fun i => Map.is_blocked game_map (x + fst dir * i) (y + snd dir * i)
                   = Some false) p ->
  exists st1,
    Shoot.rail_loop damage x y (fst dir) (snd dir) game_map (p ++ q) st
      = Shoot.rail_loop damage x y (fst dir) (snd dir) game_map q st1 /\
    Shoot.enemies st1
      = fold_left (fun r i => Shoot.hit_all (x + fst dir * i) (y + snd dir * i) damage r)
                  p (Shoot.enemies st).
Proof.
  induction p as [|i p IH]; intros st Hp; [exists st; split; reflexivity|].
  apply Forall_cons in Hp as [Hi Hp].
  apply is_blocked_clear in Hi as (Hb & c & Hc & Hw).
  cbn [app Shoot.rail_loop]. rewrite Hb, Hc. cbn. rewrite Hw.
  destruct (IH (Shoot.mk_beam
                  (Shoot.positions st ++ [(x + fst dir * i, y + snd dir * i)])
                  (if cell_eqb c Trees
                   then Shoot.trees st ++ [(x + fst dir * i, y + snd dir * i)]
                   else Shoot.trees st)
                  (Shoot.hit_all (x + fst dir * i) (y + snd dir * i) damage
                     (Shoot.enemies st))
                  (Shoot.hits st + length (List.filter
                     (Shoot.at_cell (x + fst dir * i) (y + snd dir * i))
                     (Shoot.enemies st)))) Hp) as (st1 & Heq & Hen).
  exists st1. split; [exact Heq|exact Hen].
Qed.

(** The loop over any cells: it ends, and it hit cells of the list only. *)
Lemma rail_loop_total damage x y dir q : forall st,
  exists st' p,
    Shoot.rail_loop damage x y (fst dir) (snd dir) game_map q st = Some st' /\
    (forall i, i ∈ p -> i ∈ q) /\
    Shoot.enemies st'
      = fold_left (fun r i => Shoot.hit_all (x + fst dir * i) (y + snd dir * i) damage r)
                  p (Shoot.enemies st).
Proof.
  assert (Hnil : forall l : list Z, forall i, i ∈ @nil Z -> i ∈ l)
    by (intros l i Hi; apply elem_of_nil in Hi as []).
  induction q as [|i q IH]; intros st.
  - exists st, []. repeat split. apply Hnil.
  - cbn [Shoot.rail_loop].
    destruct (Map.in_bounds game_map (x + fst dir * i) (y + snd dir * i)) eqn:Hb;
      cbn [negb]; [|exists st, []; repeat split; apply Hnil].
    destruct (grid_get_total _ _ Hb) as [c Hc]. rewrite Hc. cbn.
    destruct (cell_eqb c Wall); [exists st, []; repeat split; apply Hnil|].
    match goal with |- context [Shoot.rail_loop _ _ _ _ _ _ q ?s] =>
      destruct (IH s) as (st' & p & Hrun & Hsub & Hen) end.
    exists st', (i :: p). split; [exact Hrun|]. split; [|exact Hen].
    intros j Hj. apply elem_of_cons in Hj as [->|Hj]; [left|right; auto].
Qed.

Lemma map_lined_up {B} (R : Enemy.t -> Z -> Prop) (f g : Enemy.t -> B) roster ks :
  Forall2 R roster ks ->
  (forall e k, R e k -> k ∈ ks -> f e = g e) ->
  map f roster = map g roster.
Proof.
  induction 1 as [|e k roster ks He _ IH]; intros Hfg; [reflexivity|].
  cbn [map]. f_equal.
  - apply (Hfg e k He). left.
  - apply IH. intros e' k' He' Hk'. apply (Hfg e' k' He'). right. exact Hk'.
Qed.

Lemma rail_shot now w x y direction roster ks n :
  direction ∈ cardinal ->
  Weapon.can_shoot now w = Some true ->
  lined_up game_map x y (Shoot.directions4 direction) n roster ks ->
  n <= Weapon.range w ->
  exists b m',
    Shoot.RailGun_shoot now w x y direction game_map roster
    = Some (b, Weapon.fired now w, m',
            map (Enemy.take_damage (Weapon.damage w) false) roster).
Proof.
  intros Hdir Hcan (Hline & Hnd & Hks & Hclear) Hn.
  apply cardinal_direction in Hdir as [_ Hd].
  unfold Shoot.RailGun_shoot. rewrite Hcan. cbn [mbind option_bind negb].
  set (dir := Shoot.directions4 direction) in *.
  rewrite (surjective_pairing dir).
  change (Weapon.range (Weapon.fired now w)) with (Weapon.range w).
  change (Weapon.damage (Weapon.fired now w)) with (Weapon.damage w).
  set (D := Weapon.damage w). set (R := Weapon.range w) in *.
  assert (Hsplit : exists p q, Py.range 1 (R + 1) = p ++ q /\
            Forall (fun i => Map.is_blocked game_map (x + fst dir * i)
                               (y + snd dir * i) = Some false) p /\
            NoDup p /\
            (forall k, k ∈ ks -> k ∈ p) /\ (forall k, k ∈ ks -> k ∉ q)).
  { destruct (Z_lt_le_dec n 0) as [Hneg|Hpos].
    - exists [], (Py.range 1 (R + 1)). repeat split; try constructor.
      + intros k Hk. rewrite Forall_forall in Hks. apply Hks in Hk. lia.
      + intros k Hk. rewrite Forall_forall in Hks. apply Hks in Hk. lia.
    - exists (Py.range 1 (n + 1)), (Py.range (n + 1) (R + 1)).
      split; [apply range_app; lia|]. split; [exact Hclear|].
      split; [apply NoDup_range|].
      rewrite Forall_forall in Hks.
      split; intros k Hk; apply Hks in Hk; rewrite elem_of_range; lia. }
  destruct Hsplit as (p & q & -> & Hp & Hndp & Hin & Hout).
  destruct (rail_loop_clear D x y dir p q (Shoot.mk_beam [] [] roster 0) Hp)
    as (st1 & -> & Hen1).
  destruct (rail_loop_total D x y dir q st1) as (st' & p' & -> & Hsub & Hen').
  cbn [mbind option_bind].
  destruct (destroy_trees_total (Shoot.trees st') game_map Hwf) as [m' ->].
  cbn [mbind option_bind]. eexists _, m'. f_equal. f_equal.
  rewrite Hen', Hen1. cbn [Shoot.enemies].
  rewrite <- fold_left_app, hit_all_on.
  apply (map_lined_up _ _ _ _ _ Hline). intros e k He Hk.
  rewrite fold_left_app.
  rewrite (rail_on_once x y dir D e k p Hd He Hndp (Hin k Hk)).
  apply (rail_on_miss x y dir D _ k); [exact Hd|exact He|].
  intros Hk'. apply (Hout k Hk), Hsub, Hk'.
Qed.

(** *** The pistol *)

Lemma hit_only_miss i damage roster ks :
  length roster = length ks -> i ∉ ks -> hit_only i damage roster ks = roster.
Proof.
  revert ks. induction roster as [|e roster IH]; intros [|k ks] Hlen Hi;
    try discriminate; [reflexivity|].
  apply not_elem_of_cons in Hi as [Hne Hi]. unfold hit_only. cbn [zip_with].
  destruct (Z.eqb_spec k i); [congruence|].
  f_equal. apply IH; [cbn in Hlen; lia|exact Hi].
Qed.

Lemma hit_first_line x y dir damage i roster ks :
  Z.abs (fst dir) + Z.abs (snd dir) = 1 ->
  Forall2 (stands_at x y dir) roster ks -> NoDup ks ->
  Shoot.hit_first (x + fst dir * i) (y + snd dir * i) damage roster
  = if bool_decide (i ∈ ks) then Some (hit_only i damage roster ks) else None.
Proof.
  intros Hd Hline. induction Hline as [|e k roster ks He Hline IH]; intros Hnd.
  - reflexivity.
  - apply NoDup_cons in Hnd as [Hk Hnd]. cbn [Shoot.hit_first].
    rewrite (at_cell_line _ _ _ _ k i Hd He).
    unfold hit_only. cbn [zip_with].
    destruct (Z.eqb_spec k i) as [->|Hne].
    + rewrite bool_decide_eq_true_2 by left. do 2 f_equal.
      symmetry. apply hit_only_miss; [eapply Forall2_length, Hline|exact Hk].
    + rewrite (IH Hnd).
      destruct (bool_decide (i ∈ ks)) eqn:Hi.
      * rewrite bool_decide_eq_true_2
          by (right; apply bool_decide_eq_true in Hi; exact Hi).
        reflexivity.
      * rewrite bool_decide_eq_false_2; [reflexivity|].
        apply bool_decide_eq_false in Hi.
        intros Hi'. apply elem_of_cons in Hi' as [?|?]; [congruence|contradiction].
Qed.

Lemma pistol_loop_hit damage x y dir k roster roster' p q : forall st,
  Shoot.enemies st = roster ->
  Forall (fun i =>
            Map.is_blocked game_map (x + fst dir * i) (y + snd dir * i) = Some false /\
            Shoot.hit_first (x + fst dir * i) (y + snd dir * i) damage roster = None) p ->
  Map.is_blocked game_map (x + fst dir * k) (y + snd dir * k) = Some false ->
  Shoot.hit_first (x + fst dir * k) (y + snd dir * k) damage roster = Some roster' ->
  exists st',
    Shoot.pistol_loop damage x y (fst dir) (snd dir) game_map (p ++ k :: q) st
      = Some st' /\
    Shoot.enemies st' = roster'.
Proof.
  induction p as [|i p IH]; intros st Hst Hp Hk Hhit.
  - apply is_blocked_clear in Hk as (Hb & c & Hc & Hw).
    cbn [app Shoot.pistol_loop]. rewrite Hb, Hc. cbn. rewrite Hw.
    rewrite Hst, Hhit. eexists. split; reflexivity.
  - apply Forall_cons in Hp as [[Hi Hmiss] Hp].
    apply is_blocked_clear in Hi as (Hb & c & Hc & Hw).
    cbn [app Shoot.pistol_loop]. rewrite Hb, Hc. cbn. rewrite Hw.
    rewrite Hst, Hmiss. apply IH; auto.
Qed.

Lemma pistol_shot now w x y direction roster ks k1 n :
  direction ∈ cardinal ->
  Weapon.can_shoot now w = Some true ->
  lined_up game_map x y (Shoot.directions4 direction) n roster ks ->
  k1 ∈ ks -> Forall (Z.le k1) ks -> k1 <= Weapon.range w ->
  exists b m',
    Shoot.LaserPistol_shoot now w x y direction game_map roster
    = Some (b, Weapon.fired now w, m',
            hit_only k1 (Weapon.damage w) roster ks).
Proof.
  intros Hdir Hcan (Hline & Hnd & Hks & Hclear) Hk1 Hmin Hr.
  apply cardinal_direction in Hdir as [H8 Hd].
  unfold Shoot.LaserPistol_shoot. rewrite Hcan, H8. cbn [mbind option_bind negb].
  set (dir := Shoot.directions4 direction) in *.
  rewrite (surjective_pairing dir).
  change (Weapon.range (Weapon.fired now w)) with (Weapon.range w).
  change (Weapon.damage (Weapon.fired now w)) with (Weapon.damage w).
  set (D := Weapon.damage w). set (R := Weapon.range w) in *.
  rewrite Forall_forall in Hks, Hclear, Hmin.
  pose proof (Hks _ Hk1) as Hk1n.
  rewrite (range_app 1 k1 (R + 1)), (range_cons k1 (R + 1)) by lia.
  destruct (pistol_loop_hit D x y dir k1 roster (hit_only k1 D roster ks)
              (Py.range 1 k1) (Py.range (k1 + 1) (R + 1))
              (Shoot.mk_beam [] [] roster 0) eq_refl) as (st' & -> & Hen).
  - apply Forall_forall. intros i Hi. apply elem_of_range in Hi.
    split; [apply Hclear, elem_of_range; lia|].
    rewrite (hit_first_line x y dir D i roster ks Hd Hline Hnd).
    rewrite bool_decide_eq_false_2; [reflexivity|].
    intros Hi'. apply Hmin in Hi'. lia.
  - apply Hclear, elem_of_range. lia.
  - rewrite (hit_first_line x y dir D k1 roster ks Hd Hline Hnd).
    rewrite bool_decide_eq_true_2 by exact Hk1. reflexivity.
  - cbn [mbind option_bind].
    destruct (destroy_trees_total (Shoot.trees st') game_map Hwf) as [m' ->].
    cbn [mbind option_bind]. rewrite Hen. eexists _, m'. reflexivity.
Qed.

End Beams.

(** C6.  Enemies stand in a line from the shooter along a cardinal
    direction, at pairwise distinct distances [ks] within the first [n]
    cells, none of which is a wall or outside the map (three enemies are the
    case of the claim; any number will do).  A rail gun whose range covers
    the [n] cells calls [take_damage] with its damage value on every one of
    them, once; a laser pistol whose range covers the nearest enemy, at
    distance [k1], calls it on that enemy only and leaves every other enemy
    as it was.  For an enemy without Protection the call lowers the health
    by exactly the damage value. *)
Theorem C6_rail_pierces_pistol_stops (now : Q) (rail pistol : Weapon.t)
    (x y : Z) (direction : string) (game_map : Map.t)
    (roster : list Enemy.t) (ks : list Z) (k1 n : Z) :
  Map.wf game_map ->
  direction ∈ cardinal ->
  Weapon.can_shoot now rail = Some true ->
  Weapon.can_shoot now pistol = Some true ->
  lined_up game_map x y (Shoot.directions4 direction) n roster ks ->
  n <= Weapon.range rail ->
  k1 ∈ ks -> Forall (Z.le k1) ks -> k1 <= Weapon.range pistol ->
  (exists b m',
     Shoot.RailGun_shoot now rail x y direction game_map roster
     = Some (b, Weapon.fired now rail, m',
             map (Enemy.take_damage (Weapon.damage rail) false) roster)) /\
  (exists b m',
     Shoot.LaserPistol_shoot now pistol x y direction game_map roster
     = Some (b, Weapon.fired now pistol, m',
             hit_only k1 (Weapon.damage pistol) roster ks)) /\
  (forall d e, Effects.protected (Enemy.fx e) = false ->
     Enemy.health (Enemy.take_damage d false e) = Enemy.health e - d).
Proof.
  intros Hwf Hdir Hrail Hpistol Hline Hn Hk1 Hmin Hr.
  split; [|split].
  - apply (rail_shot game_map Hwf now rail x y direction roster ks n); assumption.
  - apply (pistol_shot game_map Hwf now pistol x y direction roster ks k1 n);
      assumption.
  - intros d e. apply take_damage_unprotected.
Qed.

Lemma C6_rail_pierces_pistol_stops_witness :
  let m := Map.mk 6 1 [[Floor; Floor; Trees; Floor; Floor; Floor]] in
  let far := Enemy.mk Enemy.Tank 3 0 150 0 Enemy.Circling Effects.empty 0 in
  let near := Enemy.mk Enemy.Basic 1 0 50 0 Enemy.Direct Effects.empty 0 in
  let mid := Enemy.mk Enemy.Fast 2 0 30 0 Enemy.Direct Effects.empty 0 in
  option_map (fun res => map Enemy.health (snd res))
    (Shoot.RailGun_shoot 1 Weapon.RailGun 0 0 "right" m [far; near; mid])
  = Some (map (fun e => Enemy.health e - 45) [far; near; mid]) /\
  option_map (fun res => map Enemy.health (snd res))
    (Shoot.LaserPistol_shoot 1 Weapon.LaserPistol 0 0 "right" m [far; near; mid])
  = Some [Enemy.health far; Enemy.health near - 20; Enemy.health mid].
Proof.
  cbv zeta.
  destruct (C6_rail_pierces_pistol_stops 1 Weapon.RailGun Weapon.LaserPistol
              0 0 "right"
              (Map.mk 6 1 [[Floor; Floor; Trees; Floor; Floor; Floor]])
              [Enemy.mk Enemy.Tank 3 0 150 0 Enemy.Circling Effects.empty 0; Enemy.mk Enemy.Basic 1 0 50 0 Enemy.Direct Effects.empty 0;
               Enemy.mk Enemy.Fast 2 0 30 0 Enemy.Direct Effects.empty 0]
              [3; 1; 2] 1 3)
    as ((b & m' & Hrail) & (b' & m'' & Hpistol) & _).
  - split; [reflexivity | repeat constructor].
  - unfold cardinal. rewrite !elem_of_cons. auto.
  - reflexivity.
  - reflexivity.
  - split; [repeat constructor|]. split; [|split].
    + repeat constructor; rewrite ?elem_of_cons, ?elem_of_nil; lia.
    + repeat constructor; lia.
    + repeat constructor.
  - vm_compute. discriminate.
  - rewrite !elem_of_cons. auto.
  - repeat constructor; lia.
  - vm_compute. discriminate.
  - rewrite Hrail, Hpistol. split; reflexivity.
Defined.

Section Blast.

Variable game_map : Map.t.
Hypothesis Hwf : Map.wf game_map.
Variables full ix iy : Z.

(** What the explosion does on the cell at offset [o], seen from one
    enemy. *)
Local Abbreviation blast_on := (fun (e : Enemy.t) (o : Z * Z) =>
  if open_cell game_map (ix + fst o) (iy + snd o)
     && Shoot.at_cell (ix + fst o) (iy + snd o) e
  then Enemy.take_damage
         (if (fst o =? 0) && (snd o =? 0) then full else full / 2) false e
  else e).

(** Every enemy recorded in [hit_enemies] stands on a cell that the loops
    have been through. *)
Local Abbreviation seen st processed :=
  (forall (j : nat) (e : Enemy.t),
     j ∈ Shoot.hit_enemies st -> Shoot.blast_enemies st !! j = Some e ->
     (Enemy.x e, Enemy.y e) ∈ (processed : list (Z * Z))).

Lemma for_each_app {A S} (body : A -> S -> option S) l1 l2 s :
  Shoot.for_each body (l1 ++ l2) s
  = s' ← Shoot.for_each body l1 s; Shoot.for_each body l2 s'.
Proof.
  revert s. induction l1 as [|a l1 IH]; intros s; [reflexivity|].
  cbn [app Shoot.for_each]. destruct (body a s) as [s1|]; [|reflexivity].
  cbn [mbind option_bind]. apply IH.
Qed.

Lemma for_each_nested {A B S} (body : A -> B -> S -> option S) l1 l2 s :
  Shoot.for_each (fun a => Shoot.for_each (body a) l2) l1 s
  = Shoot.for_each (fun o => body (fst o) (snd o))
      (a ← l1; b ← l2; [(a, b)]) s.
Proof.
  revert s. induction l1 as [|a l1 IH]; intros s; [reflexivity|].
  cbn [Shoot.for_each mbind list_bind]. rewrite for_each_app.
  assert (Hin : forall s, Shoot.for_each (body a) l2 s
            = Shoot.for_each (fun o => body (fst o) (snd o))
                (b ← l2; [(a, b)]) s).
  { clear. induction l2 as [|b l2 IH]; intros s; [reflexivity|].
    cbn [Shoot.for_each mbind list_bind app fst snd].
    destruct (body a b s); [apply IH|reflexivity]. }
  rewrite Hin.
  destruct (Shoot.for_each _ (b ← l2; [(a, b)]) s); [apply IH|reflexivity].
Qed.

Lemma open_cell_spec tx ty :
  open_cell game_map tx ty
  = Map.in_bounds game_map tx ty
    && match grid_get (Map.grid game_map) tx ty with
       | Some c => negb (cell_eqb c Wall)
       | None => false
       end.
Proof.
  unfold open_cell, Map.is_blocked.
  destruct (Map.in_bounds game_map tx ty); [|reflexivity].
  cbn. destruct (grid_get _ tx ty) as [c|]; [|reflexivity].
  cbn. destruct (cell_eqb c Wall); reflexivity.
Qed.

Lemma blast_roster_spec tx ty d : forall roster j hit,
  (forall i e, (j + i)%nat ∈ hit -> roster !! i = Some e ->
     Shoot.at_cell tx ty e = false) ->
  exists hit',
    Shoot.blast_roster tx ty d j roster hit = (Shoot.hit_all tx ty d roster, hit') /\
    forall n, n ∈ hit' ->
      n ∈ hit \/
      exists i e, n = (j + i)%nat /\ roster !! i = Some e /\
                  Shoot.at_cell tx ty e = true.
Proof.
  induction roster as [|e roster IH]; intros j hit Hpre.
  - exists hit. split; [reflexivity|auto].
  - cbn [Shoot.blast_roster Shoot.hit_all map].
    destruct (Shoot.at_cell tx ty e) eqn:He; cbn [andb].
    + rewrite bool_decide_eq_false_2; cbn [negb].
      2:{ intros Hj. specialize (Hpre 0%nat e).
          rewrite Nat.add_0_r in Hpre. specialize (Hpre Hj eq_refl).
          congruence. }
      destruct (IH (S j) (hit ++ [j])) as (hit' & Hrun & Hhit').
      { intros i e' Hi He'. apply (Hpre (S i) e'); [|exact He'].
        apply elem_of_app in Hi as [Hi|Hi].
        - replace (j + S i)%nat with (S j + i)%nat by lia. exact Hi.
        - apply list_elem_of_singleton in Hi. lia. }
      rewrite Hrun. exists hit'. split; [reflexivity|].
      intros n Hn. apply Hhit' in Hn as [Hn|(i & e' & -> & Hi & Hat)].
      * apply elem_of_app in Hn as [Hn|Hn]; [left; exact Hn|].
        apply list_elem_of_singleton in Hn as ->.
        right. exists 0%nat, e. rewrite Nat.add_0_r. auto.
      * right. exists (S i), e'. split; [lia|auto].
    + destruct (IH (S j) hit) as (hit' & Hrun & Hhit').
      { intros i e' Hi He'. apply (Hpre (S i) e'); [|exact He'].
        replace (j + S i)%nat with (S j + i)%nat by lia. exact Hi. }
      rewrite Hrun. exists hit'. split; [reflexivity|].
      intros n Hn. apply Hhit' in Hn as [Hn|(i & e' & -> & Hi & Hat)];
        [left; exact Hn|].
      right. exists (S i), e'. split; [lia|auto].
Qed.

Lemma hit_all_lookup tx ty d roster j e' :
  Shoot.hit_all tx ty d roster !! j = Some e' ->
  exists e, roster !! j = Some e /\ Enemy.x e' = Enemy.x e /\
            Enemy.y e' = Enemy.y e.
Proof.
  unfold Shoot.hit_all. rewrite list_lookup_fmap.
  destruct (roster !! j) as [e|]; [|discriminate].
  cbn. intros [= <-]. exists e. split; [reflexivity|].
  destruct (Shoot.at_cell tx ty e); split; reflexivity.
Qed.

Lemma blast_cell_spec o st processed :
  seen st processed ->
  (ix + fst o, iy + snd o) ∉ processed ->
  exists st',
    Shoot.blast_cell full ix iy game_map (fst o) (snd o) st = Some st' /\
    Shoot.blast_enemies st' = map (fun e => blast_on e o) (Shoot.blast_enemies st) /\
    seen st' ((ix + fst o, iy + snd o) :: processed).
Proof.
  intros Hseen Hnew. unfold Shoot.blast_cell.
  rewrite open_cell_spec.
  destruct (Map.in_bounds game_map (ix + fst o) (iy + snd o)) eqn:Hb.
  2:{ exists st. split; [reflexivity|]. cbn [andb]. split.
      - symmetry. apply map_id.
      - intros j e Hj He. right. eauto. }
  destruct (grid_get_total game_map Hwf _ _ Hb) as [c Hc]. rewrite Hc.
  cbn [mbind option_bind andb].
  destruct (cell_eqb c Wall); cbn [negb].
  { exists st. split; [reflexivity|]. split.
    - symmetry. apply map_id.
    - intros j e Hj He. right. eauto. }
  destruct (blast_roster_spec (ix + fst o) (iy + snd o)
              (if (fst o =? 0) && (snd o =? 0) then full else full / 2)
              (Shoot.blast_enemies st) 0 (Shoot.hit_enemies st))
    as (hit' & Hrun & Hhit').
  { intros i e Hi He. cbn [Nat.add] in Hi.
    specialize (Hseen i e Hi He). unfold Shoot.at_cell.
    destruct (Z.eqb_spec (Enemy.x e) (ix + fst o)) as [Hx|]; [|reflexivity].
    destruct (Z.eqb_spec (Enemy.y e) (iy + snd o)) as [Hy|]; [|reflexivity].
    rewrite Hx, Hy in Hseen. contradiction. }
  rewrite Hrun. eexists. split; [reflexivity|]. cbn [Shoot.blast_enemies
    Shoot.hit_enemies]. split; [reflexivity|].
  intros j e' Hj He'.
  apply hit_all_lookup in He' as (e & He & -> & ->).
  apply Hhit' in Hj as [Hj|(i & e0 & -> & Hi & Hat)].
  - right. eauto.
  - cbn [Nat.add] in He. rewrite He in Hi. injection Hi as <-.
    unfold Shoot.at_cell in Hat. apply andb_true_iff in Hat as [Hx Hy].
    apply Z.eqb_eq in Hx, Hy. rewrite Hx, Hy. left.
Qed.

Lemma blast_cells_spec offs : forall st processed,
  NoDup offs ->
  (forall o, o ∈ offs -> (ix + fst o, iy + snd o) ∉ processed) ->
  seen st processed ->
  exists st',
    Shoot.for_each (fun o => Shoot.blast_cell full ix iy game_map (fst o) (snd o))
      offs st = Some st' /\
    Shoot.blast_enemies st'
    = map (fun e => fold_left blast_on offs e) (Shoot.blast_enemies st).
Proof.
  induction offs as [|o offs IH]; intros st processed Hnd Hnew Hseen.
  - exists st. split; [reflexivity|]. symmetry. apply map_id.
  - apply NoDup_cons in Hnd as [Ho Hnd].
    destruct (blast_cell_spec o st processed Hseen) as (st1 & Hrun & Hen & Hseen1);
      [apply Hnew; left|].
    destruct (IH st1 ((ix + fst o, iy + snd o) :: processed) Hnd)
      as (st' & Hrun' & Hen'); [|exact Hseen1|].
    { intros o' Ho' Hin. apply elem_of_cons in Hin as [Heq|Hin].
      - assert (o' = o) as ->
          by (destruct o, o'; cbn [fst snd] in Heq; injection Heq; intros;
              f_equal; lia).
        contradiction.
      - apply (Hnew o'); [right; exact Ho'|exact Hin]. }
    exists st'. cbn [Shoot.for_each]. rewrite Hrun. cbn [mbind option_bind].
    split; [exact Hrun'|]. rewrite Hen', Hen, map_map. reflexivity.
Qed.

(** The nine cells, seen from one enemy: the enemy is struck when its own
    cell is one of them and is open, and then once. *)
Lemma blast_on_cells offs : forall e,
  NoDup offs ->
  fold_left blast_on offs e
  = if bool_decide ((Enemy.x e - ix, Enemy.y e - iy) ∈ offs)
       && open_cell game_map (Enemy.x e) (Enemy.y e)
    then Enemy.take_damage
           (if (Enemy.x e - ix =? 0) && (Enemy.y e - iy =? 0)
            then full else full / 2) false e
    else e.
Proof.
  induction offs as [|o offs IH]; intros e Hnd; [reflexivity|].
  apply NoDup_cons in Hnd as [Ho Hnd]. cbn [fold_left].
  destruct (decide (o = (Enemy.x e - ix, Enemy.y e - iy))) as [->|Hne].
  - cbn [fst snd].
    replace (ix + (Enemy.x e - ix)) with (Enemy.x e) by lia.
    replace (iy + (Enemy.y e - iy)) with (Enemy.y e) by lia.
    assert (Hself : Shoot.at_cell (Enemy.x e) (Enemy.y e) e = true)
      by (unfold Shoot.at_cell; rewrite !Z.eqb_refl; reflexivity).
    rewrite Hself, andb_true_r.
    rewrite (bool_decide_eq_true_2 _ (list_elem_of_here _ _)). cbn [andb].
    destruct (open_cell game_map (Enemy.x e) (Enemy.y e)) eqn:Hopen.
    + rewrite IH by exact Hnd.
      change (Enemy.x (Enemy.take_damage _ false e)) with (Enemy.x e).
      change (Enemy.y (Enemy.take_damage _ false e)) with (Enemy.y e).
      rewrite bool_decide_eq_false_2 by exact Ho. reflexivity.
    + rewrite IH by exact Hnd.
      rewrite bool_decide_eq_false_2 by exact Ho. reflexivity.
  - assert (Hat : Shoot.at_cell (ix + fst o) (iy + snd o) e = false).
    { unfold Shoot.at_cell.
      destruct (Z.eqb_spec (Enemy.x e) (ix + fst o)) as [Hx|]; [|reflexivity].
      destruct (Z.eqb_spec (Enemy.y e) (iy + snd o)) as [Hy|]; [|reflexivity].
      exfalso. apply Hne. destruct o; cbn [fst snd] in *. f_equal; lia. }
    rewrite Hat, andb_false_r. rewrite IH by exact Hnd.
    destruct (bool_decide (_ ∈ offs)) eqn:Hin.
    + rewrite bool_decide_eq_true_2; [reflexivity|].
      right. apply bool_decide_eq_true in Hin. exact Hin.
    + rewrite bool_decide_eq_false_2; [reflexivity|].
      apply bool_decide_eq_false in Hin. intros Hin'.
      apply elem_of_cons in Hin' as [?|?]; [congruence|contradiction].
Qed.

Lemma offsets_eq :
  offsets = [(-1, -1); (-1, 0); (-1, 1); (0, -1); (0, 0); (0, 1);
             (1, -1); (1, 0); (1, 1)].
Proof. reflexivity. Qed.

Lemma NoDup_offsets : NoDup offsets.
Proof.
  rewrite offsets_eq.
  repeat (apply NoDup_cons; split;
          [rewrite ?elem_of_cons, elem_of_nil; intros H;
           repeat (destruct H as [H|H]; [discriminate H|]); exact H|]).
  apply NoDup_nil_2.
Qed.

Lemma elem_of_offsets ox oy :
  (ox, oy) ∈ offsets <-> Z.abs ox <= 1 /\ Z.abs oy <= 1.
Proof.
  rewrite offsets_eq, !elem_of_cons, elem_of_nil. split.
  - intros H.
    repeat (destruct H as [H|H]; [injection H; intros; lia|]). destruct H.
  - intros [Hx Hy].
    assert (ox = -1 \/ ox = 0 \/ ox = 1) as [->|[->| ->]] by lia;
    assert (oy = -1 \/ oy = 0 \/ oy = 1) as [->|[->| ->]] by lia; tauto.
Qed.

Lemma grenade_shot now w x y direction roster :
  Weapon.can_shoot now w = Some true ->
  Shoot.impact w x y (fst (Shoot.directions4 direction))
    (snd (Shoot.directions4 direction)) game_map = (ix, iy) ->
  Weapon.damage w = full ->
  exists b m',
    Shoot.GrenadeLauncher_shoot now w x y direction game_map roster
    = Some (b, Weapon.fired now w, m',
            map (burst game_map full (full / 2) ix iy) roster).
Proof.
  intros Hcan Himpact Hfull.
  unfold Shoot.GrenadeLauncher_shoot. rewrite Hcan. cbn [mbind option_bind negb].
  rewrite (surjective_pairing (Shoot.directions4 direction)).
  change (Shoot.impact (Weapon.fired now w)) with (Shoot.impact w).
  rewrite Himpact.
  change (Weapon.damage (Weapon.fired now w)) with (Weapon.damage w).
  rewrite Hfull, for_each_nested. fold offsets.
  destruct (blast_cells_spec offsets (Shoot.mk_blast [] [] roster []) []
              NoDup_offsets) as (st' & -> & Hen).
  { intros o _ Hin. apply elem_of_nil in Hin as []. }
  { intros j e Hj. apply elem_of_nil in Hj as []. }
  cbn [mbind option_bind].
  destruct (destroy_trees_total (Shoot.blast_trees st') game_map Hwf) as [m' ->].
  cbn [mbind option_bind]. eexists _, m'. do 2 f_equal.
  rewrite Hen. cbn [Shoot.blast_enemies]. apply map_ext. intros e.
  rewrite (blast_on_cells offsets e NoDup_offsets). unfold burst.
  destruct (bool_decide _) eqn:Hin.
  - apply bool_decide_eq_true, elem_of_offsets in Hin as [Hx Hy].
    apply Z.leb_le in Hx, Hy. rewrite Hx, Hy. reflexivity.
  - apply bool_decide_eq_false in Hin. rewrite elem_of_offsets in Hin.
    destruct (Z.leb_spec (Z.abs (Enemy.x e - ix)) 1);
    destruct (Z.leb_spec (Z.abs (Enemy.y e - iy)) 1);
      try reflexivity. exfalso. apply Hin. split; assumption.
Qed.

End Blast.

(** C7.  A grenade launcher (damage 25, range 8) that may fire bursts at
    the point [8 * 2 // 3 = 5] cells along the direction, clamped into the
    grid on both axes.  Every enemy on the impact cell takes
    [take_damage(25)], every enemy on one of the eight cells around it takes
    [take_damage(12)], each of them once, and every other enemy is left as
    it was; a cell of the block that is a wall or outside the map shields
    the enemy on it. *)
Theorem C7_grenade_blast (now : Q) (w : Weapon.t) (x y : Z)
    (direction : string) (game_map : Map.t) (roster : list Enemy.t) :
  Map.wf game_map ->
  Weapon.can_shoot now w = Some true ->
  Weapon.damage w = 25 -> Weapon.range w = 8 ->
  let d := Shoot.directions4 direction in
  let ix := Z.max 0 (Z.min (x + fst d * 5) (Map.width game_map - 1)) in
  let iy := Z.max 0 (Z.min (y + snd d * 5) (Map.height game_map - 1)) in
  exists b m',
    Shoot.GrenadeLauncher_shoot now w x y direction game_map roster
    = Some (b, Weapon.fired now w, m', map (burst game_map 25 12 ix iy) roster).
Proof.
  intros Hwf Hcan Hdamage Hrange d ix iy.
  apply (grenade_shot game_map Hwf 25 ix iy now w x y direction roster Hcan).
  - unfold Shoot.impact. rewrite Hrange. reflexivity.
  - exact Hdamage.
Qed.

Lemma C7_grenade_blast_witness :
  let m := Map.mk 7 3 [[Floor; Floor; Floor; Floor; Floor; Floor; Floor];
                       [Floor; Floor; Floor; Floor; Floor; Floor; Floor];
                       [Floor; Floor; Floor; Floor; Floor; Floor; Floor]] in
  let centre := Enemy.mk Enemy.Basic 5 1 50 0 Enemy.Direct Effects.empty 0 in
  let corner := Enemy.mk Enemy.Basic 6 2 50 0 Enemy.Direct Effects.empty 0 in
  let away := Enemy.mk Enemy.Basic 1 1 50 0 Enemy.Direct Effects.empty 0 in
  option_map (fun res => map Enemy.health (snd res))
    (Shoot.GrenadeLauncher_shoot 1 Weapon.GrenadeLauncher 0 1 "right" m
       [centre; corner; away])
  = Some [50 - 25; 50 - 12; 50].
Proof.
  cbv zeta.
  destruct (C7_grenade_blast 1 Weapon.GrenadeLauncher 0 1 "right"
              (Map.mk 7 3 [[Floor; Floor; Floor; Floor; Floor; Floor; Floor];
                           [Floor; Floor; Floor; Floor; Floor; Floor; Floor];
                           [Floor; Floor; Floor; Floor; Floor; Floor; Floor]])
              [Enemy.mk Enemy.Basic 5 1 50 0 Enemy.Direct Effects.empty 0;
               Enemy.mk Enemy.Basic 6 2 50 0 Enemy.Direct Effects.empty 0;
               Enemy.mk Enemy.Basic 1 1 50 0 Enemy.Direct Effects.empty 0])
    as (b & m' & Hshot).
  - split; [reflexivity | repeat constructor].
  - reflexivity.
  - reflexivity.
  - reflexivity.
  - rewrite Hshot. reflexivity.
Defined.

(** ** Combat mode *)

Section Combat.

Variable g : Game.t.
Hypothesis Horder : Game.turn_order g <> [].

Lemma log_combat_event_total event :
  exists g', Game.log_combat_event event g = Some g' /\
    Game.combat_mode g' = Game.combat_mode g /\
    Game.enemies g' = Game.enemies g /\ Game.player g' = Game.player g.
Proof.
  unfold Game.log_combat_event, Game.get_current_turn_number.
  destruct (Z.eqb_spec (Z.of_nat (length (Game.turn_order g))) 0) as [Hlen|_].
  - destruct (Game.turn_order g); [contradiction|discriminate].
  - eexists. split; [reflexivity|]. repeat split.
Qed.

(** The combat-end check never fails on a game that is in combat, never
    touches the roster, and leaves combat mode exactly when the roster is
    empty or the player is at 0 health or below. *)
Lemma check_combat_end_exits_iff :
  exists g', Game.check_combat_end g = Some g' /\
    Game.enemies g' = Game.enemies g /\
    Game.combat_mode g'
    = Game.combat_mode g
      && negb (bool_decide (Game.enemies g = [])
               || (Player.health (Game.player g) <=? 0)).
Proof.
  unfold Game.check_combat_end.
  destruct (Game.enemies g) as [|e roster] eqn:Hroster.
  - destruct (log_combat_event_total "All enemies defeated!")
      as (g' & -> & _ & Hen & _).
    eexists. split; [reflexivity|]. split; [cbn; congruence|].
    cbn. rewrite andb_false_r. reflexivity.
  - rewrite (bool_decide_eq_false_2 (e :: roster = [])) by discriminate.
    destruct (Player.health (Game.player g) <=? 0).
    + destruct (log_combat_event_total "Player defeated!")
        as (g' & -> & _ & Hen & _).
      eexists. split; [reflexivity|]. split; [cbn; congruence|].
      cbn. rewrite andb_false_r. reflexivity.
    + eexists. split; [reflexivity|]. split; [exact Hroster|].
      cbn. rewrite andb_true_r. reflexivity.
Qed.

End Combat.

(** C3.  The claim fails on the code.  A player with 100 health stands next
    to the sole enemy, which has 50; the exploration update enters combat;
    a hit takes the enemy to 0 health in the middle of the round.  The next
    combat-end check, and the end-of-round check of [new_round] after it,
    leave the game in combat mode with the dead enemy still in the roster:
    [check_combat_end] tests for an empty roster, and nothing in combat mode
    removes an enemy from it.  The enemy tick of exploration mode, run on
    the same player and the same dead enemy, does remove it and scores the
    kill. *)
Theorem C3_dead_enemy_stays_in_combat :
  let floor3 := Map.mk 3 3 [[Floor; Floor; Floor]; [Floor; Floor; Floor];
                            [Floor; Floor; Floor]] in
  let enemy := Enemy.mk Enemy.Basic 2 1 50 0 Enemy.Direct Effects.empty 0 in
  let g0 := Game.mk false [] 0 [] [] 10 "" (Player.init 1 1 100) [enemy]
                    floor3 0 in
  let observe := fun g : Game.t =>
    (Game.combat_mode g, map Enemy.health (Game.enemies g),
     Player.health (Game.player g)) in
  option_map observe
    (g1 ← Game.update_exploration g0; Game.hit_enemy 0 50 g1)
    = Some (true, [0], 100) /\
  option_map observe
    (g1 ← Game.update_exploration g0; g2 ← Game.hit_enemy 0 50 g1;
     Game.check_combat_end g2)
    = Some (true, [0], 100) /\
  option_map observe
    (g1 ← Game.update_exploration g0; g2 ← Game.hit_enemy 0 50 g1;
     g3 ← Game.check_combat_end g2; Game.new_round g3)
    = Some (true, [0], 100) /\
  option_map (fun res => (observe (fst res), Game.score (fst res)))
    (g1 ← Game.hit_enemy 0 50 g0; Game.tick_enemies true g1 (const_rng 0))
    = Some ((false, [], 100), 10).
Proof. cbv zeta. repeat split; vm_compute; reflexivity. Qed.

(** ** The combat logs and the way out of combat *)

Section CombatLogs.

Lemma append_capped_length limit entry log :
  0 <= limit -> Z.of_nat (length log) <= limit ->
  Z.of_nat (length (Game.append_capped limit entry log)) <= limit.
Proof.
  intros Hl Hlen. unfold Game.append_capped.
  destruct (Z.ltb_spec limit (Z.of_nat (length (log ++ [entry])))) as [Hover|Hin];
    [|exact Hin].
  rewrite length_app in Hover. cbn [length] in Hover.
  destruct log as [|a log]; cbn [app tail length] in *; [lia|].
  rewrite length_app. cbn [length]. lia.
Qed.

Lemma append_capped_last limit entry log :
  1 <= limit -> last (Game.append_capped limit entry log) = Some entry.
Proof.
  intros Hl. unfold Game.append_capped.
  destruct (Z.ltb_spec limit (Z.of_nat (length (log ++ [entry])))) as [Hover|Hin];
    [|apply last_snoc].
  rewrite length_app in Hover. cbn [length] in Hover.
  destruct log as [|a log]; cbn [app tail length] in *; [lia|].
  apply last_snoc.
Qed.

Lemma turn_number_total g :
  Game.turn_order g <> [] ->
  exists n, Game.get_current_turn_number g = Some n.
Proof.
  intros Hne. unfold Game.get_current_turn_number.
  destruct (Game.turn_order g) as [|a l]; [contradiction|].
  cbn [length]. destruct (Z.eqb_spec (Z.of_nat (S (length l))) 0); [lia|eauto].
Qed.

Lemma log_combat_event_keeps event g :
  Game.turn_order g <> [] ->
  exists g', Game.log_combat_event event g = Some g' /\
    Game.enemies g' = Game.enemies g /\ Game.player g' = Game.player g /\
    Game.combat_mode g' = Game.combat_mode g /\
    Game.turn_order g' = Game.turn_order g.
Proof.
  intros Hne. unfold Game.log_combat_event.
  destruct (turn_number_total g Hne) as [n ->]. cbn [mbind option_bind].
  eexists. repeat split.
Qed.

End CombatLogs.

(** X1.  [check_combat_end], called while the turn order is not empty,
    never fails and never touches the roster or the player.  It leaves
    combat mode exactly when the roster is empty or the health of the player
    is 0 or less; in every other case, whatever the health of the enemies,
    it changes nothing at all: an enemy whose health has dropped to 0 stays
    in the roster and the game stays in combat mode. *)
Theorem X1_check_combat_end_exits (g : Game.t) :
  Game.turn_order g <> [] ->
  exists g',
    Game.check_combat_end g = Some g' /\
    Game.enemies g' = Game.enemies g /\
    Game.player g' = Game.player g /\
    (Game.combat_mode g' = false <->
       Game.combat_mode g = false \/ Game.enemies g = [] \/
       Player.health (Game.player g) <= 0) /\
    (Game.enemies g <> [] -> 0 < Player.health (Game.player g) -> g' = g).
Proof.
  intros Hne. unfold Game.check_combat_end.
  destruct (Game.enemies g) as [|e roster] eqn:Hroster.
  - destruct (log_combat_event_keeps "All enemies defeated!" g Hne)
      as (g1 & -> & Hen & Hpl & _). cbn [mbind option_bind].
    eexists. split; [reflexivity|]. cbn. rewrite Hen, Hpl, Hroster.
    repeat split; auto. congruence.
  - destruct (Z.leb_spec (Player.health (Game.player g)) 0) as [Hdead|Halive].
    + destruct (log_combat_event_keeps "Player defeated!" g Hne)
        as (g1 & -> & Hen & Hpl & _). cbn [mbind option_bind].
      eexists. split; [reflexivity|]. cbn. rewrite Hen, Hpl, Hroster.
      repeat split; auto. lia.
    + exists g. repeat split; auto.
      intros [H|[H|H]]; [exact H|discriminate H|lia].
Qed.

Lemma X1_check_combat_end_exits_witness :
  let g := Game.mk true [Game.ThePlayer; Game.TheEnemy 0] 1 [] [] 10 ""
             (Player.init 1 1 100)
             [Enemy.mk Enemy.Basic 2 1 0 0 Enemy.Direct Effects.empty 0]
             (Map.mk 3 3 [[Floor; Floor; Floor]; [Floor; Floor; Floor];
                          [Floor; Floor; Floor]]) 0 in
  Game.check_combat_end g = Some g.
Proof.
  cbv zeta.
  destruct (X1_check_combat_end_exits
              (Game.mk true [Game.ThePlayer; Game.TheEnemy 0] 1 [] [] 10 ""
                 (Player.init 1 1 100)
                 [Enemy.mk Enemy.Basic 2 1 0 0 Enemy.Direct Effects.empty 0]
                 (Map.mk 3 3 [[Floor; Floor; Floor]; [Floor; Floor; Floor];
                              [Floor; Floor; Floor]]) 0))
    as (g' & Hrun & _ & _ & _ & Hsame).
  - discriminate.
  - rewrite Hrun, Hsame; [reflexivity|discriminate|reflexivity].
Defined.

(** X2.  [check_combat_end] cannot be called twice on the way out: once it
    has left combat mode it has emptied the turn order, and a second call
    made while the roster is still empty or the player still at 0 health
    raises [ZeroDivisionError] in [get_current_turn_number]. *)
Theorem X2_check_combat_end_twice (g g' : Game.t) :
  Game.check_combat_end g = Some g' ->
  Game.enemies g = [] \/ Player.health (Game.player g) <= 0 ->
  Game.check_combat_end g' = None.
Proof.
  unfold Game.check_combat_end at 1. intros Hrun Hexit.
  assert (Hout : exists g1 ev, Game.log_combat_event ev g = Some g1 /\
                               g' = Game.exit_combat g1).
  { destruct (Game.enemies g) as [|e roster].
    - destruct (Game.log_combat_event _ g) as [g1|] eqn:Hlog; [|discriminate].
      injection Hrun as <-. eauto.
    - destruct Hexit as [Hexit|Hexit]; [discriminate|].
      apply Z.leb_le in Hexit. rewrite Hexit in Hrun.
      destruct (Game.log_combat_event _ g) as [g1|] eqn:Hlog; [|discriminate].
      injection Hrun as <-. eauto. }
  destruct Hout as (g1 & ev & Hlog & ->).
  assert (Hkeep : Game.enemies g1 = Game.enemies g /\ Game.player g1 = Game.player g).
  { unfold Game.log_combat_event in Hlog.
    destruct (Game.get_current_turn_number g); [|discriminate].
    injection Hlog as <-. split; reflexivity. }
  destruct Hkeep as [Hen Hpl].
  unfold Game.check_combat_end.
  change (Game.enemies (Game.exit_combat g1)) with (Game.enemies g1).
  change (Game.player (Game.exit_combat g1)) with (Game.player g1).
  rewrite Hen, Hpl.
  destruct (Game.enemies g) as [|e roster]; [reflexivity|].
  destruct Hexit as [Hexit|Hexit]; [discriminate|].
  apply Z.leb_le in Hexit. rewrite Hexit. reflexivity.
Qed.

Lemma X2_check_combat_end_twice_witness :
  let g := Game.mk true [Game.ThePlayer] 0 [] [] 10 "" (Player.init 1 1 100) []
             (Map.mk 1 1 [[Floor]]) 0 in
  exists g', Game.check_combat_end g = Some g' /\ Game.check_combat_end g' = None.
Proof.
  cbv zeta. eexists. split; [reflexivity|].
  eapply (X2_check_combat_end_twice
            (Game.mk true [Game.ThePlayer] 0 [] [] 10 "" (Player.init 1 1 100) []
               (Map.mk 1 1 [[Floor]]) 0)).
  - reflexivity.
  - left. reflexivity.
Defined.

(** X3.  [log_combat_event], called while the turn order is not empty,
    keeps both logs bounded: a combat log of at most 20 entries stays at
    most 20 long and an activity log of at most [max_log_entries] entries
    stays at most that long; the newest combat entry is the last one and
    carries the turn number, and the event is the last entry of the activity
    log whenever that log may hold an entry at all. *)
Theorem X3_log_combat_event_bounded (event : string) (g : Game.t) :
  Game.turn_order g <> [] ->
  Z.of_nat (length (Game.combat_log g)) <= 20 ->
  0 <= Game.max_log_entries g ->
  Z.of_nat (length (Game.activity_log g)) <= Game.max_log_entries g ->
  exists g' n,
    Game.log_combat_event event g = Some g' /\
    Game.get_current_turn_number g = Some n /\
    Z.of_nat (length (Game.combat_log g')) <= 20 /\
    Z.of_nat (length (Game.activity_log g')) <= Game.max_log_entries g' /\
    last (Game.combat_log g') = Some ("Turn " ++ pretty n ++ ": " ++ event)%string /\
    (1 <= Game.max_log_entries g -> last (Game.activity_log g') = Some event).
Proof.
  intros Hne Hc Hmax Ha. unfold Game.log_combat_event.
  destruct (turn_number_total g Hne) as [n Hn]. rewrite Hn.
  cbn [mbind option_bind]. eexists _, n. split; [reflexivity|].
  split; [reflexivity|]. cbn.
  split; [apply append_capped_length; lia|].
  split; [apply append_capped_length; lia|].
  split; [apply append_capped_last; lia|].
  intros H1. apply append_capped_last. exact H1.
Qed.

Lemma X3_log_combat_event_bounded_witness :
  let g := Game.mk true [Game.ThePlayer; Game.TheEnemy 0] 3 [] ["a"; "b"]%string 2 ""
             (Player.init 1 1 100)
             [Enemy.mk Enemy.Basic 2 1 50 0 Enemy.Direct Effects.empty 0]
             (Map.mk 1 1 [[Floor]]) 0 in
  option_map (fun g' => (Game.combat_log g', Game.activity_log g'))
    (Game.log_combat_event "hit" g)
  = Some (["Turn 2: hit"], ["b"; "hit"])%string.
Proof.
  cbv zeta.
  destruct (X3_log_combat_event_bounded "hit"
              (Game.mk true [Game.ThePlayer; Game.TheEnemy 0] 3 [] ["a"; "b"]%string
                 2 "" (Player.init 1 1 100)
                 [Enemy.mk Enemy.Basic 2 1 50 0 Enemy.Direct Effects.empty 0]
                 (Map.mk 1 1 [[Floor]]) 0))
    as (g' & n & Hrun & _).
  - discriminate.
  - cbn. lia.
  - cbn. lia.
  - cbn. lia.
  - vm_compute. reflexivity.
Defined.

(** ** Cover *)

Section Cover.

Variable game_map : Map.t.
Hypothesis Hwf : Map.wf game_map.

Lemma is_blocked_stop tx ty :
  Map.is_blocked game_map tx ty = Some true ->
  Map.in_bounds game_map tx ty = false \/
  exists c, grid_get (Map.grid game_map) tx ty = Some c /\ cell_eqb c Wall = true.
Proof.
  unfold Map.is_blocked. destruct (Map.in_bounds game_map tx ty); [|auto].
  cbn. destruct (grid_get _ tx ty) as [c|]; [|discriminate].
  cbn. intros [= Hc]. eauto.
Qed.

Lemma rail_loop_wall damage x y dx dy j p q : forall st,
  Map.is_blocked game_map (x + dx * j) (y + dy * j) = Some true ->
  Shoot.rail_loop damage x y dx dy game_map (p ++ j :: q) st
  = Shoot.rail_loop damage x y dx dy game_map p st.
Proof.
  intros st Hj. revert st. induction p as [|i p IH]; intros st.
  - cbn [app Shoot.rail_loop].
    destruct (is_blocked_stop _ _ Hj) as [->|(c & -> & Hc)]; [reflexivity|].
    destruct (Map.in_bounds _ _ _); [|reflexivity]. cbn. rewrite Hc. reflexivity.
  - cbn [app Shoot.rail_loop].
    destruct (Map.in_bounds game_map (x + dx * i) (y + dy * i)); [|reflexivity].
    cbn [negb]. destruct (grid_get _ _ _) as [c|]; [|reflexivity].
    cbn. destruct (cell_eqb c Wall); [reflexivity|]. apply IH.
Qed.

Lemma pistol_loop_wall damage x y dx dy j p q : forall st,
  Map.is_blocked game_map (x + dx * j) (y + dy * j) = Some true ->
  Shoot.pistol_loop damage x y dx dy game_map (p ++ j :: q) st
  = Shoot.pistol_loop damage x y dx dy game_map p st.
Proof.
  intros st Hj. revert st. induction p as [|i p IH]; intros st.
  - cbn [app Shoot.pistol_loop].
    destruct (is_blocked_stop _ _ Hj) as [->|(c & -> & Hc)]; [reflexivity|].
    destruct (Map.in_bounds _ _ _); [|reflexivity]. cbn. rewrite Hc. reflexivity.
  - cbn [app Shoot.pistol_loop].
    destruct (Map.in_bounds game_map (x + dx * i) (y + dy * i)); [|reflexivity].
    cbn [negb]. destruct (grid_get _ _ _) as [c|]; [|reflexivity].
    cbn. destruct (cell_eqb c Wall); [reflexivity|].
    destruct (Shoot.hit_first _ _ _ _); [reflexivity|]. apply IH.
Qed.

Lemma hit_first_spares tx ty damage : forall roster roster',
  Shoot.hit_first tx ty damage roster = Some roster' ->
  spares (fun e => Shoot.at_cell tx ty e = false) roster roster'.
Proof.
  induction roster as [|e roster IH]; intros roster' Hhit; [discriminate|].
  cbn [Shoot.hit_first] in Hhit. destruct (Shoot.at_cell tx ty e) eqn:He.
  - injection Hhit as <-. constructor; [congruence|].
    apply Forall2_same_length_lookup_2; [reflexivity|]. intros; congruence.
  - destruct (Shoot.hit_first tx ty damage roster) as [rest|]; [|discriminate].
    injection Hhit as <-. constructor; [reflexivity|]. apply IH. reflexivity.
Qed.

Lemma spares_refl spared roster : spares spared roster roster.
Proof.
  apply Forall2_same_length_lookup_2; [reflexivity|]. intros; congruence.
Qed.

Lemma spares_weaken (P Q : Enemy.t -> Prop) roster roster' :
  (forall e, Q e -> P e) -> spares P roster roster' -> spares Q roster roster'.
Proof.
  intros HPQ H. eapply Forall2_impl; [exact H|]. cbn. auto.
Qed.

(** The pistol on any cells: it ends, and it hurt nobody, or the enemies on
    one cell of the list only. *)
Lemma pistol_loop_total damage x y dx dy p : forall st,
  exists st',
    Shoot.pistol_loop damage x y dx dy game_map p st = Some st' /\
    (Shoot.enemies st' = Shoot.enemies st \/
     exists i, i ∈ p /\
       Shoot.hit_first (x + dx * i) (y + dy * i) damage (Shoot.enemies st)
       = Some (Shoot.enemies st')).
Proof.
  induction p as [|i p IH]; intros st; [exists st; auto|].
  cbn [Shoot.pistol_loop].
  destruct (Map.in_bounds game_map (x + dx * i) (y + dy * i)) eqn:Hb;
    cbn [negb]; [|exists st; auto].
  destruct (grid_get_total game_map Hwf _ _ Hb) as [c Hc]. rewrite Hc. cbn.
  destruct (cell_eqb c Wall); [exists st; auto|].
  destruct (Shoot.hit_first _ _ _ (Shoot.enemies st)) as [roster'|] eqn:Hhit.
  - eexists. split; [reflexivity|]. right. exists i. split; [left|exact Hhit].
  - match goal with |- context [Shoot.pistol_loop _ _ _ _ _ _ p ?s] =>
      destruct (IH s) as (st' & Hrun & Hres) end.
    exists st'. split; [exact Hrun|].
    destruct Hres as [Hsame|(k & Hk & Hhit')]; [left; exact Hsame|].
    right. exists k. split; [right; exact Hk|exact Hhit'].
Qed.

Lemma rail_spares damage x y dir p roster :
  spares (fun e => forall i, i ∈ p ->
            Shoot.at_cell (x + fst dir * i) (y + snd dir * i) e = false)
    roster
    (fold_left (fun r i => Shoot.hit_all (x + fst dir * i) (y + snd dir * i) damage r)
       p roster).
Proof.
  rewrite hit_all_on. induction roster as [|e roster IH]; [constructor|].
  cbn [map]. constructor; [|exact IH].
  intros He. clear IH. induction p as [|i p IHp]; [reflexivity|].
  cbn [fold_left]. rewrite He by left. apply IHp.
  intros k Hk. apply He. right. exact Hk.
Qed.

End Cover.

(** X4.  A wall gives cover from the rail gun.  When the cell at distance
    [j] along the firing direction is a wall or lies outside the map, a
    rail gun that may fire does fire, and every enemy that does not stand on
    one of the [j - 1] cells before it is left exactly as it was: the
    piercing beam goes through enemies, never through a wall. *)
Theorem X4_wall_stops_rail (now : Q) (w : Weapon.t) (x y : Z)
    (direction : string) (game_map : Map.t) (roster : list Enemy.t) (j : Z) :
  Map.wf game_map ->
  Weapon.can_shoot now w = Some true ->
  1 <= j ->
  Map.is_blocked game_map (x + fst (Shoot.directions4 direction) * j)
    (y + snd (Shoot.directions4 direction) * j) = Some true ->
  exists b m' roster',
    Shoot.RailGun_shoot now w x y direction game_map roster
    = Some (b, Weapon.fired now w, m', roster') /\
    spares (off_stretch x y (Shoot.directions4 direction) j) roster roster'.
Proof.
  intros Hwf Hcan Hj Hwall.
  unfold Shoot.RailGun_shoot. rewrite Hcan. cbn [mbind option_bind negb].
  set (dir := Shoot.directions4 direction) in *.
  rewrite (surjective_pairing dir).
  change (Weapon.range (Weapon.fired now w)) with (Weapon.range w).
  change (Weapon.damage (Weapon.fired now w)) with (Weapon.damage w).
  set (D := Weapon.damage w). set (R := Weapon.range w).
  assert (Hcut : exists p, (forall i, i ∈ p -> 1 <= i < j) /\
            forall st,
              Shoot.rail_loop D x y (fst dir) (snd dir) game_map
                (Py.range 1 (R + 1)) st
              = Shoot.rail_loop D x y (fst dir) (snd dir) game_map p st).
  { destruct (Z_le_gt_dec j R) as [Hin|Hout].
    - exists (Py.range 1 j). split; [intros i Hi; apply elem_of_range in Hi; lia|].
      intros st. rewrite (range_app 1 j (R + 1)), (range_cons j (R + 1)) by lia.
      apply rail_loop_wall. exact Hwall.
    - exists (Py.range 1 (R + 1)). split; [|reflexivity].
      intros i Hi. apply elem_of_range in Hi. lia. }
  destruct Hcut as (p & Hp & ->).
  destruct (rail_loop_total game_map Hwf D x y dir p (Shoot.mk_beam [] [] roster 0))
    as (st' & p' & -> & Hsub & Hen).
  cbn [mbind option_bind].
  destruct (destroy_trees_total (Shoot.trees st') game_map Hwf) as [m' ->].
  cbn [mbind option_bind]. eexists _, m', _. split; [reflexivity|].
  rewrite Hen. cbn [Shoot.enemies].
  eapply spares_weaken; [|apply rail_spares].
  intros e He i Hi. apply He, Hp, Hsub, Hi.
Qed.

Lemma X4_wall_stops_rail_witness :
  let m := Map.mk 6 1 [[Floor; Floor; Floor; Wall; Floor; Floor]] in
  let front := Enemy.mk Enemy.Basic 2 0 50 0 Enemy.Direct Effects.empty 0 in
  let behind := Enemy.mk Enemy.Basic 4 0 50 0 Enemy.Direct Effects.empty 0 in
  option_map (fun res => map Enemy.health (snd res))
    (Shoot.RailGun_shoot 1 Weapon.RailGun 0 0 "right" m [behind; front])
  = Some [50; 5].
Proof.
  cbv zeta.
  destruct (X4_wall_stops_rail 1 Weapon.RailGun 0 0 "right"
              (Map.mk 6 1 [[Floor; Floor; Floor; Wall; Floor; Floor]])
              [Enemy.mk Enemy.Basic 4 0 50 0 Enemy.Direct Effects.empty 0;
               Enemy.mk Enemy.Basic 2 0 50 0 Enemy.Direct Effects.empty 0] 3)
    as (b & m' & roster' & Hshot & _).
  - split; [reflexivity | repeat constructor].
  - reflexivity.
  - lia.
  - reflexivity.
  - vm_compute. reflexivity.
Defined.

(** X5.  A wall gives cover from the laser pistol, in all of its eight
    directions.  When the cell at distance [j] along the firing direction is
    a wall or lies outside the map, a pistol that may fire does fire, and
    every enemy that does not stand on one of the [j - 1] cells before it is
    left exactly as it was. *)
Theorem X5_wall_stops_pistol (now : Q) (w : Weapon.t) (x y : Z)
    (direction : string) (game_map : Map.t) (roster : list Enemy.t) (j : Z) :
  Map.wf game_map ->
  Weapon.can_shoot now w = Some true ->
  1 <= j ->
  Map.is_blocked game_map (x + fst (Shoot.directions8 direction) * j)
    (y + snd (Shoot.directions8 direction) * j) = Some true ->
  exists b m' roster',
    Shoot.LaserPistol_shoot now w x y direction game_map roster
    = Some (b, Weapon.fired now w, m', roster') /\
    spares (off_stretch x y (Shoot.directions8 direction) j) roster roster'.
Proof.
  intros Hwf Hcan Hj Hwall.
  unfold Shoot.LaserPistol_shoot. rewrite Hcan. cbn [mbind option_bind negb].
  set (dir := Shoot.directions8 direction) in *.
  rewrite (surjective_pairing dir).
  change (Weapon.range (Weapon.fired now w)) with (Weapon.range w).
  change (Weapon.damage (Weapon.fired now w)) with (Weapon.damage w).
  set (D := Weapon.damage w). set (R := Weapon.range w).
  assert (Hcut : exists p, (forall i, i ∈ p -> 1 <= i < j) /\
            forall st,
              Shoot.pistol_loop D x y (fst dir) (snd dir) game_map
                (Py.range 1 (R + 1)) st
              = Shoot.pistol_loop D x y (fst dir) (snd dir) game_map p st).
  { destruct (Z_le_gt_dec j R) as [Hin|Hout].
    - exists (Py.range 1 j). split; [intros i Hi; apply elem_of_range in Hi; lia|].
      intros st. rewrite (range_app 1 j (R + 1)), (range_cons j (R + 1)) by lia.
      apply pistol_loop_wall. exact Hwall.
    - exists (Py.range 1 (R + 1)). split; [|reflexivity].
      intros i Hi. apply elem_of_range in Hi. lia. }
  destruct Hcut as (p & Hp & ->).
  destruct (pistol_loop_total game_map Hwf D x y (fst dir) (snd dir) p
              (Shoot.mk_beam [] [] roster 0)) as (st' & -> & Hres).
  cbn [mbind option_bind].
  destruct (destroy_trees_total (Shoot.trees st') game_map Hwf) as [m' ->].
  cbn [mbind option_bind]. eexists _, m', _. split; [reflexivity|].
  cbn [Shoot.enemies] in Hres. destruct Hres as [->|(i & Hi & Hhit)].
  - apply spares_refl.
  - eapply spares_weaken; [|apply (hit_first_spares _ _ _ _ _ Hhit)].
    intros e He. apply He, Hp, Hi.
Qed.

Lemma X5_wall_stops_pistol_witness :
  let m := Map.mk 4 4 [[Floor; Floor; Floor; Floor]; [Floor; Floor; Floor; Floor];
                       [Floor; Floor; Wall; Floor]; [Floor; Floor; Floor; Floor]] in
  let front := Enemy.mk Enemy.Basic 1 1 50 0 Enemy.Direct Effects.empty 0 in
  let behind := Enemy.mk Enemy.Basic 3 3 50 0 Enemy.Direct Effects.empty 0 in
  option_map (fun res => map Enemy.health (snd res))
    (Shoot.LaserPistol_shoot 1 Weapon.LaserPistol 0 0 "down_right" m
       [behind; front])
  = Some [50; 30].
Proof.
  cbv zeta.
  destruct (X5_wall_stops_pistol 1 Weapon.LaserPistol 0 0 "down_right"
              (Map.mk 4 4 [[Floor; Floor; Floor; Floor];
                           [Floor; Floor; Floor; Floor];
                           [Floor; Floor; Wall; Floor];
                           [Floor; Floor; Floor; Floor]])
              [Enemy.mk Enemy.Basic 3 3 50 0 Enemy.Direct Effects.empty 0;
               Enemy.mk Enemy.Basic 1 1 50 0 Enemy.Direct Effects.empty 0] 2)
    as (b & m' & roster' & Hshot & _).
  - split; [reflexivity | repeat constructor].
  - reflexivity.
  - lia.
  - reflexivity.
  - vm_compute. reflexivity.
Defined.

(** ** Terrain *)

Section Terrain.

Variable m : Map.t.
Hypothesis Hwf : Map.wf m.

Lemma is_blocked_same_except m' x y :
  same_except m m' x y ->
  (Map.in_bounds m x y = true ->
   exists c c', grid_get (Map.grid m) x y = Some c /\
                grid_get (Map.grid m') x y = Some c' /\
                cell_eqb c Wall = cell_eqb c' Wall) ->
  forall x' y', Map.is_blocked m' x' y' = Map.is_blocked m x' y'.
Proof.
  intros (Hw & Hh & _ & Hother) Hcell x' y'. unfold Map.is_blocked.
  assert (Hb : Map.in_bounds m' x' y' = Map.in_bounds m x' y')
    by (unfold Map.in_bounds; rewrite Hw, Hh; reflexivity).
  rewrite Hb. destruct (Map.in_bounds m x' y') eqn:Hin; [|reflexivity].
  cbn [negb]. pose proof Hin as Hin'. apply in_bounds_spec in Hin' as [Hx Hy].
  destruct (decide ((x', y') = (x, y))) as [Heq|Hne].
  - injection Heq as -> ->. destruct (Hcell Hin) as (c & c' & -> & -> & Hcc).
    cbn. congruence.
  - rewrite (Hother x' y') by (lia || exact Hne). reflexivity.
Qed.

Lemma consume_keeps_walls (consumable : cell -> bool)
    (op : Map.t -> Z -> Z -> option (option cell * Map.t)) x y :
  consumes_once consumable op m x y -> consumable Wall = false ->
  exists r m', op m x y = Some (r, m') /\
    forall x' y', Map.is_blocked m' x' y' = Map.is_blocked m x' y'.
Proof.
  intros (r & m' & Hcall & Hsame & Hsome & Hnone & _) HW.
  exists r, m'. split; [exact Hcall|].
  destruct r as [c|].
  - destruct (Hsome c eq_refl) as (Hc & Hb & Hget & Hget').
    apply (is_blocked_same_except m' x y Hsame). intros _.
    exists c, Floor. repeat split; try assumption.
    destruct c; try reflexivity. congruence.
  - rewrite (Hnone eq_refl). reflexivity.
Qed.

End Terrain.

(** X6.  Consuming never moves a wall.  On a rectangular map,
    [collect_item] and [destroy_terrain] both succeed at any coordinates,
    in or out of bounds, and after either of them [is_blocked] answers at
    every cell what it answered before: a pickup or a tree only ever turns
    into floor, so no call opens or closes a passage. *)
Theorem X6_consume_keeps_walls (m : Map.t) (x y : Z) :
  Map.wf m ->
  exists r1 m1 r2 m2,
    Map.collect_item m x y = Some (r1, m1) /\
    Map.destroy_terrain m x y = Some (r2, m2) /\
    forall x' y',
      Map.is_blocked m1 x' y' = Map.is_blocked m x' y' /\
      Map.is_blocked m2 x' y' = Map.is_blocked m x' y'.
Proof.
  intros Hwf.
  destruct (consume_keeps_walls m is_pickup Map.collect_item x y
              (consumes_once_gen is_pickup Map.collect_item collect_item_unfold
                 eq_refl m x y Hwf) eq_refl) as (r1 & m1 & H1 & Hb1).
  destruct (consume_keeps_walls m is_tree Map.destroy_terrain x y
              (consumes_once_gen is_tree Map.destroy_terrain destroy_terrain_unfold
                 eq_refl m x y Hwf) eq_refl) as (r2 & m2 & H2 & Hb2).
  exists r1, m1, r2, m2. repeat split; auto.
Qed.

Lemma X6_consume_keeps_walls_witness :
  let m := Map.mk 3 1 [[HealthPickup; Trees; Wall]] in
  exists r1 m1 r2 m2,
    Map.collect_item m 0 0 = Some (r1, m1) /\
    Map.destroy_terrain m 0 0 = Some (r2, m2) /\
    forall x' y',
      Map.is_blocked m1 x' y' = Map.is_blocked m x' y' /\
      Map.is_blocked m2 x' y' = Map.is_blocked m x' y'.
Proof.
  cbv zeta. apply (X6_consume_keeps_walls (Map.mk 3 1 [[HealthPickup; Trees; Wall]])).
  split; [reflexivity | repeat constructor].
Defined.

(** X7.  On a rectangular map the three terrain queries answer at every
    coordinate, in or out of bounds, without an index error.  The movement
    multiplier lies between 0.3 and 1 and the entry damage between 0 and 15;
    a blocked cell (a wall, or any cell outside the map) neither hurts nor
    slows; and every cell that hurts (lava, spikes) also slows. *)
Theorem X7_terrain_queries_bounded (m : Map.t) (x y : Z) :
  Map.wf m ->
  exists blocked effect damage,
    Map.is_blocked m x y = Some blocked /\
    Map.get_terrain_effect m x y = Some effect /\
    Map.get_terrain_damage m x y = Some damage /\
    (0.3 <= effect <= 1)%Q /\ 0 <= damage <= 15 /\
    (blocked = true -> effect = 1%Q /\ damage = 0) /\
    (0 < damage -> (effect < 1)%Q).
Proof.
  intros Hwf.
  unfold Map.is_blocked, Map.get_terrain_effect, Map.get_terrain_damage.
  destruct (Map.in_bounds m x y) eqn:Hb; cbn [negb].
  - destruct (grid_get_total m Hwf x y Hb) as [c ->]. cbn [mbind option_bind].
    eexists _, _, _. repeat split; try reflexivity;
      destruct c; cbn; try lia; try lra; try discriminate; try reflexivity.
  - eexists _, _, _. repeat split; try reflexivity; try lia; try lra.
Qed.

Lemma X7_terrain_queries_bounded_witness :
  let m := Map.mk 3 1 [[Lava; Wall; Water]] in
  (Map.get_terrain_effect m 0 0, Map.get_terrain_damage m 0 0)
    = (Some 0.4%Q, Some 15) /\
  (Map.is_blocked m 1 0, Map.get_terrain_damage m 1 0) = (Some true, Some 0).
Proof.
  cbv zeta.
  destruct (X7_terrain_queries_bounded (Map.mk 3 1 [[Lava; Wall; Water]]) 0 0)
    as (b & e & d & _); [split; [reflexivity | repeat constructor]|].
  split; reflexivity.
Defined.

(** ** The move of the player *)

(** X8.  [Player.move] is all or nothing.  On a rectangular map it never
    fails; when it answers [False] the player, the map and the weapons are
    what they were.  When it answers [True] the player stands exactly
    [(dx, dy)] further, on a cell that was not blocked and held no enemy;
    the map differs from the old one at most at that cell, which no longer
    holds a pickup; and the loadout has as many weapons as before. *)
Theorem X8_player_move_all_or_nothing {E : Type} `{HasPos E} (dx dy : Z)
    (game_map : Map.t) (weapons : list Weapon.t) (enemies : list E)
    (p : Player.t) (r : Random.t) :
  Map.wf game_map ->
  exists moved p' m' ws' r',
    Player.move dx dy game_map weapons enemies p r
    = Some (moved, p', m', ws', r') /\
    (moved = false -> p' = p /\ m' = game_map /\ ws' = weapons) /\
    (moved = true ->
       Player.x p' = Player.x p + dx /\ Player.y p' = Player.y p + dy /\
       Map.is_blocked game_map (Player.x p') (Player.y p') = Some false /\
       Forall (fun e => ~ (pos_x e = Player.x p' /\ pos_y e = Player.y p')) enemies /\
       same_except game_map m' (Player.x p') (Player.y p') /\
       forall c, grid_get (Map.grid m') (Player.x p') (Player.y p') = Some c ->
                 is_pickup c = false) /\
    length ws' = length weapons.
Proof.
  intros Hwf. unfold Player.move.
  destruct (Effects.can_act (Player.fx p) r) as [ok r1].
  destruct ok; cbn [negb]; [|eexists _, _, _, _, _; repeat split; discriminate].
  set (nx := Player.x p + dx). set (ny := Player.y p + dy).
  destruct (Map.is_blocked game_map nx ny) as [[|]|] eqn:Hblocked;
    cbn [mbind option_bind].
  - eexists _, _, _, _, _; repeat split; discriminate.
  - destruct (existsb _ enemies) eqn:Hocc;
      [eexists _, _, _, _, _; repeat split; discriminate|].
    destruct (is_blocked_clear game_map nx ny Hblocked) as (Hb & c & Hc & Hw).
    unfold Map.get_terrain_damage, Map.get_terrain_effect.
    rewrite Hb, Hc. cbn [negb mbind option_bind].
    destruct (consumes_once_gen is_pickup Map.collect_item collect_item_unfold
                eq_refl game_map nx ny Hwf)
      as (res & m' & Hcall & Hsame & Hsome & Hnone & _).
    rewrite Hcall. cbn [mbind option_bind fst snd].
    assert (Hfree : Forall (fun e => ~ (pos_x e = nx /\ pos_y e = ny)) enemies).
    { apply Forall_forall. intros e He [Hx Hy].
      assert (existsb (fun e => (pos_x e =? nx) && (pos_y e =? ny)) enemies = true).
      { apply existsb_exists. exists e. split; [apply list_elem_of_In, He|].
        rewrite Hx, Hy, !Z.eqb_refl. reflexivity. }
      congruence. }
    assert (Hgone : forall c', grid_get (Map.grid m') nx ny = Some c' ->
                               is_pickup c' = false).
    { intros c' Hc'. destruct res as [item|].
      - destruct (Hsome item eq_refl) as (_ & _ & _ & Hfloor).
        rewrite Hfloor in Hc'. injection Hc' as <-. reflexivity.
      - rewrite (Hnone eq_refl), Hc in Hc'. injection Hc' as <-.
        rewrite collect_item_unfold, Hb in Hcall. cbn in Hcall.
        rewrite Hc in Hcall. cbn in Hcall.
        destruct (is_pickup c); [|reflexivity].
        destruct (grid_set _ _ _ _); discriminate. }
    destruct res as [[]|];
      eexists _, _, _, _, _; (split; [reflexivity|]);
      (split; [discriminate|]);
      (split; [intros _; split; [reflexivity|]; split; [reflexivity|];
               split; [exact Hblocked|]; split; [exact Hfree|];
               split; [exact Hsame|exact Hgone]|]);
      rewrite ?length_map; reflexivity.
  - destruct (Map.in_bounds game_map nx ny) eqn:Hb.
    + destruct (grid_get_total game_map Hwf nx ny Hb) as [c Hc].
      unfold Map.is_blocked in Hblocked. rewrite Hb, Hc in Hblocked. discriminate.
    + unfold Map.is_blocked in Hblocked. rewrite Hb in Hblocked. discriminate.
Qed.

Lemma X8_player_move_all_or_nothing_witness :
  let m := Map.mk 3 1 [[Floor; HealthPickup; Wall]] in
  let p := Player.take_damage 30 false (Player.init 0 0 100) in
  option_map (fun res => let '(moved, p', m', _, _) := res in
                         (moved, Player.x p', Player.health p', Map.grid m'))
    (Player.move 1 0 m [Weapon.LaserPistol] [(2, 0)] p (const_rng 0))
  = Some (true, 1, 90, [[Floor; Floor; Wall]]).
Proof.
  cbv zeta.
  destruct (X8_player_move_all_or_nothing 1 0
              (Map.mk 3 1 [[Floor; HealthPickup; Wall]]) [Weapon.LaserPistol]
              [(2, 0)] (Player.take_damage 30 false (Player.init 0 0 100))
              (const_rng 0))
    as (moved & p' & m' & ws' & r' & Hmove & _).
  - split; [reflexivity | repeat constructor].
  - vm_compute. reflexivity.
Defined.

(** ** The moves of the enemies *)

Section EnemyMoves.

Context {P : Type} `{HasPos P}.
Variable game_map : Map.t.
Variable player : P.
Variable i : nat.

Lemma would_collide_false nx ny roster :
  Enemy.would_collide_with_enemy i nx ny roster = false ->
  forall j other, j <> i -> roster !! j = Some other ->
    ~ (Enemy.x other = nx /\ Enemy.y other = ny).
Proof.
  unfold Enemy.would_collide_with_enemy. intros Hfree j other Hj Hother [Hx Hy].
  assert (Hin : existsb (fun je => negb (Nat.eqb (fst je) i)
                           && (Enemy.x (snd je) =? nx) && (Enemy.y (snd je) =? ny))
                  (imap (fun j e => (j, e)) roster) = true).
  { apply existsb_exists. exists (j, other). split.
    - apply list_elem_of_In, elem_of_lookup_imap. exists j, other. auto.
    - cbn [fst snd]. rewrite Hx, Hy, !Z.eqb_refl.
      destruct (Nat.eqb_spec j i); [contradiction|reflexivity]. }
  congruence.
Qed.

Lemma take_damage_le d e :
  0 <= d -> Enemy.health (Enemy.take_damage d false e) <= Enemy.health e.
Proof.
  intros Hd. unfold Enemy.take_damage.
  pose proof (int_mul_07_nonneg d Hd).
  destruct (Effects.protected (Enemy.fx e)); cbn; lia.
Qed.

(** One guarded step towards a neighbouring cell. *)
Lemma try_step_safe nx ny roster e s :
  Enemy.try_step i nx ny game_map player roster e = Some s ->
  Z.abs (nx - Enemy.x e) + Z.abs (ny - Enemy.y e) = 1 ->
  safe_step i game_map player roster e (default e s).
Proof.
  unfold Enemy.try_step. intros Hstep Hadj.
  destruct (Map.is_blocked game_map nx ny) as [blocked|] eqn:Hb; [|discriminate].
  cbn [mbind option_bind] in Hstep.
  destruct (negb blocked && _ && _) eqn:Hok.
  2:{ injection Hstep as <-. cbn [default from_option id].
      split; [lia|left; auto]. }
  apply andb_true_iff in Hok as [Hok Hfree].
  apply andb_true_iff in Hok as [Hopen Hplayer].
  apply negb_true_iff in Hopen, Hplayer, Hfree. subst blocked.
  unfold Map.get_terrain_damage in Hstep.
  destruct (Map.in_bounds game_map nx ny) eqn:Hin;
    [|unfold Map.is_blocked in Hb; rewrite Hin in Hb; discriminate].
  cbn [negb] in Hstep.
  destruct (grid_get (Map.grid game_map) nx ny) as [c|]; [|discriminate].
  cbn [mbind option_bind] in Hstep. injection Hstep as <-.
  cbn [default from_option id].
  assert (Hhealth : Enemy.health
            (Enemy.with_pos nx ny
               (if 0 <? match c with Lava => 15 | Spikes => 8 | _ => 0 end
                then Enemy.take_damage
                       match c with Lava => 15 | Spikes => 8 | _ => 0 end false e
                else e)) <= Enemy.health e).
  { destruct (0 <? _); [|cbn; lia].
    change (Enemy.health (Enemy.with_pos nx ny ?a)) with (Enemy.health a).
    apply take_damage_le. destruct c; lia. }
  split; [exact Hhealth|]. right.
  change (Enemy.x (Enemy.with_pos nx ny ?a)) with nx.
  change (Enemy.y (Enemy.with_pos nx ny ?a)) with ny.
  split; [exact Hadj|]. split; [exact Hb|]. split.
  - intros [Hx Hy]. rewrite Hx, Hy, !Z.eqb_refl in Hplayer. discriminate.
  - apply would_collide_false. exact Hfree.
Qed.

Lemma safe_step_stay roster e : safe_step i game_map player roster e e.
Proof. split; [lia|left; auto]. Qed.

Lemma sign_step_unit d : Z.abs (Enemy.sign_step d) = 1.
Proof. unfold Enemy.sign_step. destruct (0 <? d); reflexivity. Qed.

Ltac adjacent :=
  repeat match goal with
         | |- context [Enemy.sign_step ?d] =>
             let Hs := fresh "Hs" in
             pose proof (sign_step_unit d) as Hs;
             generalize dependent (Enemy.sign_step d); intros
         end; lia.

Lemma direct_move_safe dx dy roster e e' :
  Enemy.direct_move i dx dy game_map player roster e = Some e' ->
  safe_step i game_map player roster e e'.
Proof.
  unfold Enemy.direct_move. intros Hmove.
  destruct (Z.abs dy <? Z.abs dx);
    apply bind_Some in Hmove as (s & Hs & Hmove);
    (destruct s as [e1|];
     [injection Hmove as <-;
      apply (try_step_safe _ _ _ _ (Some e1) Hs); adjacent|]);
    apply bind_Some in Hmove as (s' & Hs' & Hmove); injection Hmove as <-;
    apply (try_step_safe _ _ _ _ s' Hs'); adjacent.
Qed.

Lemma flanking_move_safe dx dy roster e r e' r' :
  Enemy.flanking_move i dx dy game_map player roster e r = Some (e', r') ->
  safe_step i game_map player roster e e'.
Proof.
  unfold Enemy.flanking_move. intros Hmove.
  destruct (Random.random r) as [u r1].
  apply bind_Some in Hmove as (s & Hs & Hmove).
  destruct s as [e1|].
  - injection Hmove as <- <-.
    destruct (Z.abs dy <? Z.abs dx);
      apply (try_step_safe _ _ _ _ (Some e1) Hs);
      destruct (Qle_bool u 0.5); lia.
  - apply bind_Some in Hmove as (e1 & He1 & Hmove). injection Hmove as <- <-.
    apply (direct_move_safe _ _ _ _ _ He1).
Qed.

Lemma circling_move_safe dx dy roster e e' :
  Enemy.circling_move i dx dy game_map player roster e = Some e' ->
  safe_step i game_map player roster e e'.
Proof.
  unfold Enemy.circling_move. intros Hmove.
  apply bind_Some in Hmove as (s & Hs & Hmove).
  destruct s as [e1|].
  - injection Hmove as <-.
    destruct (Z.abs dy <? Z.abs dx);
      apply (try_step_safe _ _ _ _ (Some e1) Hs);
      destruct (_ =? 0); lia.
  - apply (direct_move_safe _ _ _ _ _ Hmove).
Qed.

Lemma retreat_safe dx dy roster e e' :
  Enemy.retreat i dx dy game_map player roster e = Some e' ->
  safe_step i game_map player roster e e'.
Proof.
  unfold Enemy.retreat. intros Hmove.
  apply bind_Some in Hmove as (s & Hs & Hmove). injection Hmove as <-.
  destruct (Z.abs dy <? Z.abs dx);
    apply (try_step_safe _ _ _ _ s Hs); adjacent.
Qed.

Lemma safe_step_fields roster e e1 e2 :
  Enemy.x e2 = Enemy.x e1 -> Enemy.y e2 = Enemy.y e1 ->
  Enemy.health e2 = Enemy.health e1 ->
  safe_step i game_map player roster e e1 ->
  safe_step i game_map player roster e e2.
Proof. unfold safe_step. intros -> -> ->. auto. Qed.

Lemma bystanders_refl roster : bystanders i roster roster.
Proof.
  split; [reflexivity|]. intros j other _ Hother.
  exists other. repeat split; [exact Hother|lia].
Qed.

Lemma bystanders_insert roster roster1 e' :
  bystanders i roster roster1 -> bystanders i roster (<[i := e']> roster1).
Proof.
  intros [Hlen Hrest]. split; [rewrite length_insert; exact Hlen|].
  intros j other Hj Hother. rewrite list_lookup_insert_ne by congruence.
  apply Hrest; assumption.
Qed.

Lemma bystanders_healed roster self :
  bystanders i roster (fst (Enemy.try_heal_allies i roster self)).
Proof.
  unfold Enemy.try_heal_allies. cbn [fst].
  split; [apply length_imap|]. intros j other Hj Hother.
  rewrite list_lookup_imap, Hother. cbn [fmap option_fmap option_map].
  eexists. split; [reflexivity|].
  destruct (_ && _ && (Enemy.health other <? 50)) eqn:Hneeds; [|repeat split; lia].
  apply andb_true_iff in Hneeds as [_ Hlow]. apply Z.ltb_lt in Hlow.
  unfold Enemy.heal_ally. cbn. repeat split; lia.
Qed.

Lemma safe_step_transfer roster roster1 self self1 e' :
  bystanders i roster roster1 ->
  Enemy.x self1 = Enemy.x self -> Enemy.y self1 = Enemy.y self ->
  Enemy.health self1 = Enemy.health self ->
  safe_step i game_map player roster1 self1 e' ->
  safe_step i game_map player roster self e'.
Proof.
  unfold safe_step. intros [_ Hrest] -> -> -> [Hle Hstep].
  split; [exact Hle|]. destruct Hstep as [Hstay|(Hadj & Hopen & Hpl & Hfree)];
    [left; exact Hstay|right].
  repeat split; try assumption. intros j other Hj Hother.
  destruct (Hrest j other Hj Hother) as (other' & Hother' & <- & <- & _).
  apply (Hfree j other' Hj Hother').
Qed.

(** Past the two gates, whatever the class does. *)
Lemma act_safe dx dy roster self r roster' r' :
  roster !! i = Some self ->
  Enemy.act i dx dy game_map player roster self r = Some (roster', r') ->
  (exists e', roster' !! i = Some e' /\
              safe_step i game_map player roster self e') /\
  bystanders i roster roster'.
Proof.
  intros Hi Hact. apply lookup_lt_Some in Hi.
  assert (Hout : forall e1 e2,
            safe_step i game_map player roster self e1 ->
            Enemy.x e2 = Enemy.x e1 -> Enemy.y e2 = Enemy.y e1 ->
            Enemy.health e2 = Enemy.health e1 ->
            (exists e', <[i := e2]> roster !! i = Some e' /\
                        safe_step i game_map player roster self e') /\
            bystanders i roster (<[i := e2]> roster)).
  { intros e1 e2 Hsafe Hx Hy Hh. split.
    - exists e2. split; [apply list_lookup_insert_eq; exact Hi|].
      apply (safe_step_fields roster self e1 e2 Hx Hy Hh Hsafe).
    - apply bystanders_insert, bystanders_refl. }
  unfold Enemy.act in Hact. destruct (Enemy.kind self) eqn:Hk; cbn [Enemy.speed] in Hact.
  - apply bind_Some in Hact as ([e1 r1] & Hmv & Hact). cbn [fst snd] in Hact.
    destruct (Random.random r1) as [u r2].
    apply bind_Some in Hact as ([e2 r3] & Hre & Hact).
    apply bind_Some in Hact as ([cd r4] & Hcd & Hact).
    cbn [fst snd] in Hact. injection Hact as <- <-.
    assert (Hsafe : safe_step i game_map player roster self e1).
    { destruct (Enemy.strat self).
      - apply bind_Some in Hmv as (e & He & Hmv). injection Hmv as <- <-.
        apply (direct_move_safe _ _ _ _ _ He).
      - apply (flanking_move_safe _ _ _ _ _ _ _ Hmv).
      - apply bind_Some in Hmv as (e & He & Hmv). injection Hmv as <- <-.
        apply (circling_move_safe _ _ _ _ _ He). }
    apply (Hout e1); [exact Hsafe| | |];
      (destruct (negb _);
       [apply bind_Some in Hre as ([c r5] & _ & Hre)|];
       injection Hre as <- <-; reflexivity).
  - apply bind_Some in Hact as (e1 & He1 & Hact). cbn in Hact.
    injection Hact as <- <-.
    apply (Hout e1); [apply (direct_move_safe _ _ _ _ _ He1)| | |]; reflexivity.
  - apply bind_Some in Hact as (e1 & He1 & Hact). cbn in Hact.
    injection Hact as <- <-.
    apply (Hout e1); [apply (circling_move_safe _ _ _ _ _ He1)| | |]; reflexivity.
  - apply bind_Some in Hact as ([e1 r1] & Hmv & Hact). cbn in Hact.
    injection Hact as <- <-.
    apply (Hout e1); [| | |]; try reflexivity.
    destruct (_ <? Enemy.preferred_distance).
    + apply bind_Some in Hmv as (e & He & Hmv). injection Hmv as <- <-.
      apply (retreat_safe _ _ _ _ _ He).
    + apply (flanking_move_safe _ _ _ _ _ _ _ Hmv).
  - destruct (if _ : bool then Enemy.try_heal_allies i roster self else (roster, self))
      as [roster1 self1] eqn:Hheal.
    assert (Hby : bystanders i roster roster1 /\
                  Enemy.x self1 = Enemy.x self /\ Enemy.y self1 = Enemy.y self /\
                  Enemy.health self1 = Enemy.health self /\
                  Enemy.kind self1 = Enemy.Healer).
    { destruct (_ && _).
      - pose proof (bystanders_healed roster self) as Hb.
        rewrite Hheal in Hb. split; [exact Hb|].
        unfold Enemy.try_heal_allies in Hheal. injection Hheal as _ <-.
        destruct (existsb _ _); repeat split; exact Hk.
      - injection Hheal as <- <-.
        split; [apply bystanders_refl|repeat split; exact Hk]. }
    destruct Hby as (Hby & Hx & Hy & Hh & Hk1).
    apply bind_Some in Hact as ([e1 r1] & Hmv & Hact).
    rewrite Hk1 in Hact. cbn in Hact.
    injection Hact as <- <-. split.
    + eexists. split; [apply list_lookup_insert_eq; destruct Hby as [-> _]; exact Hi|].
      eapply safe_step_fields; [| | |
        apply (safe_step_transfer roster roster1 self self1 e1 Hby Hx Hy Hh),
              (flanking_move_safe _ _ _ _ _ _ _ Hmv)]; reflexivity.
    + apply bystanders_insert, Hby.
  - apply bind_Some in Hact as ([e1 r1] & Hmv & Hact). cbn in Hact.
    injection Hact as <- <-.
    apply (Hout e1); [| | |]; try reflexivity.
    destruct (_ <=? Enemy.detection_range).
    + apply (flanking_move_safe _ _ _ _ _ _ _ Hmv).
    + destruct (Random.random r) as [u r2]. destruct (negb _).
      * apply bind_Some in Hmv as (e & He & Hmv). injection Hmv as <- <-.
        apply (direct_move_safe _ _ _ _ _ He).
      * injection Hmv as <- <-. apply safe_step_stay.
Qed.

End EnemyMoves.

Section EnemyTick.

Context {P : Type} `{HasPos P}.
Variable game_map : Map.t.
Hypothesis Hwf : Map.wf game_map.
Variable player : P.

Lemma move_towards_safe i target_x target_y roster r self :
  roster !! i = Some self ->
  exists roster' r' e',
    Enemy.move_towards i target_x target_y game_map player roster r
      = Some (roster', r') /\
    roster' !! i = Some e' /\
    safe_step i game_map player roster self e' /\
    bystanders i roster roster'.
Proof.
  intros Hi. unfold Enemy.move_towards. rewrite Hi. cbn [mbind option_bind].
  destruct (Effects.can_act (Enemy.fx self) r) as [ok r1].
  destruct ok; cbn [negb].
  2:{ exists roster, r1, self. split; [reflexivity|]. split; [exact Hi|].
      split; [apply safe_step_stay|apply bystanders_refl]. }
  destruct (0 <? Enemy.move_cooldown self).
  { eexists _, r1, _. split; [reflexivity|].
    split; [apply list_lookup_insert_eq; apply lookup_lt_Some in Hi; exact Hi|].
    split; [|apply bystanders_insert, bystanders_refl].
    eapply safe_step_fields; [| | |apply safe_step_stay]; reflexivity. }
  destruct (act_outcome game_map Hwf player i (target_x - Enemy.x self)
              (target_y - Enemy.y self) roster self r1 Hi)
    as (roster' & r' & Hact & _).
  destruct (act_safe game_map player i _ _ roster self r1 roster' r' Hi Hact)
    as ((e' & He' & Hsafe) & Hby).
  exists roster', r', e'. auto.
Qed.

End EnemyTick.

(** X9.  No enemy ever walks into anything.  On a rectangular map,
    [move_towards] of any class, for the enemy at index [i] of the roster,
    runs to its end; the enemy either stays on its cell, unhurt, or goes one
    cell up, down, left or right to a cell that is not blocked, that the
    player does not stand on and that no other enemy stands on, losing no
    more health than the terrain takes; nobody joins or leaves the roster,
    no other enemy moves, and no other enemy loses health. *)
Theorem X9_enemy_move_is_safe {P : Type} `{HasPos P} (i : nat)
    (target_x target_y : Z) (game_map : Map.t) (player : P)
    (roster : list Enemy.t) (r : Random.t) (self : Enemy.t) :
  Map.wf game_map -> roster !! i = Some self ->
  exists roster' r' e',
    Enemy.move_towards i target_x target_y game_map player roster r
      = Some (roster', r') /\
    roster' !! i = Some e' /\
    safe_step i game_map player roster self e' /\
    bystanders i roster roster'.
Proof. intros Hwf Hi. apply move_towards_safe; assumption. Qed.

Lemma X9_enemy_move_is_safe_witness :
  let m := Map.mk 3 3 [[Floor; Lava; Floor]; [Floor; Wall; Floor];
                       [Floor; Floor; Floor]] in
  let fast := Enemy.mk Enemy.Fast 0 0 30 0 Enemy.Direct Effects.empty 0 in
  let tank := Enemy.mk Enemy.Tank 0 1 150 0 Enemy.Circling Effects.empty 0 in
  option_map (fun res => map (fun e => (Enemy.x e, Enemy.y e, Enemy.health e))
                             (fst res))
    (Enemy.move_towards 0 2 1 m (2, 1) [fast; tank] (const_rng 0))
  = Some [(1, 0, 15); (0, 1, 150)].
Proof.
  cbv zeta.
  destruct (X9_enemy_move_is_safe 0 2 1
              (Map.mk 3 3 [[Floor; Lava; Floor]; [Floor; Wall; Floor];
                           [Floor; Floor; Floor]])
              (2, 1)
              [Enemy.mk Enemy.Fast 0 0 30 0 Enemy.Direct Effects.empty 0;
               Enemy.mk Enemy.Tank 0 1 150 0 Enemy.Circling Effects.empty 0]
              (const_rng 0)
              (Enemy.mk Enemy.Fast 0 0 30 0 Enemy.Direct Effects.empty 0))
    as (roster' & r' & e' & Hmove & _).
  - split; [reflexivity | repeat constructor].
  - reflexivity.
  - vm_compute. reflexivity.
Defined.

(** X10.  The enemy moves keep the roster well placed.  If every enemy
    stands on an open cell off the player and no two enemies share a cell,
    then after [move_towards] of any one of them, on a rectangular map, the
    same holds of the roster it leaves. *)
Theorem X10_enemy_moves_keep_roster_well_placed {P : Type} `{HasPos P}
    (i : nat) (target_x target_y : Z) (game_map : Map.t) (player : P)
    (roster : list Enemy.t) (r : Random.t) :
  Map.wf game_map -> (i < length roster)%nat ->
  well_placed game_map player roster ->
  exists roster' r',
    Enemy.move_towards i target_x target_y game_map player roster r
      = Some (roster', r') /\
    well_placed game_map player roster'.
Proof.
  intros Hwf Hi Hplaced.
  destruct (lookup_lt_is_Some_2 roster i Hi) as [self Hself].
  destruct (move_towards_safe game_map Hwf player i target_x target_y roster r
              self Hself) as (roster' & r' & e' & Hmove & He' & Hsafe & Hlen & Hby).
  exists roster', r'. split; [exact Hmove|].
  assert (Hback : forall j e1, j <> i -> roster' !! j = Some e1 ->
            exists e0, roster !! j = Some e0 /\ Enemy.x e1 = Enemy.x e0 /\
                       Enemy.y e1 = Enemy.y e0).
  { intros j e1 Hj He1.
    assert (Hlt : (j < length roster)%nat)
      by (rewrite <- Hlen; apply lookup_lt_Some in He1; exact He1).
    destruct (lookup_lt_is_Some_2 roster j Hlt) as [e0 He0].
    destruct (Hby j e0 Hj He0) as (e1' & He1' & Hx & Hy & _).
    exists e0. rewrite He1 in He1'. injection He1' as <-. auto. }
  assert (Hown : Map.is_blocked game_map (Enemy.x e') (Enemy.y e') = Some false /\
            ~ (Enemy.x e' = pos_x player /\ Enemy.y e' = pos_y player) /\
            forall k other, k <> i -> roster !! k = Some other ->
              ~ (Enemy.x other = Enemy.x e' /\ Enemy.y other = Enemy.y e')).
  { destruct Hsafe as [_ [(Hx & Hy & _)|(_ & Hopen & Hpl & Hfree)]].
    - rewrite Hx, Hy. apply (Hplaced i self Hself).
    - auto. }
  destruct Hown as (Hopen & Hpl & Hfree).
  intros j e1 He1. destruct (decide (j = i)) as [->|Hj].
  - rewrite He' in He1. injection He1 as <-.
    split; [exact Hopen|]. split; [exact Hpl|].
    intros k other Hk Hother.
    destruct (Hback k other Hk Hother) as (e0 & He0 & -> & ->).
    apply (Hfree k e0 Hk He0).
  - destruct (Hback j e1 Hj He1) as (e0 & He0 & Hx & Hy). rewrite Hx, Hy.
    destruct (Hplaced j e0 He0) as (Hopen0 & Hpl0 & Hfree0).
    split; [exact Hopen0|]. split; [exact Hpl0|].
    intros k other Hk Hother. destruct (decide (k = i)) as [->|Hki].
    + rewrite He' in Hother. injection Hother as <-.
      intros [Hx' Hy']. apply (Hfree j e0 Hj He0). auto.
    + destruct (Hback k other Hki Hother) as (o0 & Ho0 & -> & ->).
      apply (Hfree0 k o0 Hk Ho0).
Qed.

Lemma X10_enemy_moves_keep_roster_well_placed_witness :
  let m := Map.mk 3 3 [[Floor; Lava; Floor]; [Floor; Wall; Floor];
                       [Floor; Floor; Floor]] in
  let fast := Enemy.mk Enemy.Fast 0 0 30 0 Enemy.Direct Effects.empty 0 in
  let tank := Enemy.mk Enemy.Tank 0 1 150 0 Enemy.Circling Effects.empty 0 in
  exists roster' r',
    Enemy.move_towards 0 2 1 m (2, 1) [fast; tank] (const_rng 0)
      = Some (roster', r') /\
    well_placed m (2, 1) roster'.
Proof.
  cbv zeta.
  apply (X10_enemy_moves_keep_roster_well_placed 0 2 1
           (Map.mk 3 3 [[Floor; Lava; Floor]; [Floor; Wall; Floor];
                        [Floor; Floor; Floor]])
           (2, 1)
           [Enemy.mk Enemy.Fast 0 0 30 0 Enemy.Direct Effects.empty 0;
            Enemy.mk Enemy.Tank 0 1 150 0 Enemy.Circling Effects.empty 0]
           (const_rng 0)).
  - split; [reflexivity | repeat constructor].
  - cbn. lia.
  - intros [|[|j]] e He; cbn in He; try discriminate; injection He as <-;
      (split; [reflexivity|]); (split; [cbn; lia|]);
      intros [|[|k]] other Hk Hother; cbn in Hother; try discriminate;
      try congruence; injection Hother as <-; cbn; lia.
Defined.

(** ** The bookkeeping of status effects *)

Section Bookkeeping.

Variable who : string.

Lemma flag_of_set_flag n m v f :
  flag_of n (Effects.set_flag m v f)
  = if String.eqb m n
    then match flag_of n f with Some _ => Some v | None => None end
    else flag_of n f.
Proof.
  unfold flag_of, Effects.set_flag. cbn.
  destruct (String.eqb_spec m n) as [->|Hne].
  - repeat (destruct (String.eqb n _); [reflexivity|]). reflexivity.
  - repeat match goal with
           | |- context [String.eqb n ?s] =>
               destruct (String.eqb_spec n s) as [->|?];
               [destruct (String.eqb_spec m s); [congruence|reflexivity]|]
           end.
    reflexivity.
Qed.

Lemma flag_of_log n msg f : flag_of n (Effects.log msg f) = flag_of n f.
Proof. reflexivity. Qed.

Lemma flag_of_log_opt n text f :
  flag_of n (Effects.log_opt who text f) = flag_of n f.
Proof. destruct text; reflexivity. Qed.

Lemma flag_of_with_effects n l f :
  flag_of n (Effects.with_effects l f) = flag_of n f.
Proof. reflexivity. Qed.

Lemma effects_log_opt text f :
  Effects.status_effects (Effects.log_opt who text f) = Effects.status_effects f.
Proof. destruct text; reflexivity. Qed.

Lemma flag_of_remove_effect n x f :
  flag_of n (Effects.remove_effect who x f)
  = if String.eqb (StatusEffect.name x) n
    then match flag_of n f with Some _ => Some false | None => None end
    else flag_of n f.
Proof.
  unfold Effects.remove_effect. rewrite flag_of_log_opt. apply flag_of_set_flag.
Qed.

Lemma stack_effect_name eff x r :
  StatusEffect.name (fst (StatusEffect.stack_effect eff x r)) = StatusEffect.name x.
Proof.
  unfold StatusEffect.stack_effect.
  destruct (bool_decide _); [destruct (Random.uniform _ _ r); reflexivity|].
  destruct (bool_decide _); [destruct (Random.uniform _ _ r); reflexivity|].
  reflexivity.
Qed.

Lemma stack_into_names eff : forall l r l' r',
  Effects.stack_into eff l r = Some (l', r') ->
  map StatusEffect.name l' = map StatusEffect.name l.
Proof.
  induction l as [|x l IH]; intros r l' r' Hs; [discriminate|].
  cbn [Effects.stack_into] in Hs.
  destruct (String.eqb (StatusEffect.name x) (StatusEffect.name eff)).
  - pose proof (stack_effect_name eff x r) as Hn.
    destruct (StatusEffect.stack_effect eff x r) as [x' r1].
    injection Hs as <- <-. cbn in *. congruence.
  - destruct (Effects.stack_into eff l r) as [[l1 r1]|] eqn:Hrec; [|discriminate].
    injection Hs as <- <-. cbn. f_equal. apply (IH r l1 r1 Hrec).
Qed.

Lemma stack_into_none eff : forall l r,
  Effects.stack_into eff l r = None ->
  StatusEffect.name eff ∉ map StatusEffect.name l.
Proof.
  induction l as [|x l IH]; intros r Hs; [apply not_elem_of_nil|].
  cbn [Effects.stack_into] in Hs.
  destruct (String.eqb_spec (StatusEffect.name x) (StatusEffect.name eff)) as [|Hne].
  - destruct (StatusEffect.stack_effect eff x r). discriminate.
  - destruct (Effects.stack_into eff l r) as [[l1 r1]|] eqn:Hrec; [discriminate|].
    cbn [map]. apply not_elem_of_cons. split; [congruence|]. apply (IH r Hrec).
Qed.

Lemma agree_apply eff f r :
  flags_agree f -> flags_agree (fst (Effects.apply_status_effect who eff f r)).
Proof.
  intros [Hnd Hflags]. unfold Effects.apply_status_effect.
  destruct (Effects.stack_into eff (Effects.status_effects f) r) as [[l' r']|] eqn:Hs;
    cbn [fst].
  - apply stack_into_names in Hs.
    unfold flags_agree, Effects.get_active_effects in *. cbn. rewrite Hs.
    split; [exact Hnd|exact Hflags].
  - apply stack_into_none in Hs.
    unfold flags_agree, Effects.get_active_effects in *.
    unfold Effects.apply_effect.
    change (Effects.status_effects (Effects.log ?m ?g))
      with (Effects.status_effects g).
    rewrite effects_log_opt. cbn [Effects.status_effects Effects.set_flag
      Effects.with_effects]. rewrite map_app. cbn [map]. split.
    + apply NoDup_app. split; [exact Hnd|]. split; [|apply NoDup_singleton].
      intros n Hn Hn'. apply list_elem_of_singleton in Hn'. congruence.
    + intros n b. rewrite flag_of_log, flag_of_log_opt, flag_of_set_flag.
      rewrite elem_of_app, list_elem_of_singleton.
      destruct (String.eqb_spec (StatusEffect.name eff) n) as [<-|Hne].
      * change (flag_of ?n (Effects.with_effects ?l f)) with (flag_of n f).
        destruct (flag_of _ f); [|discriminate]. intros [= <-]. tauto.
      * change (flag_of ?n (Effects.with_effects ?l f)) with (flag_of n f).
        intros Hb. rewrite (Hflags n b Hb). split; [auto|].
        intros [?|?]; [assumption|congruence].
Qed.

Lemma remove_first_spec n : forall l x l',
  Effects.remove_first n l = Some (x, l') ->
  StatusEffect.name x = n /\
  exists l1 l2, l = l1 ++ x :: l2 /\ l' = l1 ++ l2.
Proof.
  induction l as [|y l IH]; intros x l' Hr; [discriminate|].
  cbn [Effects.remove_first] in Hr.
  destruct (String.eqb_spec (StatusEffect.name y) n) as [Hy|Hne].
  - injection Hr as <- <-. split; [exact Hy|]. exists [], l. auto.
  - destruct (Effects.remove_first n l) as [[x1 l1]|] eqn:Hrec; [|discriminate].
    injection Hr as <- <-.
    destruct (IH x1 l1 eq_refl) as (Hx & k1 & k2 & -> & ->).
    split; [exact Hx|]. exists (y :: k1), k2. auto.
Qed.

Lemma agree_remove n f :
  flags_agree f -> flags_agree (snd (Effects.remove_status_effect who n f)).
Proof.
  intros [Hnd Hflags]. unfold Effects.remove_status_effect.
  destruct (Effects.remove_first n (Effects.status_effects f)) as [[x l']|] eqn:Hr;
    cbn [snd]; [|split; assumption].
  apply remove_first_spec in Hr as (Hx & l1 & l2 & Hl & ->).
  unfold flags_agree, Effects.get_active_effects in *.
  rewrite Hl, map_app in Hnd, Hflags. cbn [map] in Hnd, Hflags.
  apply NoDup_app in Hnd as (Hnd1 & Hdis & Hnd2).
  apply NoDup_cons in Hnd2 as [Hx2 Hnd2].
  cbn [Effects.status_effects Effects.with_effects]. rewrite map_app. split.
  - apply NoDup_app. split; [exact Hnd1|]. split; [|exact Hnd2].
    intros m Hm Hm'. apply (Hdis m Hm). right. exact Hm'.
  - intros m b. rewrite flag_of_with_effects, flag_of_remove_effect, Hx.
    rewrite elem_of_app.
    destruct (String.eqb_spec n m) as [<-|Hne].
    + destruct (flag_of n f); [|discriminate]. intros [= <-].
      split; [discriminate|]. intros [Hin|Hin]; exfalso.
      * apply (Hdis n Hin). rewrite Hx. left.
      * rewrite Hx in Hx2. contradiction.
    + intros Hb. rewrite (Hflags m b Hb), elem_of_app, elem_of_cons.
      rewrite Hx. split; [intros [?|[?|?]]; auto; congruence|tauto].
Qed.

Lemma fold_remove_flags n : forall l f,
  flag_of n (fold_left (fun acc x => Effects.remove_effect who x acc) l f)
  = if bool_decide (n ∈ map StatusEffect.name l)
    then match flag_of n f with Some _ => Some false | None => None end
    else flag_of n f.
Proof.
  induction l as [|x l IH]; intros f; [reflexivity|].
  cbn [fold_left map]. rewrite IH, flag_of_remove_effect.
  destruct (String.eqb_spec (StatusEffect.name x) n) as [<-|Hne].
  - rewrite (bool_decide_eq_true_2 (_ ∈ _ :: _)) by left.
    destruct (bool_decide _); destruct (flag_of _ f); reflexivity.
  - destruct (bool_decide (n ∈ map StatusEffect.name l)) eqn:Hin.
    + rewrite bool_decide_eq_true_2; [reflexivity|].
      right. apply bool_decide_eq_true in Hin. exact Hin.
    + rewrite bool_decide_eq_false_2; [reflexivity|].
      apply bool_decide_eq_false in Hin. intros Hin'.
      apply elem_of_cons in Hin' as [?|?]; [congruence|contradiction].
Qed.

Lemma agree_clear f :
  flags_agree f -> flags_agree (Effects.clear_all_status_effects who f).
Proof.
  intros [Hnd Hflags]. unfold Effects.clear_all_status_effects.
  split; [apply NoDup_nil_2|]. intros n b.
  rewrite flag_of_with_effects, fold_remove_flags.
  unfold Effects.get_active_effects in *. cbn.
  destruct (bool_decide _) eqn:Hin.
  - destruct (flag_of n f); [|discriminate]. intros [= <-].
    split; [discriminate|]. intros Hn. apply elem_of_nil in Hn as [].
  - apply bool_decide_eq_false in Hin. intros Hb. rewrite (Hflags n b Hb).
    split; [contradiction|]. intros Hn. apply elem_of_nil in Hn as [].
Qed.

(** The names that a turn end takes off a list, and those that it leaves. *)
Local Abbreviation gone l :=
  (map StatusEffect.name
     (List.filter (fun x => snd (StatusEffect.on_turn_end x)) l)).
Local Abbreviation stay l := (map StatusEffect.name (omap after_turn_end l)).

Lemma after_turn_end_name x x' :
  after_turn_end x = Some x' -> StatusEffect.name x' = StatusEffect.name x.
Proof.
  unfold after_turn_end, StatusEffect.on_turn_end.
  destruct (Qle_bool (StatusEffect.duration x - 1) 0); [discriminate|]. intros [= <-]. reflexivity.
Qed.

Lemma after_turn_end_spec x :
  after_turn_end x
  = if snd (StatusEffect.on_turn_end x) then None
    else Some (fst (StatusEffect.on_turn_end x)).
Proof.
  unfold after_turn_end. destruct (StatusEffect.on_turn_end x) as [x' []];
    reflexivity.
Qed.

Lemma omap_cons_turn_end x l :
  omap after_turn_end (x :: l)
  = match after_turn_end x with
    | Some x' => x' :: omap after_turn_end l
    | None => omap after_turn_end l
    end.
Proof. reflexivity. Qed.

Lemma gone_or_stay n : forall l,
  n ∈ map StatusEffect.name l <-> n ∈ gone l \/ n ∈ stay l.
Proof.
  induction l as [|x l IH].
  - cbn. rewrite !elem_of_nil. tauto.
  - rewrite omap_cons_turn_end, after_turn_end_spec. cbn [map List.filter].
    rewrite elem_of_cons, IH.
    destruct (snd (StatusEffect.on_turn_end x)); cbn [map];
      rewrite elem_of_cons; cbn [fst StatusEffect.on_turn_end StatusEffect.name];
      tauto.
Qed.

Lemma stay_NoDup : forall l,
  NoDup (map StatusEffect.name l) ->
  NoDup (stay l) /\ forall n, n ∈ gone l -> n ∉ stay l.
Proof.
  induction l as [|x l IH]; intros Hnd.
  - cbn. split; [apply NoDup_nil_2|]. intros n Hn. apply elem_of_nil in Hn as [].
  - cbn [map] in Hnd. apply NoDup_cons in Hnd as [Hx Hnd].
    destruct (IH Hnd) as [IH1 IH2].
    assert (Hfresh : (StatusEffect.name x ∉ gone l) /\
                     (StatusEffect.name x ∉ stay l)).
    { split; intros Hin; apply Hx, gone_or_stay; auto. }
    destruct Hfresh as [Hg Hs].
    rewrite omap_cons_turn_end, after_turn_end_spec. cbn [List.filter].
    destruct (snd (StatusEffect.on_turn_end x)); cbn [map].
    + split; [exact IH1|]. intros n Hn.
      apply elem_of_cons in Hn as [->|Hn]; [exact Hs|auto].
    + cbn [fst StatusEffect.on_turn_end StatusEffect.name].
      split; [apply NoDup_cons; split; assumption|].
      intros n Hn Hn'. apply elem_of_cons in Hn' as [->|Hn'].
      * contradiction.
      * apply (IH2 n Hn Hn').
Qed.

Lemma update_loop_spec : forall todo kept e,
  Effects.status_effects (Effects.update_loop who todo kept e)
  = kept ++ omap after_turn_end todo /\
  forall n, flag_of n (Effects.update_loop who todo kept e)
            = if bool_decide (n ∈ gone todo)
              then match flag_of n e with Some _ => Some false | None => None end
              else flag_of n e.
Proof.
  induction todo as [|x todo IH]; intros kept e.
  - cbn. rewrite app_nil_r. split; reflexivity.
  - rewrite omap_cons_turn_end, after_turn_end_spec.
    cbn [Effects.update_loop List.filter].
    destruct (StatusEffect.on_turn_end x) as [x' expired] eqn:Hx.
    assert (Hname : StatusEffect.name x' = StatusEffect.name x)
      by (unfold StatusEffect.on_turn_end in Hx; injection Hx as <- _; reflexivity).
    cbn [fst snd]. destruct expired.
    + destruct (IH kept
                  (Effects.log (who ++ " is no longer affected by "
                                ++ StatusEffect.name x ++ "!")
                     (Effects.remove_effect who x' e))) as [IH1 IH2].
      split; [exact IH1|]. intros n. rewrite IH2, flag_of_log,
        flag_of_remove_effect, Hname. cbn [map].
      destruct (String.eqb_spec (StatusEffect.name x) n) as [<-|Hne].
      * rewrite (bool_decide_eq_true_2 (_ ∈ _ :: _)) by left.
        destruct (bool_decide _); destruct (flag_of _ e); reflexivity.
      * destruct (bool_decide (n ∈ gone todo)) eqn:Hin.
        -- rewrite bool_decide_eq_true_2; [reflexivity|].
           right. apply bool_decide_eq_true in Hin. exact Hin.
        -- rewrite bool_decide_eq_false_2; [reflexivity|].
           apply bool_decide_eq_false in Hin. intros Hin'.
           apply elem_of_cons in Hin' as [?|?]; [congruence|contradiction].
    + destruct (IH (kept ++ [x']) e) as [IH1 IH2].
      split; [rewrite IH1, <- app_assoc; reflexivity|exact IH2].
Qed.

Lemma agree_update f :
  flags_agree f -> flags_agree (Effects.update_status_effects who f).
Proof.
  intros [Hnd Hflags]. unfold Effects.update_status_effects.
  destruct (update_loop_spec (Effects.status_effects f) [] f) as [Hl Hfl].
  unfold flags_agree, Effects.get_active_effects in *. rewrite Hl. cbn [app].
  destruct (stay_NoDup _ Hnd) as [Hnd' Hdis]. split; [exact Hnd'|].
  intros n b. rewrite Hfl. destruct (bool_decide _) eqn:Hin.
  - apply bool_decide_eq_true in Hin.
    destruct (flag_of n f); [|discriminate]. intros [= <-].
    split; [discriminate|]. intros Hn. exfalso. apply (Hdis n Hin Hn).
  - apply bool_decide_eq_false in Hin. intros Hb.
    rewrite (Hflags n b Hb), gone_or_stay. tauto.
Qed.

Lemma agree_step f o : flags_agree f -> flags_agree (fx_step who f o).
Proof.
  destruct o; cbn [fx_step];
    [apply agree_apply|apply agree_remove|apply agree_update|apply agree_clear].
Qed.

Lemma agree_empty : flags_agree Effects.empty.
Proof.
  split; [apply NoDup_nil_2|]. intros n b. unfold flag_of.
  repeat (destruct (String.eqb n _);
          [intros [= <-]; split;
           [discriminate|intros Hn; apply elem_of_nil in Hn as []]|]).
  discriminate.
Qed.

Lemma has_iff n f :
  Effects.has_status_effect n f = true <-> n ∈ Effects.get_active_effects f.
Proof.
  unfold Effects.has_status_effect, Effects.get_active_effects.
  rewrite existsb_exists, list_elem_of_fmap. split.
  - intros (x & Hx & Hn). apply String.eqb_eq in Hn.
    exists x. split; [auto|apply list_elem_of_In; exact Hx].
  - intros (x & -> & Hx). exists x.
    split; [apply list_elem_of_In; exact Hx|apply String.eqb_refl].
Qed.

Lemma agree_flag n b f :
  flags_agree f -> flag_of n f = Some b -> b = Effects.has_status_effect n f.
Proof.
  intros [_ Hflags] Hb. apply Hflags in Hb.
  destruct (Effects.has_status_effect n f) eqn:Hhas.
  - apply Hb, has_iff, Hhas.
  - destruct b; [|reflexivity]. rewrite <- Hhas. symmetry.
    apply has_iff, Hb. reflexivity.
Qed.

Lemma stack_into_absent eff : forall l r,
  StatusEffect.name eff ∉ map StatusEffect.name l ->
  Effects.stack_into eff l r = None.
Proof.
  induction l as [|x l IH]; intros r Hn; [reflexivity|].
  cbn [map] in Hn. apply not_elem_of_cons in Hn as [Hne Hn].
  cbn [Effects.stack_into].
  destruct (String.eqb_spec (StatusEffect.name x) (StatusEffect.name eff));
    [congruence|].
  rewrite (IH r Hn). reflexivity.
Qed.

Lemma update_effects f :
  Effects.status_effects (Effects.update_status_effects who f)
  = omap after_turn_end (Effects.status_effects f).
Proof.
  unfold Effects.update_status_effects.
  destruct (update_loop_spec (Effects.status_effects f) [] f) as [-> _].
  reflexivity.
Qed.

Lemma stay_absent n l :
  n ∉ map StatusEffect.name l -> n ∉ stay l.
Proof. intros Hn Hs. apply Hn, gone_or_stay. auto. Qed.

Lemma iter_absent n k : forall l,
  n ∉ map StatusEffect.name l ->
  n ∉ map StatusEffect.name (Nat.iter k (omap after_turn_end) l).
Proof.
  induction k as [|k IH]; intros l Hn; [exact Hn|].
  cbn [Nat.iter nat_rect]. apply stay_absent, IH, Hn.
Qed.

(** The one effect called [n], turn end after turn end. *)
Lemma iter_runs_for n : forall k l d,
  (0 < d)%Q -> runs_for n d l ->
  n ∈ map StatusEffect.name (Nat.iter k (omap after_turn_end) l)
  <-> (inject_Z (Z.of_nat k) < d)%Q.
Proof.
  induction k as [|k IH]; intros l d Hd (l1 & x & l2 & -> & H1 & H2 & Hx & Hdur).
  - cbn [Nat.iter nat_rect]. rewrite map_app, elem_of_app. cbn [map].
    rewrite elem_of_cons. change (inject_Z (Z.of_nat 0)) with 0%Q.
    split; [intros _; exact Hd|auto].
  - rewrite Nat.iter_succ_r, omap_app, omap_cons_turn_end, after_turn_end_spec.
    assert (Hk : (inject_Z (Z.of_nat (S k)) == inject_Z (Z.of_nat k) + 1)%Q)
      by (rewrite Nat2Z.inj_succ; unfold Z.succ; rewrite inject_Z_plus;
          reflexivity).
    assert (Hk0 : (0 <= inject_Z (Z.of_nat k))%Q)
      by (change 0%Q with (inject_Z 0); rewrite <- Zle_Qle; lia).
    cbn [snd fst StatusEffect.on_turn_end].
    destruct (Qle_bool (StatusEffect.duration x - 1) 0) eqn:Hout; cbv beta iota.
    + apply Qle_bool_iff in Hout. split.
      * intros Hin. exfalso. revert Hin. apply iter_absent.
        rewrite map_app, elem_of_app.
        intros [Hin|Hin]; revert Hin; apply stay_absent; assumption.
      * intros Hlt. exfalso. lra.
    + assert (Hleft : (0 < d - 1)%Q).
      { destruct (Qlt_le_dec 0 (d - 1)) as [|Hle]; [assumption|].
        assert (Hle' : (StatusEffect.duration x - 1 <= 0)%Q) by lra.
        apply Qle_bool_iff in Hle'. congruence. }
      rewrite (IH _ (d - 1)%Q Hleft); [split; intros; lra|].
      eexists _, _, _. split; [reflexivity|].
      split; [apply stay_absent; assumption|].
      split; [apply stay_absent; assumption|].
      split; [exact Hx|]. cbn. lra.
Qed.

End Bookkeeping.

Lemma iter_update_effects who k f :
  Effects.status_effects (Nat.iter k (Effects.update_status_effects who) f)
  = Nat.iter k (omap after_turn_end) (Effects.status_effects f).
Proof.
  induction k as [|k IH]; [reflexivity|].
  cbn [Nat.iter nat_rect]. rewrite update_effects. f_equal. exact IH.
Qed.

(** X11.  The attributes follow the effect list.  Starting from a state
    in which no two effects share a name and every attribute
    ([paralyzed], [blinded], [confused], [hasted], [slowed],
    [strengthened], [weakened], [protected]) is set exactly when the list
    holds the effect that switches it, every sequence of
    [apply_status_effect], [remove_status_effect], [update_status_effects]
    and [clear_all_status_effects] ends in such a state.  In particular
    [can_act] and [take_damage] then read [paralyzed], [slowed] and
    [protected] as [has_status_effect] would answer. *)
Theorem X11_flags_follow_effects (who : string) (ops : list fx_op)
    (f : Effects.t) :
  flags_agree f ->
  let f' := fold_left (fx_step who) ops f in
  flags_agree f' /\
  Effects.paralyzed f' = Effects.has_status_effect "Paralysis" f' /\
  Effects.slowed f' = Effects.has_status_effect "Slow" f' /\
  Effects.protected f' = Effects.has_status_effect "Protection" f'.
Proof.
  intros Hf f'.
  assert (Hf' : flags_agree f').
  { subst f'. revert f Hf. induction ops as [|o ops IH]; intros f Hf; [exact Hf|].
    cbn [fold_left]. apply IH, agree_step, Hf. }
  split; [exact Hf'|].
  repeat split; apply agree_flag; (exact Hf' || reflexivity).
Qed.

Lemma X11_flags_follow_effects_witness :
  let f' := fold_left (fx_step "Player")
              [FxApply (StatusEffect.ParalysisEffect 1) (const_rng 0);
               FxApply (StatusEffect.ProtectionEffect 2 1) (const_rng 0);
               FxApply (StatusEffect.ProtectionEffect 2 1) (const_rng 0);
               FxTurnEnd]
              Effects.empty in
  Effects.get_active_effects f' = ["Protection"]%string /\
  Effects.paralyzed f' = false /\ Effects.protected f' = true.
Proof.
  cbv zeta.
  destruct (X11_flags_follow_effects "Player"
              [FxApply (StatusEffect.ParalysisEffect 1) (const_rng 0);
               FxApply (StatusEffect.ProtectionEffect 2 1) (const_rng 0);
               FxApply (StatusEffect.ProtectionEffect 2 1) (const_rng 0);
               FxTurnEnd]
              Effects.empty agree_empty) as (_ & Hpar & _ & Hprot).
  split; [reflexivity|]. split; [rewrite Hpar|rewrite Hprot]; reflexivity.
Defined.

(** X12.  An effect runs for its duration.  An effect with a positive
    duration, applied to an entity that does not hold an effect of its name,
    is still held after [k] calls of [update_status_effects] exactly when
    [k] is less than its duration: an effect of duration 3 is held after 0,
    1 and 2 turn ends and is gone from the third on, and it does not come
    back. *)
Theorem X12_effect_runs_its_duration (who : string) (effect : StatusEffect.t)
    (f : Effects.t) (r : Random.t) (k : nat) :
  Effects.has_status_effect (StatusEffect.name effect) f = false ->
  (0 < StatusEffect.duration effect)%Q ->
  Effects.has_status_effect (StatusEffect.name effect)
    (Nat.iter k (Effects.update_status_effects who)
       (fst (Effects.apply_status_effect who effect f r))) = true
  <-> (inject_Z (Z.of_nat k) < StatusEffect.duration effect)%Q.
Proof.
  intros Hnew Hd.
  assert (Habs : StatusEffect.name effect ∉ map StatusEffect.name
                                              (Effects.status_effects f)).
  { intros Hin. apply has_iff in Hin. congruence. }
  rewrite has_iff. unfold Effects.get_active_effects.
  rewrite iter_update_effects. apply iter_runs_for; [exact Hd|].
  unfold Effects.apply_status_effect.
  rewrite (stack_into_absent effect _ r Habs). cbn [fst].
  unfold Effects.apply_effect.
  change (Effects.status_effects (Effects.log ?m ?g))
    with (Effects.status_effects g).
  rewrite effects_log_opt. cbn [Effects.status_effects Effects.set_flag
    Effects.with_effects].
  exists (Effects.status_effects f), effect, [].
  split; [reflexivity|]. split; [exact Habs|].
  split; [apply not_elem_of_nil|]. split; reflexivity.
Qed.

Lemma X12_effect_runs_its_duration_witness :
  let f := fst (Effects.apply_status_effect "Enemy"
                  (StatusEffect.PoisonEffect 3 1) Effects.empty (const_rng 0)) in
  (Effects.has_status_effect "Poison"
     (Nat.iter 2 (Effects.update_status_effects "Enemy") f) = true
   <-> (inject_Z (Z.of_nat 2) < 3)%Q) /\
  Effects.has_status_effect "Poison"
    (Nat.iter 3 (Effects.update_status_effects "Enemy") f) = false.
Proof.
  cbv zeta. split; [|reflexivity].
  apply (X12_effect_runs_its_duration "Enemy" (StatusEffect.PoisonEffect 3 1)
           Effects.empty (const_rng 0) 2).
  - reflexivity.
  - reflexivity.
Defined.

(** ** Stacking of duration-class effects *)

Section Stretching.

Variable n : string.
Variables d i : Q.
Hypothesis Hclass : n ∈ StatusEffect.duration_class.
Hypothesis Hd : (0 <= d)%Q.
Variable who : string.

Local Abbreviation copy := (StatusEffect.init n d i).

Lemma random_nonneg r : (0 <= fst (Random.random r))%Q.
Proof.
  unfold Random.random. destruct (Random.next r) as [k r']. cbn [fst].
  unfold Qle. cbn. pose proof (Z.mod_pos_bound k (2 ^ 53) eq_refl). lia.
Qed.

Lemma duration_stack existing r :
  exists u, (0 <= u)%Q /\
    fst (StatusEffect.stack_effect copy existing r)
    = {| StatusEffect.name := StatusEffect.name existing;
         StatusEffect.base_duration := StatusEffect.base_duration existing;
         StatusEffect.duration :=
           Qmin (StatusEffect.duration existing + d * u)
                (StatusEffect.max_duration existing);
         StatusEffect.intensity := StatusEffect.intensity existing;
         StatusEffect.max_intensity := StatusEffect.max_intensity existing;
         StatusEffect.max_duration := StatusEffect.max_duration existing |}.
Proof.
  unfold StatusEffect.stack_effect. cbn [StatusEffect.name StatusEffect.init].
  rewrite (bool_decide_eq_true_2 _ Hclass).
  unfold Random.uniform. pose proof (random_nonneg r) as Hu.
  destruct (Random.random r) as [u r']. cbn [fst] in *.
  exists (0.5 + (1 - 0.5) * u)%Q. split; [lra|reflexivity].
Qed.

Lemma stretched_copy : stretched_by n d i copy.
Proof. repeat split; cbn; lra. Qed.

Lemma stretched_stack x r :
  stretched_by n d i x ->
  stretched_by n d i (fst (StatusEffect.stack_effect copy x r)).
Proof.
  intros (Hn & Hmax & Hint & Hlo & Hhi).
  destruct (duration_stack x r) as (u & Hu & ->).
  repeat split; cbn; try assumption.
  - apply Q.min_glb; [nra|rewrite Hmax; lra].
  - rewrite Hmax. apply Q.le_min_r.
Qed.

Lemma stretch_first f r :
  absent_in n (Effects.status_effects f) ->
  holds_stretched n d i (fst (Effects.apply_status_effect who copy f r)).
Proof.
  intros Habs. unfold Effects.apply_status_effect.
  rewrite (stack_into_miss n d i) by assumption. cbn [fst].
  exists (Effects.status_effects f), copy, [].
  split; [|split; [assumption | split; [constructor | apply stretched_copy]]].
  unfold Effects.apply_effect, Effects.log_opt.
  destruct (Effects.applied_text _); reflexivity.
Qed.

Lemma stretch_again f r :
  holds_stretched n d i f ->
  holds_stretched n d i (fst (Effects.apply_status_effect who copy f r)).
Proof.
  intros (l1 & x & l2 & Hl & H1 & H2 & Hx). unfold Effects.apply_status_effect.
  rewrite Hl, (stack_into_hit n d i) by (assumption || apply Hx). cbn [fst].
  exists l1, (fst (StatusEffect.stack_effect copy x r)), l2.
  split; [reflexivity|]. repeat split; try assumption;
    apply stretched_stack; assumption.
Qed.

Lemma holds_one_stretched f : holds_stretched n d i f -> one_stretched n d i f.
Proof.
  intros (l1 & x & l2 & Hl & H1 & H2 & (Hn & _ & Hint & Hlo & Hhi)).
  exists x. rewrite Hl. unfold named. rewrite List.filter_app. cbn.
  rewrite Hn, String.eqb_refl.
  fold (named n l1). fold (named n l2).
  rewrite !named_absent by assumption.
  split; [reflexivity|]. split; [exact Hint|]. split; lra.
Qed.

End Stretching.

(** X13.  Stacking a duration-class effect (Paralysis, Blindness,
    Confusion, Haste, Slow).  For a player and for an enemy that do not yet
    hold the effect, and for every N >= 1: applying N copies built with a
    non-negative duration [d] leaves exactly one effect of that name; its
    intensity is still the intensity of the first application, and its
    duration has only been extended, never past twice [d], whatever the
    random stacking factors are. *)
Theorem X13_duration_stacking_capped (n : string) (d i : Q) (N : nat)
    (p : Player.t) (e : Enemy.t) (r : Random.t) :
  n ∈ StatusEffect.duration_class -> (0 <= d)%Q -> (1 <= N)%nat ->
  Effects.has_status_effect n (Player.fx p) = false ->
  Effects.has_status_effect n (Enemy.fx e) = false ->
  one_stretched n d i
    (Player.fx (fst (repeat_call
       (Player.apply_status_effect (StatusEffect.init n d i)) N p r))) /\
  one_stretched n d i
    (Enemy.fx (fst (repeat_call
       (Enemy.apply_status_effect (StatusEffect.init n d i)) N e r))).
Proof.
  intros Hclass Hd HN Hp He. split.
  - apply (holds_one_stretched n d i).
    apply (repeat_call_establishes _
             (fun p => absent_in n (Effects.status_effects (Player.fx p)))
             (fun p => holds_stretched n d i (Player.fx p))); try assumption.
    + intros a r0 Ha. rewrite player_apply_fx. apply stretch_first; assumption.
    + intros a r0 Ha. rewrite player_apply_fx. apply stretch_again; assumption.
    + apply absent_of_has. assumption.
  - apply (holds_one_stretched n d i).
    apply (repeat_call_establishes _
             (fun e => absent_in n (Effects.status_effects (Enemy.fx e)))
             (fun e => holds_stretched n d i (Enemy.fx e))); try assumption.
    + intros a r0 Ha. rewrite enemy_apply_fx. apply stretch_first; assumption.
    + intros a r0 Ha. rewrite enemy_apply_fx. apply stretch_again; assumption.
    + apply absent_of_has. assumption.
Qed.

Lemma X13_duration_stacking_capped_witness :
  let p := Player.init 0 0 100 in
  let e := Enemy.mk Enemy.Tank 1 1 150 0 Enemy.Circling Effects.empty 0 in
  one_stretched "Slow" 3 1
    (Player.fx (fst (repeat_call
       (Player.apply_status_effect (StatusEffect.init "Slow" 3 1)) 4 p
       (const_rng 7)))) /\
  one_stretched "Slow" 3 1
    (Enemy.fx (fst (repeat_call
       (Enemy.apply_status_effect (StatusEffect.init "Slow" 3 1)) 4 e
       (const_rng 7)))).
Proof.
  cbv zeta.
  apply (X13_duration_stacking_capped "Slow" 3 1 4 (Player.init 0 0 100)
           (Enemy.mk Enemy.Tank 1 1 150 0 Enemy.Circling Effects.empty 0)
           (const_rng 7)).
  - unfold StatusEffect.duration_class. rewrite !elem_of_cons. auto 10.
  - lra.
  - lia.
  - reflexivity.
  - reflexivity.
Defined.

(** ** The enemy tick of exploration mode *)

Section Tick.

Lemma tick_enemy_spec i g r :
  Map.wf (Game.game_map g) -> (i < length (Game.enemies g))%nat ->
  alive_before i (Game.enemies g) ->
  exists removed g' r',
    Game.tick_enemy i g r = Some (removed, g', r') /\
    Game.game_map g' = Game.game_map g /\
    Game.combat_mode g' = Game.combat_mode g /\
    if (removed : bool) then
      S (length (Game.enemies g')) = length (Game.enemies g) /\
      Game.score g' = Game.score g + 10 /\
      alive_before i (Game.enemies g')
    else
      length (Game.enemies g') = length (Game.enemies g) /\
      Game.score g' = Game.score g /\
      alive_before (S i) (Game.enemies g').
Proof.
  intros Hwf Hi Halive.
  destruct (lookup_lt_is_Some_2 _ _ Hi) as [enemy Henemy].
  unfold Game.tick_enemy. rewrite Henemy. cbn [mbind option_bind].
  destruct (Game.tick_target (Game.player g) enemy) as [tx ty].
  destruct (move_towards_safe (Game.game_map g) Hwf (Game.player g) i tx ty
              (Game.enemies g) r enemy Henemy)
    as (roster' & r' & e' & -> & He' & _ & Hlen & Hby).
  cbn [mbind option_bind fst snd Game.enemies Game.with_entities].
  rewrite He'. cbn [mbind option_bind].
  assert (Hold : forall j e1, (j < i)%nat -> roster' !! j = Some e1 ->
                              0 < Enemy.health e1).
  { intros j e1 Hj He1.
    assert (Hlt : (j < length (Game.enemies g))%nat) by lia.
    destruct (lookup_lt_is_Some_2 _ _ Hlt) as [e0 He0].
    destruct (Hby j e0 ltac:(lia) He0) as (e1' & He1' & _ & _ & Hh).
    rewrite He1 in He1'. injection He1' as <-.
    pose proof (Halive j e0 Hj He0). lia. }
  destruct (Z.leb_spec (Enemy.health e') 0) as [Hdead|Hlive].
  - eexists true, _, r'. split; [reflexivity|].
    destruct (Enemy.check_collision _ e');
      cbn [Game.game_map Game.combat_mode Game.enemies Game.score
           Game.with_status Game.with_entities Game.player];
      (split; [reflexivity|]); (split; [reflexivity|]);
      (split; [rewrite length_delete, Hlen by (rewrite He'; eauto); lia|]);
      (split; [reflexivity|]);
      intros j e1 Hj He1; rewrite list_lookup_delete_lt in He1 by exact Hj;
      apply (Hold j e1 Hj He1).
  - eexists false, _, r'. split; [reflexivity|].
    destruct (Enemy.check_collision _ e');
      cbn [Game.game_map Game.combat_mode Game.enemies Game.score
           Game.with_status Game.with_entities Game.player];
      (split; [reflexivity|]); (split; [reflexivity|]);
      (split; [exact Hlen|]); (split; [reflexivity|]);
      intros j e1 Hj He1;
      (destruct (decide (j = i)) as [->|Hne];
       [rewrite He' in He1; injection He1 as <-; exact Hlive
       |apply (Hold j e1 ltac:(lia) He1)]).
Qed.

Lemma tick_from_spec : forall n i g r,
  Map.wf (Game.game_map g) ->
  (i + n = length (Game.enemies g))%nat ->
  alive_before i (Game.enemies g) ->
  exists g' r',
    Game.tick_from n i g r = Some (g', r') /\
    Game.game_map g' = Game.game_map g /\
    Game.combat_mode g' = Game.combat_mode g /\
    Forall (fun e => 0 < Enemy.health e) (Game.enemies g') /\
    Game.score g'
    = Game.score g
      + 10 * (Z.of_nat (length (Game.enemies g))
              - Z.of_nat (length (Game.enemies g'))).
Proof.
  induction n as [|n IH]; intros i g r Hwf Hlen Halive.
  - exists g, r. split; [reflexivity|]. repeat split; [|lia].
    apply Forall_lookup. intros j e He.
    apply (Halive j e); [apply lookup_lt_Some in He; lia|exact He].
  - destruct (tick_enemy_spec i g r Hwf ltac:(lia) Halive)
      as (removed & g1 & r1 & Hstep & Hmap & Hmode & Hres).
    cbn [Game.tick_from]. rewrite Hstep. cbn [mbind option_bind].
    destruct removed.
    + destruct Hres as (Hlen1 & Hscore & Halive1).
      destruct (IH i g1 r1) as (g' & r' & Hrun & Hmap' & Hmode' & Hall & Hsc);
        [rewrite Hmap; exact Hwf|lia|exact Halive1|].
      exists g', r'. split; [exact Hrun|]. split; [congruence|].
      split; [congruence|]. split; [exact Hall|]. lia.
    + destruct Hres as (Hlen1 & Hscore & Halive1).
      destruct (IH (S i) g1 r1) as (g' & r' & Hrun & Hmap' & Hmode' & Hall & Hsc);
        [rewrite Hmap; exact Hwf|lia|exact Halive1|].
      exists g', r'. split; [exact Hrun|]. split; [congruence|].
      split; [congruence|]. split; [exact Hall|]. lia.
Qed.

End Tick.

(** X14.  The enemy tick buries the dead.  In exploration mode, on a
    rectangular map, the loop that [handle_exploration_input] runs over
    the enemies after an action of the player never fails, and the roster
    it leaves holds no enemy with health 0 or less; the score has risen by
    exactly 10 for every enemy that left the roster; the map and the mode
    are untouched.  In combat mode, or without an action of the player,
    the loop does not run and nothing changes. *)
Theorem X14_enemy_tick_buries_the_dead (g : Game.t) (r : Random.t) :
  Map.wf (Game.game_map g) ->
  (Game.combat_mode g = false ->
   exists g' r',
     Game.tick_enemies true g r = Some (g', r') /\
     Forall (fun e => 0 < Enemy.health e) (Game.enemies g') /\
     Game.score g'
     = Game.score g
       + 10 * (Z.of_nat (length (Game.enemies g))
               - Z.of_nat (length (Game.enemies g'))) /\
     Game.game_map g' = Game.game_map g /\ Game.combat_mode g' = false) /\
  (Game.combat_mode g = true -> Game.tick_enemies true g r = Some (g, r)) /\
  Game.tick_enemies false g r = Some (g, r).
Proof.
  intros Hwf. split; [|split].
  - intros Hmode0. unfold Game.tick_enemies. rewrite Hmode0. cbn [andb negb].
    destruct (tick_from_spec (length (Game.enemies g)) 0 g r Hwf eq_refl)
      as (g' & r' & Hrun & Hmap & Hmode & Hall & Hscore).
    { intros j e Hj. lia. }
    exists g', r'. repeat split; try assumption. congruence.
  - intros Hmode. unfold Game.tick_enemies. rewrite Hmode. reflexivity.
  - reflexivity.
Qed.

Lemma X14_enemy_tick_buries_the_dead_witness :
  let m := Map.mk 5 1 [[Floor; Floor; Floor; Floor; Floor]] in
  let dead := Enemy.mk Enemy.Basic 2 0 0 0 Enemy.Direct Effects.empty 0 in
  let live := Enemy.mk Enemy.Tank 4 0 150 0 Enemy.Circling Effects.empty 0 in
  let g := Game.mk false [] 0 [] [] 10 "" (Player.init 0 0 100) [dead; live] m 0 in
  option_map (fun res => (map Enemy.health (Game.enemies (fst res)),
                          Game.score (fst res)))
    (Game.tick_enemies true g (const_rng 0))
  = Some ([150], 10).
Proof.
  cbv zeta.
  destruct (X14_enemy_tick_buries_the_dead
              (Game.mk false [] 0 [] [] 10 "" (Player.init 0 0 100)
                 [Enemy.mk Enemy.Basic 2 0 0 0 Enemy.Direct Effects.empty 0;
                  Enemy.mk Enemy.Tank 4 0 150 0 Enemy.Circling Effects.empty 0]
                 (Map.mk 5 1 [[Floor; Floor; Floor; Floor; Floor]]) 0)
              (const_rng 0)) as (Hrun & _ & _).
  - split; [reflexivity | repeat constructor].
  - destruct (Hrun eq_refl) as (g' & r' & _). vm_compute. reflexivity.
Defined.

(** ** The rate of fire *)

Section FireRate.

Variable game_map : Map.t.
Hypothesis Hwf : Map.wf game_map.

Lemma can_shoot_again now now2 w :
  Weapon.can_shoot now w = Some true ->
  (Float.sub now2 now < Float.div 1 (Weapon.fire_rate w))%Q ->
  Weapon.can_shoot now2 (Weapon.fired now w) = Some false.
Proof.
  unfold Weapon.can_shoot. intros Hcan Hsoon.
  destruct (0 <? Weapon.ammo w); [|discriminate]. cbn [negb] in Hcan.
  cbn [Weapon.ammo Weapon.fire_rate Weapon.last_shot_time Weapon.fired].
  destruct (Qeq_bool (Weapon.fire_rate w) 0); [discriminate|].
  destruct (negb (0 <? Weapon.ammo w - 1)); [reflexivity|].
  f_equal. destruct (Qle_bool _ (Float.sub now2 now)) eqn:Hle; [|reflexivity].
  apply Qle_bool_iff in Hle. apply Qle_not_lt in Hle. contradiction.
Qed.

Lemma rail_runs now w x y direction roster :
  Weapon.can_shoot now w = Some true ->
  exists b m' roster',
    Shoot.RailGun_shoot now w x y direction game_map roster
    = Some (b, Weapon.fired now w, m', roster').
Proof.
  intros Hcan. unfold Shoot.RailGun_shoot. rewrite Hcan.
  cbn [mbind option_bind negb].
  rewrite (surjective_pairing (Shoot.directions4 direction)).
  destruct (rail_loop_total game_map Hwf (Weapon.damage (Weapon.fired now w)) x y
              (Shoot.directions4 direction)
              (Py.range 1 (Weapon.range (Weapon.fired now w) + 1))
              (Shoot.mk_beam [] [] roster 0)) as (st' & p & -> & _).
  cbn [mbind option_bind].
  destruct (destroy_trees_total (Shoot.trees st') game_map Hwf) as [m' ->].
  cbn [mbind option_bind]. eauto.
Qed.

Lemma pistol_runs now w x y direction roster :
  Weapon.can_shoot now w = Some true ->
  exists b m' roster',
    Shoot.LaserPistol_shoot now w x y direction game_map roster
    = Some (b, Weapon.fired now w, m', roster').
Proof.
  intros Hcan. unfold Shoot.LaserPistol_shoot. rewrite Hcan.
  cbn [mbind option_bind negb].
  rewrite (surjective_pairing (Shoot.directions8 direction)).
  destruct (pistol_loop_total game_map Hwf (Weapon.damage (Weapon.fired now w)) x y
              (fst (Shoot.directions8 direction))
              (snd (Shoot.directions8 direction))
              (Py.range 1 (Weapon.range (Weapon.fired now w) + 1))
              (Shoot.mk_beam [] [] roster 0)) as (st' & -> & _).
  cbn [mbind option_bind].
  destruct (destroy_trees_total (Shoot.trees st') game_map Hwf) as [m' ->].
  cbn [mbind option_bind]. eauto.
Qed.

Lemma grenade_runs now w x y direction roster :
  Weapon.can_shoot now w = Some true ->
  exists b m' roster',
    Shoot.GrenadeLauncher_shoot now w x y direction game_map roster
    = Some (b, Weapon.fired now w, m', roster').
Proof.
  intros Hcan.
  destruct (Shoot.impact w x y (fst (Shoot.directions4 direction))
              (snd (Shoot.directions4 direction)) game_map) as [ix iy] eqn:Himpact.
  destruct (grenade_shot game_map Hwf (Weapon.damage w) ix iy now w x y direction
              roster Hcan Himpact eq_refl) as (b & m' & Hshot).
  eauto.
Qed.

End FireRate.

(** X15.  The rate of fire is kept.  A rail gun, a laser pistol or a
    grenade launcher that may fire at time [now] does fire on a rectangular
    map and spends exactly one round; fired again at a time [now2] for which
    the elapsed time, the double [now2 - now], is less than the double
    [1.0 / fire_rate], from anywhere and in any direction, it answers
    [False] and changes neither itself, nor the map, nor any enemy.  The
    two doubles are compared as the code computes them: for a fire rate of 3
    the interval is the double below one third, so that a shot as many
    seconds later is allowed, although less than a third of a second has
    passed. *)
Theorem X15_fire_rate_is_kept (now now2 : Q) (w : Weapon.t) (x y x2 y2 : Z)
    (direction direction2 : string) (game_map : Map.t)
    (roster : list Enemy.t) :
  Map.wf game_map ->
  Weapon.can_shoot now w = Some true ->
  (Float.sub now2 now < Float.div 1 (Weapon.fire_rate w))%Q ->
  Forall (fun shoot : Q -> Weapon.t -> Z -> Z -> string -> Map.t ->
                      list Enemy.t -> option Shoot.result =>
            exists b w' m' roster',
              shoot now w x y direction game_map roster
                = Some (b, w', m', roster') /\
              Weapon.ammo w' = Weapon.ammo w - 1 /\
              shoot now2 w' x2 y2 direction2 m' roster'
                = Some (false, w', m', roster'))
    [Shoot.RailGun_shoot; Shoot.LaserPistol_shoot; Shoot.GrenadeLauncher_shoot].
Proof.
  intros Hwf Hcan Hsoon.
  pose proof (can_shoot_again now now2 w Hcan Hsoon) as Hagain.
  repeat constructor.
  - destruct (rail_runs game_map Hwf now w x y direction roster Hcan)
      as (b & m' & roster' & Hshot).
    exists b, (Weapon.fired now w), m', roster'. split; [exact Hshot|].
    split; [reflexivity|]. unfold Shoot.RailGun_shoot. rewrite Hagain. reflexivity.
  - destruct (pistol_runs game_map Hwf now w x y direction roster Hcan)
      as (b & m' & roster' & Hshot).
    exists b, (Weapon.fired now w), m', roster'. split; [exact Hshot|].
    split; [reflexivity|]. unfold Shoot.LaserPistol_shoot. rewrite Hagain.
    reflexivity.
  - destruct (grenade_runs game_map Hwf now w x y direction roster Hcan)
      as (b & m' & roster' & Hshot).
    exists b, (Weapon.fired now w), m', roster'. split; [exact Hshot|].
    split; [reflexivity|]. unfold Shoot.GrenadeLauncher_shoot. rewrite Hagain.
    reflexivity.
Qed.

Lemma X15_fire_rate_is_kept_witness :
  let m := Map.mk 4 1 [[Floor; Floor; Floor; Floor]] in
  let enemy := Enemy.mk Enemy.Tank 2 0 150 0 Enemy.Circling Effects.empty 0 in
  let twice now now2 :=
    option_map (fun res => let '(b, w', _, roster') := res in
                           (b, Weapon.ammo w', map Enemy.health roster'))
      (res ← Shoot.RailGun_shoot now Weapon.RailGun 0 0 "right" m [enemy];
       let '(_, w', m', roster') := res in
       Shoot.RailGun_shoot now2 w' 0 0 "right" m' roster') in
  twice 10%Q (10 + 1 / 4)%Q = Some (false, 7, [105]) /\
  twice (6004799503160663 # 2 ^ 54)%Q (6004799503160662 # 2 ^ 53)%Q
  = Some (true, 6, [60]).
Proof.
  cbv zeta.
  pose proof (X15_fire_rate_is_kept 10 (10 + 1 / 4) Weapon.RailGun 0 0 0 0
                "right" "right" (Map.mk 4 1 [[Floor; Floor; Floor; Floor]])
                [Enemy.mk Enemy.Tank 2 0 150 0 Enemy.Circling Effects.empty 0])
    as Hkept.
  apply Forall_cons in Hkept as [(b & w' & m' & roster' & Hshot & _) _].
  - split; vm_compute; reflexivity.
  - split; [reflexivity | repeat constructor].
  - reflexivity.
  - reflexivity.
Defined.

(** ** Placement *)

Section Placement.

Lemma randint_range a b r :
  a <= b -> exists k r', Random.randint a b r = Some (k, r') /\ a <= k <= b.
Proof.
  intros Hab. unfold Random.randint, Random.randbelow.
  destruct (Z.ltb_spec b a) as [|_]; [lia|].
  destruct (Random.next r) as [k r'].
  pose proof (Z.mod_pos_bound k (b - a + 1) ltac:(lia)) as Hm.
  eexists _, _. split; [reflexivity|].
  generalize dependent (k mod (b - a + 1)). intros; lia.
Qed.

Lemma randint_empty a b r : b < a -> Random.randint a b r = None.
Proof.
  intros Hab. unfold Random.randint.
  destruct (Z.ltb_spec b a); [reflexivity|lia].
Qed.

Lemma attempt_cell_unfold game_map r n :
  1 <= Map.width game_map - 2 -> 1 <= Map.height game_map - 2 ->
  attempt_cell game_map r n
  = Some (1 + r (2 * n)%nat mod (Map.width game_map - 2),
          1 + r (S (2 * n)) mod (Map.height game_map - 2)).
Proof.
  intros Hw Hh. unfold attempt_cell, Random.randint, Random.randbelow,
    Random.next, after_draws.
  destruct (Z.ltb_spec (Map.width game_map - 2) 1) as [|_]; [lia|].
  cbn [mbind option_bind fst snd].
  destruct (Z.ltb_spec (Map.height game_map - 2) 1) as [|_]; [lia|].
  cbn [mbind option_bind fst snd].
  rewrite !Nat.add_0_r, Nat.add_1_r.
  replace (Map.width game_map - 2 - 1 + 1) with (Map.width game_map - 2) by lia.
  replace (Map.height game_map - 2 - 1 + 1) with (Map.height game_map - 2) by lia.
  reflexivity.
Qed.

Lemma attempt_cell_next game_map r n :
  1 <= Map.width game_map - 2 -> 1 <= Map.height game_map - 2 ->
  attempt_cell game_map (after_draws 2 r) n = attempt_cell game_map r (S n).
Proof.
  intros Hw Hh. rewrite !attempt_cell_unfold by assumption.
  unfold after_draws.
  replace (2 * S n)%nat with (2 + 2 * n)%nat by lia.
  replace (S (2 + 2 * n))%nat with (2 + S (2 * n))%nat by lia.
  reflexivity.
Qed.

Lemma find_open_loop_spec game_map : forall attempts r,
  Map.wf game_map -> 3 <= Map.width game_map -> 3 <= Map.height game_map ->
  exists x y r' n,
    find_open_loop attempts game_map r = Some (x, y, r') /\
    0 < x < Map.width game_map - 1 /\ 0 < y < Map.height game_map - 1 /\
    all_blocked game_map r n /\
    (((n < attempts)%nat /\
      attempt_cell game_map r n = Some (x, y) /\
      Map.is_blocked game_map x y = Some false /\
      forall k, r' k = after_draws (2 * S n) r k) \/
     (n = attempts /\
      x = Map.width game_map / 2 /\ y = Map.height game_map / 2 /\
      forall k, r' k = after_draws (2 * n) r k)).
Proof.
  intros attempts r Hwf Hw Hh. revert r.
  induction attempts as [|k IH]; intros r.
  - exists (Map.width game_map / 2), (Map.height game_map / 2), r, 0%nat.
    split; [reflexivity|].
    pose proof (Z.div_le_lower_bound (Map.width game_map) 2 1 ltac:(lia) ltac:(lia)).
    pose proof (Z.div_lt_upper_bound (Map.width game_map) 2
                  (Map.width game_map - 1) ltac:(lia) ltac:(lia)).
    pose proof (Z.div_le_lower_bound (Map.height game_map) 2 1 ltac:(lia) ltac:(lia)).
    pose proof (Z.div_lt_upper_bound (Map.height game_map) 2
                  (Map.height game_map - 1) ltac:(lia) ltac:(lia)).
    split; [lia|]. split; [lia|].
    split; [intros i Hi; lia|].
    right. repeat split; reflexivity.
  - pose proof (attempt_cell_unfold game_map r 0 ltac:(lia) ltac:(lia)) as Hfirst.
    cbn [find_open_loop].
    unfold Random.randint, Random.randbelow, Random.next.
    destruct (Z.ltb_spec (Map.width game_map - 2) 1) as [|_]; [lia|].
    cbn [mbind option_bind fst snd].
    destruct (Z.ltb_spec (Map.height game_map - 2) 1) as [|_]; [lia|].
    cbn [mbind option_bind fst snd].
    replace (Map.width game_map - 2 - 1 + 1) with (Map.width game_map - 2) by lia.
    replace (Map.height game_map - 2 - 1 + 1) with (Map.height game_map - 2) by lia.
    change (2 * 0)%nat with 0%nat in Hfirst.
    set (x := 1 + r 0%nat mod (Map.width game_map - 2)) in *.
    set (y := 1 + r 1%nat mod (Map.height game_map - 2)) in *.
    assert (Hx : 1 <= x <= Map.width game_map - 2).
    { pose proof (Z.mod_pos_bound (r 0%nat) (Map.width game_map - 2) ltac:(lia)).
      unfold x. lia. }
    assert (Hy : 1 <= y <= Map.height game_map - 2).
    { pose proof (Z.mod_pos_bound (r 1%nat) (Map.height game_map - 2) ltac:(lia)).
      unfold y. lia. }
    destruct (is_blocked_total game_map Hwf x y) as [blocked Hb]. rewrite Hb.
    cbn [mbind option_bind]. destruct blocked; cbn [negb].
    + destruct (IH (fun k0 => r (S (S k0))))
        as (x' & y' & r' & n & Hrun & Hx' & Hy' & Hall & Hend).
      exists x', y', r', (S n). split; [exact Hrun|].
      split; [exact Hx'|]. split; [exact Hy'|].
      change (fun k0 => r (S (S k0))) with (after_draws 2 r) in Hall, Hend.
      split.
      * intros [|i] Hi; [exists x, y; split; assumption|].
        destruct (Hall i ltac:(lia)) as (xi & yi & Hcell & Hblocked).
        exists xi, yi. split; [|exact Hblocked].
        rewrite <- attempt_cell_next by lia. exact Hcell.
      * destruct Hend as [(Hn & Hcell & Hopen & Hr')|(Hn & Hcx & Hcy & Hr')].
        -- left. split; [lia|].
           split; [rewrite <- attempt_cell_next by lia; exact Hcell|].
           split; [exact Hopen|].
           intros k0. rewrite Hr'. unfold after_draws. f_equal. lia.
        -- right. split; [lia|]. split; [exact Hcx|]. split; [exact Hcy|].
           intros k0. rewrite Hr'. unfold after_draws. f_equal. lia.
    + exists x, y, (fun k0 => r (S (S k0))), 0%nat. split; [reflexivity|].
      split; [lia|]. split; [lia|].
      split; [intros i Hi; lia|].
      left. split; [lia|]. split; [exact Hfirst|]. split; [exact Hb|].
      intros k0. reflexivity.
Qed.

End Placement.

(** X16.  [find_open_position] returns the first open cell that it draws.
    On a rectangular map at least 3 wide and 3 high it always returns, with
    an interior cell.  Each attempt draws a cell with two calls of
    [random.randint]; the attempts before the one that decides all drew a
    blocked cell.  Either one of the 1000 attempts drew a cell that is not
    blocked, and the first such cell is returned, two draws per attempt
    made having been consumed; or all 1000 attempts drew blocked cells, and
    the centre cell of the map is returned, which may be a wall, after 2000
    draws.  On a map less than 3 wide or less than 3 high the call raises
    the [ValueError] of [random.randint] on an empty range. *)
Theorem X16_find_open_position_inside (game_map : Map.t) (r : Random.t) :
  Map.wf game_map ->
  (3 <= Map.width game_map -> 3 <= Map.height game_map ->
   exists x y r' n,
     find_open_position game_map r = Some (x, y, r') /\
     0 < x < Map.width game_map - 1 /\ 0 < y < Map.height game_map - 1 /\
     all_blocked game_map r n /\
     (((n < 1000)%nat /\
       attempt_cell game_map r n = Some (x, y) /\
       Map.is_blocked game_map x y = Some false /\
       forall k, r' k = after_draws (2 * S n) r k) \/
      (n = 1000%nat /\
       x = Map.width game_map / 2 /\ y = Map.height game_map / 2 /\
       forall k, r' k = after_draws 2000 r k))) /\
  (Map.width game_map < 3 \/ Map.height game_map < 3 ->
   find_open_position game_map r = None).
Proof.
  intros Hwf. split.
  - intros Hw Hh.
    destruct (find_open_loop_spec game_map 1000 r Hwf Hw Hh)
      as (x & y & r' & n & Hrun & Hx & Hy & Hall & Hend).
    exists x, y, r', n. split; [exact Hrun|].
    split; [exact Hx|]. split; [exact Hy|]. split; [exact Hall|].
    destruct Hend as [Hfound|(Hn & Hcx & Hcy & Hr')]; [left; exact Hfound|].
    right. split; [exact Hn|]. split; [exact Hcx|]. split; [exact Hcy|].
    intros k. rewrite Hr', Hn. reflexivity.
  - intros Hsmall. unfold find_open_position. cbn [find_open_loop].
    destruct (Z_lt_le_dec (Map.width game_map) 3) as [Hw|Hw].
    + rewrite randint_empty by lia. reflexivity.
    + destruct (randint_range 1 (Map.width game_map - 2) r ltac:(lia))
        as (x & r1 & -> & _).
      cbn [mbind option_bind fst snd].
      rewrite randint_empty by lia. reflexivity.
Qed.

Lemma X16_find_open_position_inside_witness :
  let m := Map.mk 4 3 [[Wall; Wall; Wall; Wall]; [Wall; Wall; Floor; Wall];
                       [Wall; Wall; Wall; Wall]] in
  let r : Random.t := fun k => Z.of_nat (k / 4) in
  let cell res := option_map (fun res : Z * Z * Random.t =>
                                (fst (fst res), snd (fst res))) res in
  cell (find_open_position m r) = Some (2, 1) /\
  attempt_cell m r 0 = Some (1, 1) /\ Map.is_blocked m 1 1 = Some true /\
  attempt_cell m r 1 = Some (1, 1) /\
  attempt_cell m r 2 = Some (2, 1) /\ Map.is_blocked m 2 1 = Some false /\
  cell (find_open_position m (const_rng 0)) = Some (2, 1) /\
  attempt_cell m (const_rng 0) 999 = Some (1, 1) /\
  find_open_position (Map.mk 2 3 [[Wall; Wall]; [Wall; Wall]; [Wall; Wall]])
    (const_rng 0) = None.
Proof.
  cbv zeta.
  destruct (X16_find_open_position_inside
              (Map.mk 4 3 [[Wall; Wall; Wall; Wall]; [Wall; Wall; Floor; Wall];
                           [Wall; Wall; Wall; Wall]])
              (fun k => Z.of_nat (k / 4)))
    as [Hin _]; [split; [reflexivity | repeat constructor]|].
  destruct (Hin ltac:(cbn; lia) ltac:(cbn; lia)) as (x & y & r' & n & _).
  repeat split; vm_compute; reflexivity.
Defined.

(** ** Writing on the grid *)

Section GridWrites.

Variables w h : Z.

Lemma shaped_in_bounds m x y :
  shaped w h m -> 0 <= x < w -> 0 <= y < h -> Map.in_bounds m x y = true.
Proof. intros (_ & Hw & Hh) Hx Hy. apply in_bounds_spec. lia. Qed.

Lemma put_spec c x y m :
  shaped w h m -> 0 <= x < w -> 0 <= y < h ->
  exists m', MapGen.put c x y m = Some m' /\
    overwritten w h c (fun x' y' => (x' =? x) && (y' =? y)) m m'.
Proof.
  intros (Hwf & Hw & Hh) Hx Hy. unfold MapGen.put.
  unfold Map.wf in Hwf. rewrite Hw, Hh in Hwf.
  destruct (grid_set_in_range w h (Map.grid m) x y c Hwf Hx Hy)
    as (g' & -> & Hrect & Hown & Hother).
  cbn [mbind option_bind]. eexists. split; [reflexivity|]. split.
  - split; [|split; [exact Hw|exact Hh]].
    unfold Map.wf. cbn. rewrite Hw, Hh. exact Hrect.
  - intros x' y' Hx' Hy'. cbn [Map.grid Map.with_grid].
    destruct (Z.eqb_spec x' x) as [->|Hnx]; cbn [andb].
    + destruct (Z.eqb_spec y' y) as [->|Hny]; [exact Hown|].
      apply Hother; [lia|lia|congruence].
    + apply Hother; [lia|lia|congruence].
Qed.

Lemma overwritten_refl c m :
  shaped w h m -> overwritten w h c (fun _ _ => false) m m.
Proof. intros Hm. split; [exact Hm|reflexivity]. Qed.

Lemma overwritten_ext c hits hits' m m' :
  (forall x y, 0 <= x < w -> 0 <= y < h -> hits x y = hits' x y) ->
  overwritten w h c hits m m' -> overwritten w h c hits' m m'.
Proof.
  intros Hext [Hs Hget]. split; [exact Hs|].
  intros x y Hx Hy. rewrite <- Hext by assumption. apply Hget; assumption.
Qed.

Lemma overwritten_trans c hits1 hits2 m1 m2 m3 :
  overwritten w h c hits1 m1 m2 -> overwritten w h c hits2 m2 m3 ->
  overwritten w h c (fun x y => hits1 x y || hits2 x y) m1 m3.
Proof.
  intros [Hs1 H1] [Hs2 H2]. split; [exact Hs2|].
  intros x y Hx Hy. rewrite H2, H1 by assumption.
  destruct (hits1 x y), (hits2 x y); reflexivity.
Qed.

(** A loop whose every round writes the same cell. *)
Lemma for_each_overwrites {A} (body : A -> Map.t -> option Map.t)
    (hits : A -> Z -> Z -> bool) (c : cell) (l : list A) :
  (forall a m, a ∈ l -> shaped w h m ->
     exists m', body a m = Some m' /\ overwritten w h c (hits a) m m') ->
  forall m, shaped w h m ->
    exists m', Shoot.for_each body l m = Some m' /\
      overwritten w h c (fun x y => existsb (fun a => hits a x y) l) m m'.
Proof.
  induction l as [|a l IH]; intros Hbody m Hm.
  - exists m. split; [reflexivity|]. apply overwritten_refl, Hm.
  - destruct (Hbody a m ltac:(left) Hm) as (m1 & Hrun & Hover).
    destruct (IH (fun a' m' Ha' => Hbody a' m' ltac:(right; exact Ha')) m1
                ltac:(apply Hover)) as (m2 & Hrun2 & Hover2).
    exists m2. cbn [Shoot.for_each]. rewrite Hrun. cbn [mbind option_bind].
    split; [exact Hrun2|]. cbn [existsb].
    apply (overwritten_trans c _ _ m m1 m2 Hover Hover2).
Qed.

Lemma existsb_range (f : Z -> bool) a b :
  existsb f (Py.range a b) = true <-> exists i, a <= i < b /\ f i = true.
Proof.
  rewrite existsb_exists. split.
  - intros (i & Hi & Hf). exists i. split; [|exact Hf].
    apply elem_of_range, list_elem_of_In, Hi.
  - intros (i & Hi & Hf). exists i. split; [|exact Hf].
    apply list_elem_of_In, elem_of_range, Hi.
Qed.

End GridWrites.

(** ** Rooms and corridors *)

Section Rooms.

Variables w h : Z.

Ltac zbool :=
  repeat match goal with
         | |- context [?a <=? ?b] => destruct (Z.leb_spec a b)
         | |- context [?a <? ?b] => destruct (Z.ltb_spec a b)
         | |- context [?a =? ?b] => destruct (Z.eqb_spec a b)
         end;
  cbn; try reflexivity; try lia.

Lemma existsb_range_pick a c x (b : bool) :
  existsb (fun i => (x =? i) && b) (Py.range a c) = (a <=? x) && (x <? c) && b.
Proof.
  apply eq_true_iff_eq.
  rewrite existsb_range, !andb_true_iff, Z.leb_le, Z.ltb_lt. split.
  - intros (i & Hi & Hf). apply andb_true_iff in Hf as [Hx Hb].
    apply Z.eqb_eq in Hx. subst. auto.
  - intros [[H1 H2] Hb]. exists x. rewrite Z.eqb_refl. auto.
Qed.

Lemma inner_shaped m x y :
  shaped w h m ->
  MapGen.inner m x y = (0 <? x) && (x <? w - 1) && (0 <? y) && (y <? h - 1).
Proof. intros (_ & Hw & Hh). unfold MapGen.inner. rewrite Hw, Hh. reflexivity. Qed.

(** Two writes of the same cell in a row. *)
Lemma put_twice c xa ya xb yb m :
  shaped w h m -> 0 <= xa < w -> 0 <= ya < h -> 0 <= xb < w -> 0 <= yb < h ->
  exists m', (m1 ← MapGen.put c xa ya m; MapGen.put c xb yb m1) = Some m' /\
    overwritten w h c
      (fun x y => (x =? xa) && (y =? ya) || (x =? xb) && (y =? yb)) m m'.
Proof.
  intros Hm Hxa Hya Hxb Hyb.
  destruct (put_spec w h c xa ya m Hm Hxa Hya) as (m1 & -> & H1).
  cbn [mbind option_bind].
  destruct (put_spec w h c xb yb m1 ltac:(apply H1) Hxb Hyb) as (m2 & -> & H2).
  exists m2. split; [reflexivity|].
  apply (overwritten_trans w h c _ _ m m1 m2 H1 H2).
Qed.

Lemma create_room_spec x1 y1 x2 y2 m :
  shaped w h m -> room_fits w h ((x1, y1), (x2, y2)) ->
  exists m', MapGen.create_room ((x1, y1), (x2, y2)) m = Some m' /\
    shaped w h m' /\
    forall x y, 0 <= x < w -> 0 <= y < h ->
      grid_get (Map.grid m') x y
      = if in_rect ((x1, y1), (x2, y2)) x y
        then Some (if on_rim ((x1, y1), (x2, y2)) x y then Wall else Floor)
        else grid_get (Map.grid m) x y.
Proof.
  intros Hm (Hx1 & Hwd & Hx2 & Hy1 & Hht & Hy2). unfold MapGen.create_room.
  (* the floor *)
  destruct (for_each_overwrites w h
              (fun y => Shoot.for_each
                 (fun x m => if MapGen.inner m x y then MapGen.put Floor x y m
                             else Some m) (Py.range x1 x2))
              (fun y0 x y => (y =? y0) && ((x1 <=? x) && (x <? x2)))
              Floor (Py.range y1 y2)) with (m := m) as (m1 & -> & Hfloor);
    [|exact Hm|].
  { intros y0 m0 Hy0 Hm0. apply elem_of_range in Hy0.
    destruct (for_each_overwrites w h
                (fun x m => if MapGen.inner m x y0 then MapGen.put Floor x y0 m
                            else Some m)
                (fun x0 x y => (x =? x0) && (y =? y0))
                Floor (Py.range x1 x2)) with (m := m0) as (m' & Hrun & Hover);
      [|exact Hm0|].
    - intros x0 m' Hx0 Hm'. apply elem_of_range in Hx0.
      rewrite (inner_shaped m' x0 y0 Hm').
      replace ((0 <? x0) && (x0 <? w - 1) && (0 <? y0) && (y0 <? h - 1))
        with true by (symmetry; zbool).
      apply put_spec; [exact Hm'|lia|lia].
    - exists m'. split; [exact Hrun|].
      eapply overwritten_ext; [|exact Hover].
      intros x y _ _. cbn beta. rewrite existsb_range_pick. zbool. }
  cbn [mbind option_bind].
  (* the rim, above and below *)
  destruct (for_each_overwrites w h
              (fun x m =>
                 if (0 <? y1) && (y1 <? Map.height m - 1)
                 then m ← MapGen.put Wall x y1 m; MapGen.put Wall x (y2 - 1) m
                 else Some m)
              (fun x0 x y => (x =? x0) && ((y =? y1) || (y =? y2 - 1)))
              Wall (Py.range x1 x2)) with (m := m1) as (m2 & -> & Hrows);
    [|apply Hfloor|].
  { intros x0 m0 Hx0 Hm0. apply elem_of_range in Hx0.
    destruct Hm0 as (Hwf0 & Hw0 & Hh0). rewrite Hh0.
    replace ((0 <? y1) && (y1 <? h - 1)) with true by (symmetry; zbool).
    destruct (put_twice Wall x0 y1 x0 (y2 - 1) m0) as (m' & Hrun & Hover);
      [split; auto|lia|lia|lia|lia|].
    exists m'. split; [exact Hrun|].
    eapply overwritten_ext; [|exact Hover].
    intros x y _ _. cbn beta. zbool. }
  cbn [mbind option_bind].
  (* the rim, left and right *)
  destruct (for_each_overwrites w h
              (fun y m =>
                 if (0 <? x1) && (x1 <? Map.width m - 1)
                 then m ← MapGen.put Wall x1 y m; MapGen.put Wall (x2 - 1) y m
                 else Some m)
              (fun y0 x y => (y =? y0) && ((x =? x1) || (x =? x2 - 1)))
              Wall (Py.range y1 y2)) with (m := m2) as (m3 & -> & Hcols);
    [|apply Hrows|].
  { intros y0 m0 Hy0 Hm0. apply elem_of_range in Hy0.
    destruct Hm0 as (Hwf0 & Hw0 & Hh0). rewrite Hw0.
    replace ((0 <? x1) && (x1 <? w - 1)) with true by (symmetry; zbool).
    destruct (put_twice Wall x1 y0 (x2 - 1) y0 m0) as (m' & Hrun & Hover);
      [split; auto|lia|lia|lia|lia|].
    exists m'. split; [exact Hrun|].
    eapply overwritten_ext; [|exact Hover].
    intros x y _ _. cbn beta. zbool. }
  exists m3. split; [reflexivity|]. split; [apply Hcols|].
  intros x y Hx Hy.
  destruct Hfloor as [_ Hfloor], Hrows as [_ Hrows], Hcols as [_ Hcols].
  rewrite (Hcols x y Hx Hy), (Hrows x y Hx Hy), (Hfloor x y Hx Hy).
  rewrite !existsb_range_pick. unfold in_rect, on_rim. zbool.
Qed.

Lemma center_inside x1 y1 x2 y2 :
  room_fits w h ((x1, y1), (x2, y2)) ->
  x1 + 2 <= fst (MapGen.center ((x1, y1), (x2, y2))) <= x2 - 2 /\
  y1 + 2 <= snd (MapGen.center ((x1, y1), (x2, y2))) <= y2 - 2.
Proof.
  intros (Hx1 & Hwd & Hx2 & Hy1 & Hht & Hy2). cbn [MapGen.center fst snd].
  Z.div_mod_to_equations. lia.
Qed.

Lemma center_inner rm :
  room_fits w h rm ->
  0 < fst (MapGen.center rm) < w - 1 /\ 0 < snd (MapGen.center rm) < h - 1.
Proof.
  destruct rm as [[x1 y1] [x2 y2]]. intros Hfit.
  pose proof (center_inside x1 y1 x2 y2 Hfit).
  destruct Hfit as (Hx1 & Hwd & Hx2 & Hy1 & Hht & Hy2). lia.
Qed.

Lemma connect_rooms_spec room1 room2 m :
  shaped w h m -> room_fits w h room1 -> room_fits w h room2 ->
  exists m', MapGen.connect_rooms room1 room2 m = Some m' /\
    shaped w h m' /\
    forall x y, 0 <= x < w -> 0 <= y < h ->
      grid_get (Map.grid m') x y
      = if on_corridor room1 room2 x y then Some Floor
        else grid_get (Map.grid m) x y.
Proof.
  intros Hm Hfit1 Hfit2. unfold MapGen.connect_rooms, on_corridor.
  pose proof (center_inner room1 Hfit1) as [Hcx1 Hcy1].
  pose proof (center_inner room2 Hfit2) as [Hcx2 Hcy2].
  destruct (MapGen.center room1) as [cx1 cy1].
  destruct (MapGen.center room2) as [cx2 cy2]. cbn [fst snd] in *.
  destruct (for_each_overwrites w h
              (fun x m =>
                 if (0 <? x) && (x <? Map.width m - 1)
                    && (0 <? cy1) && (cy1 <? Map.height m - 1)
                 then MapGen.put Floor x cy1 m else Some m)
              (fun x0 x y => (x =? x0) && (y =? cy1))
              Floor (Py.range (Z.min cx1 cx2) (Z.max cx1 cx2 + 1)))
    with (m := m) as (m1 & -> & Hrow); [|exact Hm|].
  { intros x0 m0 Hx0 Hm0. apply elem_of_range in Hx0.
    pose proof Hm0 as (_ & Hw0 & Hh0). rewrite Hw0, Hh0.
    replace ((0 <? x0) && (x0 <? w - 1) && (0 <? cy1) && (cy1 <? h - 1))
      with true by (symmetry; zbool).
    apply put_spec; [exact Hm0|lia|lia]. }
  cbn [mbind option_bind].
  destruct (for_each_overwrites w h
              (fun y m =>
                 if (0 <? cx2) && (cx2 <? Map.width m - 1)
                    && (0 <? y) && (y <? Map.height m - 1)
                 then MapGen.put Floor cx2 y m else Some m)
              (fun y0 x y => (y =? y0) && (x =? cx2))
              Floor (Py.range (Z.min cy1 cy2) (Z.max cy1 cy2 + 1)))
    with (m := m1) as (m2 & -> & Hcol); [|apply Hrow|].
  { intros y0 m0 Hy0 Hm0. apply elem_of_range in Hy0.
    pose proof Hm0 as (_ & Hw0 & Hh0). rewrite Hw0, Hh0.
    replace ((0 <? cx2) && (cx2 <? w - 1) && (0 <? y0) && (y0 <? h - 1))
      with true by (symmetry; zbool).
    destruct (put_spec w h Floor cx2 y0 m0 Hm0) as (m' & Hrun & Hover);
      [lia|lia|].
    exists m'. split; [exact Hrun|].
    eapply overwritten_ext; [|exact Hover].
    intros x y _ _. cbn beta. zbool. }
  exists m2. split; [reflexivity|]. split; [apply Hcol|].
  intros x y Hx Hy. destruct Hrow as [_ Hrow], Hcol as [_ Hcol].
  rewrite (Hcol x y Hx Hy), (Hrow x y Hx Hy), !existsb_range_pick.
  zbool.
Qed.

End Rooms.

(** ** Walks *)

Section Walks.

Variable m : Map.t.

Lemma walk_open a b : walk m a b -> open_at m a /\ open_at m b.
Proof.
  induction 1 as [p Hp|p q s Hp _ _ [_ IH]]; auto.
Qed.

Lemma walk_trans a b c : walk m a b -> walk m b c -> walk m a c.
Proof.
  induction 1 as [p Hp|p q s Hp Hadj _ IH]; intros Hbc; [exact Hbc|].
  apply (walk_step m p q c Hp Hadj). apply IH, Hbc.
Qed.

Lemma adjacent_sym a b : adjacent a b -> adjacent b a.
Proof. unfold adjacent. lia. Qed.

Lemma walk_sym a b : walk m a b -> walk m b a.
Proof.
  induction 1 as [p Hp|p q s Hp Hadj Hqs IH]; [apply walk_here, Hp|].
  apply (walk_trans s q p IH).
  apply (walk_step m q p p); [apply (walk_open q s Hqs)|apply adjacent_sym, Hadj|].
  apply walk_here, Hp.
Qed.

(** Along a row, and along a column. *)
Lemma walk_right y : forall (k : nat) x,
  (forall i, x <= i <= x + Z.of_nat k -> open_at m (i, y)) ->
  walk m (x, y) (x + Z.of_nat k, y).
Proof.
  induction k as [|k IH]; intros x Hopen.
  - replace (x + Z.of_nat 0) with x by lia. apply walk_here, Hopen. lia.
  - apply (walk_step m (x, y) (x + 1, y)).
    + apply Hopen. lia.
    + unfold adjacent. cbn. lia.
    + replace (x + Z.of_nat (S k)) with (x + 1 + Z.of_nat k) by lia.
      apply IH. intros i Hi. apply Hopen. lia.
Qed.

Lemma walk_down x : forall (k : nat) y,
  (forall i, y <= i <= y + Z.of_nat k -> open_at m (x, i)) ->
  walk m (x, y) (x, y + Z.of_nat k).
Proof.
  induction k as [|k IH]; intros y Hopen.
  - replace (y + Z.of_nat 0) with y by lia. apply walk_here, Hopen. lia.
  - apply (walk_step m (x, y) (x, y + 1)).
    + apply Hopen. lia.
    + unfold adjacent. cbn. lia.
    + replace (y + Z.of_nat (S k)) with (y + 1 + Z.of_nat k) by lia.
      apply IH. intros i Hi. apply Hopen. lia.
Qed.

Lemma walk_row y xa xb :
  (forall i, Z.min xa xb <= i <= Z.max xa xb -> open_at m (i, y)) ->
  walk m (xa, y) (xb, y).
Proof.
  intros Hopen. destruct (Z_le_gt_dec xa xb) as [Hle|Hgt].
  - replace xb with (xa + Z.of_nat (Z.to_nat (xb - xa))) by lia.
    apply walk_right. intros i Hi. apply Hopen. lia.
  - apply walk_sym. pose (k := Z.to_nat (xa - xb)).
    replace xa with (xb + Z.of_nat k) by lia.
    apply walk_right. intros i Hi. apply Hopen. lia.
Qed.

Lemma walk_column x ya yb :
  (forall i, Z.min ya yb <= i <= Z.max ya yb -> open_at m (x, i)) ->
  walk m (x, ya) (x, yb).
Proof.
  intros Hopen. destruct (Z_le_gt_dec ya yb) as [Hle|Hgt].
  - replace yb with (ya + Z.of_nat (Z.to_nat (yb - ya))) by lia.
    apply walk_down. intros i Hi. apply Hopen. lia.
  - apply walk_sym. pose (k := Z.to_nat (ya - yb)).
    replace ya with (yb + Z.of_nat k) by lia.
    apply walk_down. intros i Hi. apply Hopen. lia.
Qed.

End Walks.

Lemma walk_mono m m' a b :
  (forall p, open_at m p -> open_at m' p) -> walk m a b -> walk m' a b.
Proof.
  intros Hsub. induction 1 as [p Hp|p q s Hp Hadj _ IH].
  - apply walk_here, Hsub, Hp.
  - apply (walk_step m' p q s); auto.
Qed.

(** ** Digging the dungeon *)

Section Digging.

Variables w h : Z.
Hypothesis Hw : 10 <= w.
Hypothesis Hh : 8 <= h.

Lemma blank_drawn m0 :
  Map.width m0 = w -> Map.height m0 = h ->
  drawn w h (fun _ _ => false)
    (Map.with_grid m0 (replicate (Z.to_nat h) (replicate (Z.to_nat w) Wall))).
Proof.
  intros Hw0 Hh0.
  assert (Hrect : Map.rect w h (replicate (Z.to_nat h) (replicate (Z.to_nat w) Wall))).
  { split; [rewrite length_replicate; lia|].
    apply Forall_forall. intros row Hrow.
    apply elem_of_replicate in Hrow as [-> _]. rewrite length_replicate. lia. }
  split.
  - split; [|split; [exact Hw0|exact Hh0]].
    unfold Map.wf. cbn. rewrite Hw0, Hh0. exact Hrect.
  - intros x y Hx Hy. cbn [Map.grid Map.with_grid]. unfold grid_get.
    rewrite index_nonneg by lia.
    rewrite lookup_replicate_2 by lia. cbn [mbind option_bind].
    rewrite index_nonneg by lia. rewrite lookup_replicate_2 by lia. reflexivity.
Qed.

Lemma overlap_apart rm old x y :
  MapGen.room_overlap rm old = false ->
  in_rect rm x y = true -> in_rect old x y = false.
Proof.
  destruct rm as [[x1 y1] [x2 y2]], old as [[x3 y3] [x4 y4]].
  unfold MapGen.room_overlap, in_rect. intros Hov Hin.
  apply negb_false_iff in Hov.
  rewrite !andb_true_iff, !Z.leb_le, !Z.ltb_lt in Hin.
  rewrite !orb_true_iff, !Z.leb_le in Hov.
  rewrite !andb_false_iff, !Z.leb_gt, !Z.ltb_ge. lia.
Qed.

Lemma place_rooms_spec : forall attempts rooms m r,
  drawn w h (on_floors rooms) m -> Forall (room_fits w h) rooms ->
  exists rooms' m' r',
    MapGen.place_rooms attempts rooms m r = Some (rooms', m', r') /\
    drawn w h (on_floors rooms') m' /\ Forall (room_fits w h) rooms'.
Proof.
  induction attempts as [|k IH]; intros rooms m r Hdrawn Hfits.
  - exists rooms, m, r. auto.
  - cbn [MapGen.place_rooms].
    destruct (Z.of_nat (length rooms) <? 5); [|exists rooms, m, r; auto].
    pose proof Hdrawn as [(Hwf & Hwm & Hhm) Hget].
    destruct (randint_range 4 8 r ltac:(lia)) as (wd & r1 & -> & Hwd).
    cbn [mbind option_bind fst snd].
    destruct (randint_range 4 6 r1 ltac:(lia)) as (ht & r2 & -> & Hht).
    cbn [mbind option_bind fst snd]. rewrite Hwm, Hhm.
    destruct (randint_range 1 (w - wd - 1) r2 ltac:(lia)) as (x & r3 & -> & Hx).
    cbn [mbind option_bind fst snd].
    destruct (randint_range 1 (h - ht - 1) r3 ltac:(lia)) as (y & r4 & -> & Hy).
    cbn [mbind option_bind fst snd].
    destruct (existsb _ rooms) eqn:Hover; [apply IH; assumption|].
    assert (Hfit : room_fits w h ((x, y), (x + wd, y + ht)))
      by (unfold room_fits; lia).
    destruct (create_room_spec w h x y (x + wd) (y + ht) m
                ltac:(apply Hdrawn) Hfit) as (m' & -> & Hshaped & Hget').
    cbn [mbind option_bind]. apply IH.
    + split; [exact Hshaped|]. intros x' y' Hx' Hy'.
      rewrite (Hget' x' y' Hx' Hy'), (Hget x' y' Hx' Hy').
      unfold on_floors. rewrite existsb_app. cbn [existsb].
      rewrite orb_false_r.
      change (on_floor (x, y, (x + wd, y + ht)) x' y')
        with (in_rect (x, y, (x + wd, y + ht)) x' y'
              && negb (on_rim (x, y, (x + wd, y + ht)) x' y')).
      destruct (in_rect ((x, y), (x + wd, y + ht)) x' y') eqn:Hin;
        cbn [andb]; [|rewrite orb_false_r; reflexivity].
      assert (Hold : existsb (fun rm => on_floor rm x' y') rooms = false).
      { apply not_true_is_false. intros Hold.
        apply existsb_exists in Hold as (old & Hold & Hfloor).
        assert (Hov : MapGen.room_overlap ((x, y), (x + wd, y + ht)) old = false).
        { apply not_true_is_false. intros Hov.
          assert (existsb (MapGen.room_overlap ((x, y), (x + wd, y + ht))) rooms
                  = true) by (apply existsb_exists; eauto).
          congruence. }
        pose proof (overlap_apart _ old x' y' Hov Hin) as Hout.
        unfold on_floor in Hfloor. rewrite Hout in Hfloor. discriminate. }
      rewrite Hold. cbn [orb].
      destruct (on_rim _ x' y'); reflexivity.
    + apply Forall_app. split; [exact Hfits|]. constructor; [exact Hfit|constructor].
Qed.

Lemma connect_all_spec : forall rooms dug m,
  Forall (room_fits w h) rooms -> drawn w h dug m ->
  exists m', MapGen.connect_all rooms m = Some m' /\
    drawn w h (fun x y => dug x y || on_corridors rooms x y) m'.
Proof.
  induction rooms as [|room1 rooms IH]; intros dug m Hfits Hdrawn.
  - exists m. split; [reflexivity|]. destruct Hdrawn as [Hs Hget].
    split; [exact Hs|]. intros x y Hx Hy. cbn. rewrite orb_false_r. auto.
  - destruct rooms as [|room2 rest].
    + exists m. split; [reflexivity|]. destruct Hdrawn as [Hs Hget].
      split; [exact Hs|]. intros x y Hx Hy. cbn. rewrite orb_false_r. auto.
    + apply Forall_cons in Hfits as [Hfit1 Hfits].
      pose proof Hfits as Hfits'. apply Forall_cons in Hfits' as [Hfit2 _].
      destruct (connect_rooms_spec w h room1 room2 m ltac:(apply Hdrawn)
                  Hfit1 Hfit2) as (m1 & Hrun & Hshaped & Hget1).
      destruct (IH (fun x y => dug x y || on_corridor room1 room2 x y) m1 Hfits)
        as (m2 & Hrun2 & Hdrawn2).
      { split; [exact Hshaped|]. intros x y Hx Hy.
        rewrite (Hget1 x y Hx Hy). destruct Hdrawn as [_ Hget].
        rewrite (Hget x y Hx Hy).
        destruct (dug x y), (on_corridor room1 room2 x y); reflexivity. }
      exists m2. cbn [MapGen.connect_all]. rewrite Hrun.
      cbn [mbind option_bind]. split; [exact Hrun2|].
      destruct Hdrawn2 as [Hs2 Hget2]. split; [exact Hs2|].
      intros x y Hx Hy. rewrite (Hget2 x y Hx Hy).
      cbn [on_corridors]. rewrite orb_assoc. reflexivity.
Qed.

End Digging.

(** ** The dungeon of rooms is connected *)

Section RoomsConnected.

Variables w h : Z.
Variable m : Map.t.

Ltac zprop :=
  repeat match goal with
         | H : _ && _ = true |- _ => apply andb_true_iff in H as [? ?]
         | H : _ || _ = true |- _ => apply orb_true_iff in H as [?|?]
         | H : negb _ = true |- _ => apply negb_true_iff in H
         | H : _ || _ = false |- _ => apply orb_false_iff in H as [? ?]
         | H : (_ <=? _) = true |- _ => apply Z.leb_le in H
         | H : (_ <? _) = true |- _ => apply Z.ltb_lt in H
         | H : (_ =? _) = true |- _ => apply Z.eqb_eq in H
         | H : (_ =? _) = false |- _ => apply Z.eqb_neq in H
         end.

Lemma on_floors_cons rm rooms x y :
  on_floors (rm :: rooms) x y = on_floor rm x y || on_floors rooms x y.
Proof. reflexivity. Qed.

Lemma on_corridors_cons room1 room2 rest x y :
  on_corridors (room1 :: room2 :: rest) x y
  = on_corridor room1 room2 x y || on_corridors (room2 :: rest) x y.
Proof. reflexivity. Qed.

Lemma open_drawn dug x y :
  drawn w h dug m ->
  open_at m (x, y) <-> (0 <= x < w /\ 0 <= y < h) /\ dug x y = true.
Proof.
  intros [(Hwf & Hwm & Hhm) Hget]. unfold open_at, Map.is_blocked. cbn [fst snd].
  destruct (Map.in_bounds m x y) eqn:Hb; cbn [negb].
  - apply in_bounds_spec in Hb. rewrite Hwm, Hhm in Hb.
    rewrite (Hget x y) by lia. cbn [mbind option_bind].
    destruct (dug x y); cbn; split; intros; try tauto; try discriminate.
    destruct H as [_ H]. discriminate.
  - split; [discriminate|]. intros [Hin _].
    assert (Map.in_bounds m x y = true) by (apply in_bounds_spec; lia).
    congruence.
Qed.

Lemma floor_inside rm x y :
  room_fits w h rm -> on_floor rm x y = true -> 0 < x < w - 1 /\ 0 < y < h - 1.
Proof.
  destruct rm as [[x1 y1] [x2 y2]].
  intros (Hx1 & Hwd & Hx2 & Hy1 & Hht & Hy2).
  unfold on_floor, in_rect, on_rim. intros Hon. zprop. lia.
Qed.

Lemma corridor_inside room1 room2 x y :
  room_fits w h room1 -> room_fits w h room2 ->
  on_corridor room1 room2 x y = true -> 0 < x < w - 1 /\ 0 < y < h - 1.
Proof.
  destruct room1 as [[x1 y1] [x2 y2]], room2 as [[x3 y3] [x4 y4]].
  intros Hfit1 Hfit2.
  pose proof (center_inside w h x1 y1 x2 y2 Hfit1) as [Hcx1 Hcy1].
  pose proof (center_inside w h x3 y3 x4 y4 Hfit2) as [Hcx2 Hcy2].
  destruct Hfit1 as (? & ? & ? & ? & ? & ?), Hfit2 as (? & ? & ? & ? & ? & ?).
  unfold on_corridor.
  destruct (MapGen.center (x1, y1, (x2, y2))) as [cx1 cy1].
  destruct (MapGen.center (x3, y3, (x4, y4))) as [cx2 cy2].
  cbn [fst snd] in *. intros Hon. zprop; lia.
Qed.

Lemma covered_inside : forall rooms x y,
  Forall (room_fits w h) rooms ->
  on_floors rooms x y || on_corridors rooms x y = true ->
  0 < x < w - 1 /\ 0 < y < h - 1.
Proof.
  induction rooms as [|room0 rooms IH]; intros x y Hfits Hcov; [discriminate|].
  apply Forall_cons in Hfits as [Hfit0 Hfits].
  rewrite on_floors_cons in Hcov.
  destruct (on_floor room0 x y) eqn:Hf0;
    [apply (floor_inside room0 x y Hfit0 Hf0)|].
  destruct rooms as [|room1 rest]; [discriminate|].
  rewrite on_corridors_cons in Hcov.
  destruct (on_corridor room0 room1 x y) eqn:Hc.
  - apply Forall_cons in Hfits as [Hfit1 _].
    apply (corridor_inside room0 room1 x y Hfit0 Hfit1 Hc).
  - apply (IH x y Hfits).
    cbn [orb] in Hcov. exact Hcov.
Qed.

Lemma floor_walk x1 y1 x2 y2 px py qx qy :
  (forall x y, on_floor ((x1, y1), (x2, y2)) x y = true -> open_at m (x, y)) ->
  on_floor ((x1, y1), (x2, y2)) px py = true ->
  on_floor ((x1, y1), (x2, y2)) qx qy = true ->
  walk m (px, py) (qx, qy).
Proof.
  unfold on_floor, in_rect, on_rim. intros Hopen Hp Hq. zprop.
  apply (walk_trans m _ (qx, py)).
  - apply walk_row. intros i Hi. apply Hopen.
    rewrite !andb_true_iff, negb_true_iff, !orb_false_iff,
      !Z.leb_le, !Z.ltb_lt, !Z.eqb_neq. lia.
  - apply walk_column. intros i Hi. apply Hopen.
    rewrite !andb_true_iff, negb_true_iff, !orb_false_iff,
      !Z.leb_le, !Z.ltb_lt, !Z.eqb_neq. lia.
Qed.

Lemma center_on_floor rm :
  room_fits w h rm ->
  on_floor rm (fst (MapGen.center rm)) (snd (MapGen.center rm)) = true.
Proof.
  destruct rm as [[x1 y1] [x2 y2]]. intros Hfit.
  pose proof (center_inside w h x1 y1 x2 y2 Hfit) as [Hx Hy].
  unfold on_floor, in_rect, on_rim.
  rewrite !andb_true_iff, negb_true_iff, !orb_false_iff,
    !Z.leb_le, !Z.ltb_lt, !Z.eqb_neq. lia.
Qed.

Lemma corridor_walk room1 room2 x y :
  (forall x y, on_corridor room1 room2 x y = true -> open_at m (x, y)) ->
  on_corridor room1 room2 x y = true ->
  walk m (x, y) (MapGen.center room1).
Proof.
  unfold on_corridor.
  destruct (MapGen.center room1) as [cx1 cy1].
  destruct (MapGen.center room2) as [cx2 cy2]. intros Hopen Hon.
  assert (Hrow : forall i, Z.min cx1 cx2 <= i <= Z.max cx1 cx2 ->
                           open_at m (i, cy1)).
  { intros i Hi. apply Hopen.
    rewrite orb_true_iff, !andb_true_iff, !Z.leb_le, !Z.eqb_eq. lia. }
  assert (Hcol : forall i, Z.min cy1 cy2 <= i <= Z.max cy1 cy2 ->
                           open_at m (cx2, i)).
  { intros i Hi. apply Hopen.
    rewrite orb_true_iff, !andb_true_iff, !Z.leb_le, !Z.eqb_eq. lia. }
  zprop; subst.
  - apply walk_row. intros i Hi. apply Hrow. lia.
  - apply (walk_trans m _ (cx2, cy1)).
    + apply walk_column. intros i Hi. apply Hcol. lia.
    + apply walk_row. intros i Hi. apply Hrow. lia.
Qed.

Lemma center_on_corridor room1 room2 :
  on_corridor room1 room2 (fst (MapGen.center room2)) (snd (MapGen.center room2))
  = true.
Proof.
  unfold on_corridor.
  destruct (MapGen.center room1) as [cx1 cy1].
  destruct (MapGen.center room2) as [cx2 cy2]. cbn [fst snd].
  rewrite orb_true_iff, !andb_true_iff, !Z.leb_le, !Z.eqb_eq. lia.
Qed.

(** Every cell of a floor or of a corridor is linked to the centre of the
    first room. *)
Lemma hub_walk : forall rooms room0,
  Forall (room_fits w h) (room0 :: rooms) ->
  (forall x y, on_floors (room0 :: rooms) x y
               || on_corridors (room0 :: rooms) x y = true ->
               open_at m (x, y)) ->
  forall x y, on_floors (room0 :: rooms) x y
              || on_corridors (room0 :: rooms) x y = true ->
              walk m (x, y) (MapGen.center room0).
Proof.
  induction rooms as [|room1 rest IH]; intros room0 Hfits Hopen x y Hcov;
    apply Forall_cons in Hfits as [Hfit0 Hfits];
    pose proof (center_on_floor room0 Hfit0) as Hcen.
  - cbn in Hcov. rewrite !orb_false_r in Hcov.
    destruct room0 as [[x1 y1] [x2 y2]].
    rewrite (surjective_pairing (MapGen.center _)).
    apply (floor_walk x1 y1 x2 y2); [|exact Hcov|exact Hcen].
    intros x' y' Hf. apply Hopen. rewrite on_floors_cons, Hf. reflexivity.
  - assert (Hopen0 : forall x y, on_floor room0 x y = true -> open_at m (x, y)).
    { intros x' y' Hf. apply Hopen. rewrite on_floors_cons, Hf. reflexivity. }
    assert (Hopen01 : forall x y, on_corridor room0 room1 x y = true ->
                                  open_at m (x, y)).
    { intros x' y' Hf. apply Hopen. rewrite on_corridors_cons, Hf.
      apply orb_true_r. }
    assert (Hopen1 : forall x y, on_floors (room1 :: rest) x y
                                 || on_corridors (room1 :: rest) x y = true ->
                                 open_at m (x, y)).
    { intros x' y' Hf. apply Hopen.
      rewrite on_floors_cons, on_corridors_cons.
      apply orb_true_iff in Hf as [Hf|Hf]; rewrite Hf;
        rewrite ?orb_true_r; reflexivity. }
    rewrite on_floors_cons, on_corridors_cons in Hcov.
    assert (Hcase : on_floor room0 x y = true \/
                    on_corridor room0 room1 x y = true \/
                    on_floors (room1 :: rest) x y
                    || on_corridors (room1 :: rest) x y = true).
    { destruct (on_floor room0 x y); [auto|].
      destruct (on_corridor room0 room1 x y); [auto|].
      right. right. cbn [orb] in Hcov. exact Hcov. }
    destruct Hcase as [Hf|[Hc|Hrest]].
    + destruct room0 as [[x1 y1] [x2 y2]].
      rewrite (surjective_pairing (MapGen.center _)).
      apply (floor_walk x1 y1 x2 y2); assumption.
    + apply (corridor_walk room0 room1 x y Hopen01 Hc).
    + apply (walk_trans m _ (MapGen.center room1)).
      * apply (IH room1 Hfits Hopen1 x y Hrest).
      * rewrite (surjective_pairing (MapGen.center room1)).
        apply (corridor_walk room0 room1 _ _ Hopen01).
        apply center_on_corridor.
Qed.

Lemma drawn_connected rooms :
  Forall (room_fits w h) rooms ->
  drawn w h (fun x y => on_floors rooms x y || on_corridors rooms x y) m ->
  connected m.
Proof.
  intros Hfits Hdrawn [ax ay] [bx by_] Ha Hb.
  apply (open_drawn _ ax ay Hdrawn) in Ha as [_ Ha].
  apply (open_drawn _ bx by_ Hdrawn) in Hb as [_ Hb].
  destruct rooms as [|room0 rooms]; [discriminate Ha|].
  assert (Hopen : forall x y, on_floors (room0 :: rooms) x y
                              || on_corridors (room0 :: rooms) x y = true ->
                              open_at m (x, y)).
  { intros x y Hcov. apply (open_drawn _ x y Hdrawn). split; [|exact Hcov].
    pose proof (covered_inside (room0 :: rooms) x y Hfits Hcov). lia. }
  apply (walk_trans m _ (MapGen.center room0)).
  - apply (hub_walk rooms room0 Hfits Hopen ax ay Ha).
  - apply walk_sym. apply (hub_walk rooms room0 Hfits Hopen bx by_ Hb).
Qed.

End RoomsConnected.

(** ** Painting the terrain *)

Section Painting.

Variables w h : Z.

Lemma for_each_keeps {A S} (body : A -> S -> option S) (I : S -> Prop)
    (l : list A) :
  (forall a s, a ∈ l -> I s -> exists s', body a s = Some s' /\ I s') ->
  forall s, I s -> exists s', Shoot.for_each body l s = Some s' /\ I s'.
Proof.
  induction l as [|a l IH]; intros Hbody s Hs.
  - exists s. split; [reflexivity|exact Hs].
  - destruct (Hbody a s ltac:(left) Hs) as (s1 & Hrun & Hs1).
    destruct (IH (fun a' s' Ha' => Hbody a' s' ltac:(right; exact Ha')) s1 Hs1)
      as (s2 & Hrun2 & Hs2).
    exists s2. split; [|exact Hs2].
    cbn [Shoot.for_each]. rewrite Hrun. exact Hrun2.
Qed.

Lemma terrain_of_open u : cell_eqb (MapGen.terrain_of u) Wall = false.
Proof.
  unfold MapGen.terrain_of.
  repeat match goal with
         | |- context [if ?b then _ else _] => destruct b
         end; reflexivity.
Qed.

(** Painting a cell leaves walls walls and open cells open. *)
Lemma paint_cell_spec m0 x y s :
  0 <= x < w -> 0 <= y < h ->
  shaped w h (fst s) /\
  (forall x' y', Map.is_blocked (fst s) x' y' = Map.is_blocked m0 x' y') ->
  exists s', MapGen.paint_cell y x s = Some s' /\
    shaped w h (fst s') /\
    (forall x' y', Map.is_blocked (fst s') x' y' = Map.is_blocked m0 x' y').
Proof.
  destruct s as [m r]. cbn [fst]. intros Hx Hy [Hm Hsame].
  unfold MapGen.paint_cell.
  pose proof Hm as (Hwf & Hwm & Hhm).
  assert (Hrect : Map.rect w h (Map.grid m)).
  { unfold Map.wf in Hwf. rewrite Hwm, Hhm in Hwf. exact Hwf. }
  destruct (grid_get_in_range w h (Map.grid m) x y Hrect Hx Hy) as [c Hc].
  rewrite Hc. cbn [mbind option_bind].
  destruct (cell_eqb c Floor) eqn:Hfloor;
    [|exists (m, r); split; [reflexivity|split; assumption]].
  assert (c = Floor) as -> by (destruct c; try discriminate; reflexivity).
  destruct (Random.random r) as [u r1].
  destruct (put_spec w h (MapGen.terrain_of u) x y m Hm Hx Hy)
    as (m1 & -> & Hm1 & Hget).
  cbn [mbind option_bind]. exists (m1, r1). split; [reflexivity|].
  cbn [fst]. split; [exact Hm1|].
  intros x' y'. rewrite <- Hsame.
  destruct Hm1 as (_ & Hwm1 & Hhm1).
  unfold Map.is_blocked, Map.in_bounds. rewrite Hwm, Hhm, Hwm1, Hhm1.
  destruct ((0 <=? x') && (x' <? w) && (0 <=? y') && (y' <? h)) eqn:Hb;
    [|reflexivity].
  cbn [negb].
  rewrite !andb_true_iff, !Z.leb_le, !Z.ltb_lt in Hb.
  rewrite (Hget x' y') by lia.
  destruct ((x' =? x) && (y' =? y)) eqn:Hhit; [|reflexivity].
  apply andb_true_iff in Hhit as [Hx' Hy'].
  apply Z.eqb_eq in Hx', Hy'. subst x' y'. rewrite Hc.
  cbn [mbind option_bind]. rewrite terrain_of_open. reflexivity.
Qed.

Lemma paint_spec m r :
  shaped w h m ->
  exists m' r', MapGen.paint m r = Some (m', r') /\
    shaped w h m' /\
    forall x y, Map.is_blocked m' x y = Map.is_blocked m x y.
Proof.
  intros Hm. pose proof Hm as (_ & Hwm & Hhm). unfold MapGen.paint.
  rewrite Hwm, Hhm.
  destruct (for_each_keeps
              (fun y => Shoot.for_each (MapGen.paint_cell y) (Py.range 0 w))
              (fun s => shaped w h (fst s) /\
                        forall x' y', Map.is_blocked (fst s) x' y'
                                      = Map.is_blocked m x' y')
              (Py.range 0 h)) with (s := (m, r)) as ([m' r'] & Hrun & Hm' & Hsame).
  - intros y s Hy Hs. apply elem_of_range in Hy.
    apply (for_each_keeps (MapGen.paint_cell y)
             (fun s => shaped w h (fst s) /\
                       forall x' y', Map.is_blocked (fst s) x' y'
                                     = Map.is_blocked m x' y')); [|exact Hs].
    intros x s1 Hx Hs1. apply elem_of_range in Hx.
    apply (paint_cell_spec m x y s1 Hx Hy Hs1).
  - split; [exact Hm|reflexivity].
  - exists m', r'. split; [exact Hrun|]. split; assumption.
Qed.

Lemma place_rooms_grows : forall attempts rooms m r rooms' m' r',
  MapGen.place_rooms attempts rooms m r = Some (rooms', m', r') ->
  (length rooms <= length rooms')%nat.
Proof.
  induction attempts as [|k IH]; intros rooms m r rooms' m' r' Hrun.
  - injection Hrun as <- _ _. reflexivity.
  - cbn [MapGen.place_rooms] in Hrun.
    destruct (Z.of_nat (length rooms) <? 5);
      [|injection Hrun as <- _ _; reflexivity].
    apply bind_Some in Hrun as (wd & _ & Hrun).
    apply bind_Some in Hrun as (ht & _ & Hrun).
    apply bind_Some in Hrun as (x & _ & Hrun).
    apply bind_Some in Hrun as (y & _ & Hrun).
    destruct (existsb _ rooms); [apply (IH _ _ _ _ _ _ Hrun)|].
    apply bind_Some in Hrun as (m1 & _ & Hrun).
    apply IH in Hrun. rewrite length_app in Hrun. lia.
Qed.

Lemma place_rooms_first k m r rooms' m' r' :
  MapGen.place_rooms (S k) [] m r = Some (rooms', m', r') -> rooms' <> [].
Proof.
  cbn [MapGen.place_rooms length]. cbn [Z.of_nat Z.ltb Z.compare].
  intros Hrun.
  apply bind_Some in Hrun as (wd & _ & Hrun).
  apply bind_Some in Hrun as (ht & _ & Hrun).
  apply bind_Some in Hrun as (x & _ & Hrun).
  apply bind_Some in Hrun as (y & _ & Hrun).
  cbn [existsb] in Hrun.
  apply bind_Some in Hrun as (m1 & _ & Hrun).
  apply place_rooms_grows in Hrun. cbn in Hrun.
  intros ->. cbn in Hrun. lia.
Qed.

End Painting.

(** ** The generated dungeon *)

Section Dungeon.

Variables w h : Z.
Hypothesis Hw : 10 <= w.
Hypothesis Hh : 8 <= h.

Lemma rooms_dungeon m0 r :
  Map.width m0 = w -> Map.height m0 = h ->
  exists m r', MapGen.generate_maze_rooms m0 r = Some (m, r') /\
    shaped w h m /\
    (exists p, open_at m p) /\
    connected m /\
    (forall x y, ~ (0 < x < w - 1 /\ 0 < y < h - 1) ->
                 Map.is_blocked m x y = Some true).
Proof.
  intros Hwm Hhm. unfold MapGen.generate_maze_rooms, MapGen.generate_rooms.
  rewrite Hwm, Hhm.
  pose proof (blank_drawn w h Hw Hh m0 Hwm Hhm) as Hblank.
  destruct (place_rooms_spec w h Hw Hh 100 [] _ r Hblank (Forall_nil_2 _))
    as (rooms & m1 & r1 & Hplace & Hdrawn1 & Hfits).
  rewrite Hplace. cbn [mbind option_bind].
  pose proof (place_rooms_first _ _ _ _ _ _ Hplace) as Hsome.
  destruct (connect_all_spec w h rooms _ m1 Hfits Hdrawn1)
    as (m2 & -> & Hdrawn2).
  cbn [mbind option_bind].
  destruct (paint_spec w h m2 r1 ltac:(apply Hdrawn2))
    as (m3 & r3 & -> & Hm3 & Hsame).
  exists m3, r3. split; [reflexivity|]. split; [exact Hm3|].
  assert (Hopen : forall p, open_at m3 p <-> open_at m2 p).
  { intros p. unfold open_at. rewrite Hsame. reflexivity. }
  split; [|split].
  - destruct rooms as [|room0 rooms]; [contradiction|].
    exists (MapGen.center room0). apply Hopen.
    rewrite (surjective_pairing (MapGen.center room0)).
    apply (open_drawn w h m2 _ _ _ Hdrawn2).
    apply Forall_cons in Hfits as [Hfit0 _].
    pose proof (center_on_floor w h room0 Hfit0) as Hcen.
    pose proof (floor_inside w h room0 _ _ Hfit0 Hcen).
    split; [lia|]. rewrite on_floors_cons, Hcen. reflexivity.
  - intros a b Ha Hb. apply Hopen in Ha, Hb.
    apply (walk_mono m2 m3); [intros p Hp; apply Hopen, Hp|].
    apply (drawn_connected w h m2 rooms Hfits Hdrawn2 a b Ha Hb).
  - intros x y Hout. rewrite Hsame.
    destruct Hdrawn2 as [(Hwf2 & Hwm2 & Hhm2) Hget].
    unfold Map.is_blocked.
    destruct (Map.in_bounds m2 x y) eqn:Hb; [|reflexivity]. cbn [negb].
    apply in_bounds_spec in Hb. rewrite Hwm2, Hhm2 in Hb.
    rewrite (Hget x y) by lia. cbn [mbind option_bind].
    destruct (on_floors rooms x y || on_corridors rooms x y) eqn:Hcov;
      [|reflexivity].
    destruct Hout. apply (covered_inside w h rooms x y Hfits Hcov).
Qed.

End Dungeon.

Lemma place_rooms_too_small k m r :
  Map.width m < 6 \/ Map.height m < 6 ->
  MapGen.place_rooms (S k) [] m r = None.
Proof.
  intros Hsmall. cbn [MapGen.place_rooms length].
  cbn [Z.of_nat Z.ltb Z.compare].
  destruct (randint_range 4 8 r ltac:(lia)) as (wd & r1 & -> & Hwd).
  cbn [mbind option_bind fst snd].
  destruct (randint_range 4 6 r1 ltac:(lia)) as (ht & r2 & -> & Hht).
  cbn [mbind option_bind fst snd].
  destruct (Z_lt_le_dec (Map.width m - wd - 1) 1) as [Hx|Hx].
  - rewrite randint_empty by lia. reflexivity.
  - destruct (randint_range 1 (Map.width m - wd - 1) r2 Hx)
      as (x & r3 & -> & _).
    cbn [mbind option_bind fst snd].
    rewrite randint_empty by lia. reflexivity.
Qed.

Lemma rooms_too_small m0 r :
  Map.width m0 < 6 \/ Map.height m0 < 6 ->
  MapGen.generate_maze_rooms m0 r = None.
Proof.
  intros Hsmall.
  unfold MapGen.generate_maze_rooms, MapGen.generate_rooms.
  rewrite (place_rooms_too_small 99); [reflexivity|exact Hsmall].
Qed.

(** X17.  The dungeon of rooms: on a map at least 10 wide and 8 high,
    [generate_maze(use_rooms=True)] always returns; the grid it leaves has
    the size of the map and at least one cell that can be walked on; every
    cell that can be walked on is reached from every other by steps up,
    down, left and right over such cells; and every cell of the outer edge
    of the map, like every cell outside it, is blocked.  On a map less than
    6 wide or less than 6 high it raises the [ValueError] of
    [random.randint] on an empty range while placing the first room. *)
Theorem X17_rooms_dungeon_connected (m0 : Map.t) (r : Random.t) :
  (10 <= Map.width m0 -> 8 <= Map.height m0 ->
   exists m r', MapGen.generate_maze_rooms m0 r = Some (m, r') /\
     shaped (Map.width m0) (Map.height m0) m /\
     (exists p, open_at m p) /\
     connected m /\
     (forall x y, ~ (0 < x < Map.width m0 - 1 /\ 0 < y < Map.height m0 - 1) ->
                  Map.is_blocked m x y = Some true)) /\
  (Map.width m0 < 6 \/ Map.height m0 < 6 ->
   MapGen.generate_maze_rooms m0 r = None).
Proof.
  split.
  - intros Hw Hh. apply rooms_dungeon; auto.
  - apply rooms_too_small.
Qed.

Lemma X17_rooms_dungeon_connected_witness :
  let r : Random.t := fun k => Z.of_nat (k * 37 + 11) in
  (exists m r', MapGen.generate_maze_rooms (Map.mk 24 12 []) r = Some (m, r') /\
     shaped 24 12 m /\ (exists p, open_at m p) /\ connected m /\
     (forall x y, ~ (0 < x < 24 - 1 /\ 0 < y < 12 - 1) ->
                  Map.is_blocked m x y = Some true)) /\
  MapGen.generate_maze_rooms (Map.mk 5 12 []) r = None.
Proof.
  cbv zeta.
  destruct (X17_rooms_dungeon_connected (Map.mk 24 12 [])
              (fun k => Z.of_nat (k * 37 + 11))) as [Hbig _].
  destruct (X17_rooms_dungeon_connected (Map.mk 5 12 [])
              (fun k => Z.of_nat (k * 37 + 11))) as [_ Hsmall].
  split.
  - apply Hbig; cbn; lia.
  - apply Hsmall. left. cbn. lia.
Defined.
